(** * QuantumFlow: operations, gates, composites and classical-control operations

    A shallow embedding of [quantumflow/operations.py] and
    [quantumflow/stdops.py], and of the comparisons of [quantumflow/var.py],
    with the properties of the operation algebra stated and proved over it.

    Conventions.
    - A qubit label and a classical address are natural numbers (hashable,
      totally ordered labels).
    - A Python exception is a value of [Exception]; a function that may raise
      returns a [Result].
    - A numpy array is its C-order flat buffer, a list of entries; the shape is
      the one the code gives it ([2^N, 2^N] for an operator, [2]*n for a
      tensor of rank n).  Entries live in an arbitrary commutative ring.
    - A Python float is a rational number: the finite values, taken exactly. *)

From Stdlib Require Import Arith ZArith QArith Qabs Ring ArithRing List Lia String.
From stdpp Require Import base list gmap sorting strings.

#[local] Set Warnings "-register-all".
#[local] Set Default Proof Using "Type".
Local Open Scope string_scope.
Local Open Scope nat_scope.
Local Open Scope list_scope.

(** ** Exceptions and results *)

Inductive Exception : Type :=
| ValueError (msg : string)
| KeyError (key : nat)
| NotImplementedError
| AssertionError
| RecursionError.

Inductive Result (T : Type) : Type :=
| Ok (value : T)
| Raise (e : Exception).

Arguments Ok {T} value.
Arguments Raise {T} e.

(** Sequencing: an exception aborts what follows.  With these instances the
    notation [x ← r; k] reads "run [r], bind its value to [x], go on with [k]". *)
#[global] Instance Result_bind : MBind Result := fun T U k r =>
  match r with
  | Ok v => k v
  | Raise e => Raise e
  end.

#[global] Instance Result_ret : MRet Result := fun T v => Ok v.

#[global] Instance Result_fmap : FMap Result := fun T U f r =>
  match r with
  | Ok v => Ok (f v)
  | Raise e => Raise e
  end.

(** [for x in xs: ... f(x) ...] collecting the results, stopping at the first
    exception. *)
Fixpoint mapM {T U : Type} (f : T -> Result U) (xs : list T) : Result (list U) :=
  match xs with
  | [] => Ok []
  | x :: xs' => y ← f x; ys ← mapM f xs'; Ok (y :: ys)
  end.

Definition is_ok {T : Type} (r : Result T) : bool :=
  match r with Ok _ => true | Raise _ => false end.

(** ** Labels *)

Abbreviation Qubit := nat (only parsing).
Abbreviation Addr := nat (only parsing).
Abbreviation Qubits := (list nat) (only parsing).
Abbreviation Addrs := (list nat) (only parsing).

(** [tuple(sorted(set(xs)))]: duplicates removed, ascending order. *)
Definition sorted_set (xs : list nat) : list nat :=
  merge_sort le (remove_dups xs).

(** The members of [xs] without repetition, in the order of their first use. *)
Definition first_use_order (xs : list nat) : list nat :=
  foldl (fun seen x => if decide (x ∈ seen) then seen else seen ++ [x]) [] xs.

(** [set(xs).issubset(set(ys))] *)
Definition issubset (xs ys : list nat) : bool :=
  forallb (fun x => bool_decide (x ∈ ys)) xs.

(** Position of the first occurrence of [x] in [xs]. *)
Fixpoint find_index (xs : list nat) (x : nat) : option nat :=
  match xs with
  | [] => None
  | y :: ys => if decide (y = x) then Some 0 else S <$> find_index ys x
  end.

Definition position (xs : list nat) (x : nat) : nat := default 0 (find_index xs x).

(** [[xs.index(y) for y in ys]], every [y] being in [xs]. *)
Definition positions (xs ys : list nat) : list nat := map (position xs) ys.

(** [xs.index(x)]: [ValueError] when [x] is absent. *)
Definition index (xs : list nat) (x : nat) : Result nat :=
  match find_index xs x with
  | Some i => Ok i
  | None => Raise (ValueError "tuple.index(x): x not in tuple")
  end.

Module Operations.

(** The entries of operators and state vectors, with the ring operations the
    tensor contraction uses. *)
Class Entries (C : Type) : Type := {
  c0 : C;
  c1 : C;
  cadd : C -> C -> C;
  cmul : C -> C -> C;
  csub : C -> C -> C;
  copp : C -> C
}.

Section Model.
Context {C : Type} {entries : Entries C}.

(** *** Arrays

    A numpy array of shape [[2]*n] is the list of its [2^n] entries in C
    order: the entry at multi-index [idx] (most significant axis first) sits
    at offset [ravel idx].  [np.reshape] between [(2^N, 2^N)] and [[2]*(2N)]
    leaves the buffer as it is. *)

(** The array of [n] entries whose entry at offset [k] is [f k]. *)
Definition tabulate (n : nat) (f : nat -> C) : list C := map f (seq 0 n).

(** Offset of a multi-index (one bit per axis, first axis most significant). *)
Definition ravel (idx : list bool) : nat :=
  fold_left (fun acc (b : bool) => 2 * acc + (if b then 1 else 0)) idx 0.

(** Multi-index of rank [n] of an offset: [np.unravel_index (k, [2]*n)]. *)
Fixpoint unravel (n k : nat) : list bool :=
  match n with
  | 0 => []
  | S n' => unravel n' (k / 2) ++ [Nat.odd k]
  end.

(** All multi-indices of rank [n], in offset order. *)
Definition all_idx (n : nat) : list (list bool) := map (unravel n) (seq 0 (2 ^ n)).

(** [[idx[a] for a in axes]] *)
Definition gather (axes : list nat) (idx : list bool) : list bool :=
  map (fun a => nth a idx false) axes.

(** [idx] with [idx[axes[k]] = s[k]] written for every [k]. *)
Definition scatter (axes : list nat) (s idx : list bool) : list bool :=
  map (fun p => match find_index axes p with
                | Some k => nth k s false
                | None => nth p idx false
                end) (seq 0 (length idx)).

(** The inverse of a permutation of [range(n)]: where each axis went. *)
Definition inverse_axes (axes : list nat) : list nat :=
  positions axes (seq 0 (length axes)).

Definition csum (xs : list C) : C := foldr cadd c0 xs.

(** Entry of a flat array at a multi-index. *)
Definition at_idx (t : list C) (idx : list bool) : C := nth (ravel idx) t c0.

(** [np.eye(d)], flat. *)
Definition np_eye (d : nat) : list C :=
  tabulate (d * d) (fun k => if decide (k / d = k mod d) then c1 else c0).

(** [np.transpose(t, axes)] of a tensor of shape [[2]*rank]: axis [k] of the
    result is axis [axes[k]] of [t]; [ValueError] unless [axes] is a
    permutation of [range(rank)].  The entry of the result at [idx'] is the
    entry of [t] at the [idx] with [idx'[k] = idx[axes[k]]]. *)
Definition np_transpose (rank : nat) (t : list C) (axes : list nat) : Result (list C) :=
  if decide (axes ≡ₚ seq 0 rank) then
    Ok (tabulate (2 ^ rank) (fun k =>
          at_idx t (gather (inverse_axes axes) (unravel rank k))))
  else Raise (ValueError "axes don't match array").

(** Modelled from the spec: [utils.math.tensormul] is not among the sources.
    The spec asks of the tensor contraction primitive that, given an operator
    matrix, a target tensor and an index mapping, it returns the contracted
    tensor with the semantics of standard array-index contraction: the
    column indices of the operator [A] (rank [2K], [K = len(indices)]) are
    summed against the axes [indices] of [B], and the row indices of [A] take
    their place,
      [out[o] = sum_s A[o[indices], s] * B[o with o[indices[k]] = s[k]]]. *)
Definition tensormul (A B : list C) (indices : list nat) : list C :=
  let n := Nat.log2 (length B) in
  let K := length indices in
  tabulate (2 ^ n) (fun k =>
    let o := unravel n k in
    csum (map (fun s => cmul (at_idx A (gather indices o ++ s))
                             (at_idx B (scatter indices s o)))
              (all_idx K))).

(** *** QuantumGate

    A gate instance: its qubits and its operator, a [2^N x 2^N] array stored
    row-major.  [Unitary (tensor, qubits)] is the general constructor the
    source calls to build the result of a composition or a permutation. *)
Record QuantumGate : Type := Unitary {
  operator : list C;
  g_qubits : Qubits
}.

(** Modelled from the spec: [gates.Identity] is not among the sources; its
    operator is the identity matrix of dimension [2^N] over its qubits. *)
Definition Identity (qubits : Qubits) : QuantumGate :=
  Unitary (np_eye (2 ^ length qubits)) qubits.

(** [tuple(set(self.qubits) - set(other.qubits))].  The iteration order of a
    Python set is not specified; ascending order is taken here. *)
Definition extra_qubits (self other : QuantumGate) : Qubits :=
  sorted_set (filter (fun q => q ∉ g_qubits other) (g_qubits self)).

(** [QuantumGate.__matmul__]: [self @ other], the action of [self] upon
    [other].  The method calls itself when [other] lacks qubits of [self];
    [fuel] bounds the depth of these calls. *)
Fixpoint matmul_fuel (fuel : nat) (self other : QuantumGate) : Result QuantumGate :=
  match fuel with
  | 0 => Raise RecursionError
  | S fuel' =>
      let extra := extra_qubits self other in
      if decide (length extra ≠ 0) then
        padded ← matmul_fuel fuel' other (Identity (g_qubits other ++ extra));
        matmul_fuel fuel' self padded
      else
        indices ← mapM (index (g_qubits other)) (g_qubits self);
        Ok (Unitary (tensormul (operator self) (operator other) indices)
                    (g_qubits other))
  end.

(** Two nested calls are all the method makes (see [matmul_fuel_enough]). *)
Definition matmul (self other : QuantumGate) : Result QuantumGate :=
  matmul_fuel 2 self other.

(** [for rr in range(0, 2): pperm += [rr * N + idx for idx in perm]] *)
Definition pperm (N : nat) (perm : list nat) : list nat :=
  flat_map (fun rr => map (fun idx => rr * N + idx) perm) (seq 0 2).

(** [QuantumGate.permute].  [np.reshape] raises unless the operator has the
    [2^(2N)] entries of the new shape, and keeps the buffer. *)
Definition permute (self : QuantumGate) (qubits : Qubits) : Result QuantumGate :=
  if decide (g_qubits self = qubits) then Ok self
  else
    perm ← mapM (index (g_qubits self)) qubits;
    let N := length (g_qubits self) in
    if decide (length (operator self) = 2 ^ (2 * N)) then
      tensor ← np_transpose (2 * N) (operator self) (pperm N perm);
      Ok (Unitary tensor qubits)
    else Raise (ValueError "cannot reshape array").

(** *** States *)

(** Modelled from the spec: [states.Ket] is not among the sources.  A pure
    state carries its vector, its ordered qubits and a classical memory. *)
Record Ket : Type := mkKet {
  vector : list C;
  k_qubits : Qubits;
  k_data : gmap nat Z
}.

(** Modelled from the spec: [states.Density], a mixed state. *)
Record Density : Type := mkDensity {
  rho_tensor : list C;
  rho_qubits : Qubits;
  rho_data : gmap nat Z
}.

Inductive QuantumState : Type :=
| StKet (ket : Ket)
| StDensity (rho : Density)
| StOther.

(** Modelled from the spec: [states.zero_ket], the all-zero pure state over
    the given qubits: amplitude one on the basis state [|0...0>]. *)
Definition zero_ket (qubits : Qubits) : Ket :=
  mkKet (tabulate (2 ^ length qubits) (fun k => if decide (k = 0) then c1 else c0))
        qubits ∅.

(** [QuantumGate._run_ket] *)
Definition gate_run_ket (self : QuantumGate) (ket : Ket) : Result Ket :=
  indices ← mapM (index (k_qubits ket)) (g_qubits self);
  Ok (mkKet (tensormul (operator self) (vector ket) indices) (k_qubits ket) (k_data ket)).

(** *** QuantumOperation

    The concrete operations of [operations.py]: gates, composites, and any
    other concrete operation, which has no gate form and no adjoint
    ([asgate] and [H] raise [ValueError], as the abstract methods document)
    and inherits the base [_run_ket], which raises [NotImplementedError]. *)
Inductive QuantumOperation : Type :=
| OpGate (g : QuantumGate)
| OpComposite (elements : list QuantumOperation) (qubits : Qubits) (addrs : Addrs)
| OpOther (qubits : Qubits) (addrs : Addrs).

(** [QuantumOperation.qubits] *)
Definition qubits (op : QuantumOperation) : Qubits :=
  match op with
  | OpGate g => g_qubits g
  | OpComposite _ qs _ => qs
  | OpOther qs _ => qs
  end.

(** [QuantumOperation.addrs]; a gate is constructed with the default [()]. *)
Definition addrs (op : QuantumOperation) : Addrs :=
  match op with
  | OpGate _ => []
  | OpComposite _ _ ads => ads
  | OpOther _ ads => ads
  end.

(** [QuantumOperation.qubit_nb] *)
Definition qubit_nb (op : QuantumOperation) : nat := length (qubits op).

(** [Composite._elements]; another operation iterates as itself. *)
Definition elements_of (op : QuantumOperation) : list QuantumOperation :=
  match op with
  | OpComposite els _ _ => els
  | _ => [op]
  end.

(** *** QuantumComposite.__init__ *)

(** [tuple(sorted(set([q for elem in elements for q in elem.qubits])))] *)
Definition elem_qubits (elements : list QuantumOperation) : Qubits :=
  sorted_set (flat_map qubits elements).

(** [tuple(sorted(set([c for elem in elements for c in elem.addrs])))] *)
Definition elem_addrs (elements : list QuantumOperation) : Addrs :=
  sorted_set (flat_map addrs elements).

Definition QuantumComposite_init (elements : list QuantumOperation)
    (qubits : option Qubits) (addrs : option Addrs) : Result QuantumOperation :=
  qs ← match qubits with
        | None => Ok (elem_qubits elements)
        | Some qs =>
            if issubset (elem_qubits elements) qs then Ok qs
            else Raise (ValueError "Incommensurate qubits")
        end;
  ads ← match addrs with
         | None => Ok (elem_addrs elements)
         | Some ads =>
             if issubset (elem_addrs elements) ads then Ok ads
             else Raise (ValueError "Incommensurate addresses")
         end;
  Ok (OpComposite elements qs ads).

(** *** QuantumComposite.asgate

    [gate = Identity(self.qubits); for elem in self: gate = elem.asgate() @ gate] *)
Fixpoint asgate (op : QuantumOperation) : Result QuantumGate :=
  match op with
  | OpGate g => Ok g
  | OpComposite elements qs _ =>
      fold_left (fun (acc : Result QuantumGate) elem =>
                   gate ← acc; g ← asgate elem; matmul g gate)
                elements (Ok (Identity qs))
  | OpOther _ _ => Raise (ValueError "operation cannot be converted to a Gate")
  end.

(** The fold in the order the specification words it, "the last child in the
    sequence is composed onto the accumulator first"; to be compared with
    [asgate]. *)
Fixpoint asgate_last_child_first (op : QuantumOperation) : Result QuantumGate :=
  match op with
  | OpGate g => Ok g
  | OpComposite elements qs _ =>
      foldr (fun elem (acc : Result QuantumGate) =>
               gate ← acc; g ← asgate_last_child_first elem; matmul g gate)
            (Ok (Identity qs)) elements
  | OpOther _ _ => Raise (ValueError "operation cannot be converted to a Gate")
  end.

(** *** QuantumComposite.H

    [QuantumGate.H] is abstract: every concrete gate supplies its own. *)
Section Adjoint.
Variable gate_H : QuantumGate -> QuantumGate.

(** [elements = [elem.H for elem in self._elements[::-1]]], then the
    constructor with the closure of [self].  The last child is conjugated
    first. *)
Fixpoint H (op : QuantumOperation) : Result QuantumOperation :=
  match op with
  | OpGate g => Ok (OpGate (gate_H g))
  | OpComposite elements qs ads =>
      hs ← foldr (fun elem (acc : Result (list QuantumOperation)) =>
                    done ← acc; h ← H elem; Ok (done ++ [h]))
                 (Ok []) elements;
      QuantumComposite_init hs (Some qs) (Some ads)
  | OpOther _ _ => Raise (ValueError "operation does not support Hermitian conjugation")
  end.

End Adjoint.

(** *** QuantumOperation.run *)

(** [_run_ket]: the gate's contraction; for a composite,
    [for elem in self: ket = elem._run_ket(ket)]; the base method raises. *)
Fixpoint run_ket (op : QuantumOperation) (ket : Ket) : Result Ket :=
  match op with
  | OpGate g => gate_run_ket g ket
  | OpComposite elements _ _ =>
      fold_left (fun (acc : Result Ket) elem => k ← acc; run_ket elem k)
                elements (Ok ket)
  | OpOther _ _ => Raise NotImplementedError
  end.

(** [_run_density]: only the composite overrides the base method. *)
Fixpoint run_density (op : QuantumOperation) (rho : Density) : Result Density :=
  match op with
  | OpGate _ => Raise NotImplementedError
  | OpComposite elements _ _ =>
      fold_left (fun (acc : Result Density) elem => r ← acc; run_density elem r)
                elements (Ok rho)
  | OpOther _ _ => Raise NotImplementedError
  end.

(** [QuantumOperation.run (state = None)] *)
Definition run (op : QuantumOperation) (state : option QuantumState) : Result QuantumState :=
  match state with
  | None =>
      let ket := zero_ket (qubits op) in
      StKet <$> run_ket op ket
  | Some (StKet ket) => StKet <$> run_ket op ket
  | Some (StDensity rho) => StDensity <$> run_density op rho
  | Some StOther => Raise NotImplementedError
  end.

(** *** Well-formed operations *)

(** The invariants of a gate: no qubit twice, and an operator of dimension
    [2^N]. *)
Definition gate_wf (g : QuantumGate) : Prop :=
  NoDup (g_qubits g) ∧ length (operator g) = 2 ^ (2 * length (g_qubits g)).

(** The check of the constructor, which every composite instance has passed,
    at every level of nesting. *)
Fixpoint closed (op : QuantumOperation) : bool :=
  match op with
  | OpComposite elements qs ads =>
      issubset (elem_qubits elements) qs && issubset (elem_addrs elements) ads
      && forallb closed elements
  | _ => true
  end.

(** Every leaf of the operation is a gate that satisfies [P]. *)
Fixpoint all_gates (P : QuantumGate -> Prop) (op : QuantumOperation) : Prop :=
  match op with
  | OpGate g => P g
  | OpComposite elements _ _ => foldr (fun e rest => all_gates P e ∧ rest) True elements
  | OpOther _ _ => False
  end.

(** No composite, at any level of nesting, declares a qubit twice. *)
Fixpoint unique_qubits (op : QuantumOperation) : Prop :=
  match op with
  | OpComposite elements qs _ =>
      NoDup qs ∧ foldr (fun e rest => unique_qubits e ∧ rest) True elements
  | _ => True
  end.

(** A state the operation can run on: it has the operation's qubits, and
    one amplitude for each basis state. *)
Definition ket_for (op : QuantumOperation) (ket : Ket) : Prop :=
  (∀ q, q ∈ qubits op → q ∈ k_qubits ket) ∧
  length (vector ket) = 2 ^ length (k_qubits ket).

(** *** Standard gates: class-level descriptors *)

Inductive OperatorStructure : Type :=
| identity
| diagonal
| permutation
| swap
| monomial
| unstructured.

(** A sympy matrix, as the list of its rows; the entries are symbolic
    expressions, which form a ring like the numeric entries. *)
Definition SymMatrix : Type := list (list C).

Definition sym_cols (M : SymMatrix) : nat :=
  match M with
  | [] => 0
  | row :: _ => length row
  end.

Definition sym_entry (M : SymMatrix) (i j : nat) : C := nth j (nth i M []) c0.

(** [sym.eye(n)]: sympy refuses a negative dimension. *)
Definition sym_eye (n : Z) : Result SymMatrix :=
  if decide (n < 0)%Z then Raise (ValueError "Cannot create a matrix of negative dimension")
  else
    let d := Z.to_nat n in
    Ok (map (fun i => map (fun j => if decide (i = j) then c1 else c0) (seq 0 d))
            (seq 0 d)).

(** [sym.diag(A, B)]: the block-diagonal matrix of [A] then [B]. *)
Definition sym_diag (A B : SymMatrix) : SymMatrix :=
  map (fun row => row ++ repeat c0 (sym_cols B)) A
  ++ map (fun row => repeat c0 (sym_cols A) ++ row) B.

(** [M[r0 : r0 + h, k0 : k0 + w]] *)
Definition sym_block (M : SymMatrix) (r0 k0 h w : nat) : SymMatrix :=
  map (fun row => take w (drop k0 row)) (take h (drop r0 M)).

(** The class variables of a concrete [QuantumStdGate] subclass. *)
Record StdGateClass : Type := {
  cls_name : string;
  cv_params : list string;
  cv_qubit_nb : nat;
  cv_sym_operator : SymMatrix;
  cv_operator_structure : OperatorStructure;
  cv_hermitian : bool
}.

(** A concrete [QuantumStdCtrlGate] subclass: the class variables and
    [cv_target]. *)
Record StdCtrlGateClass : Type := {
  ctrl_class :> StdGateClass;
  cv_target : StdGateClass
}.

(** The type of a parameter in the annotations of [__init__]. *)
Inductive Annotation : Type :=
| AnnVariable
| AnnQubit
| AnnOther.

(** What the class statement of a controlled gate provides: its name, the
    annotations of its [__init__], its [cv_target], and the [cv_params] and
    [cv_qubit_nb] it inherits from its parent class ([()] and [0] under
    [QuantumStdCtrlGate] itself). *)
Record CtrlGateDeclaration : Type := {
  decl_name : string;
  decl_annotations : list (string * Annotation);
  decl_target : StdGateClass;
  decl_inherited : list string * nat
}.

(** The loop over [cls.__init__.__annotations__]: the names of the
    parameters typed [Variable], and the count of those typed [Qubit]. *)
Definition parse_annotations (annotations : list (string * Annotation))
    : list string * nat :=
  fold_left (fun (acc : list string * nat) (item : string * Annotation) =>
               match item.2 with
               | AnnVariable => (acc.1 ++ [item.1], acc.2)
               | AnnQubit => (acc.1, acc.2 + 1)
               | AnnOther => acc
               end)
            annotations ([], 0).

(** [QuantumStdGate.__init_subclass__]: [cv_params] and [cv_qubit_nb] of the
    new class.  A class whose name starts with "Quantum" is left with what it
    inherits.  (The registration of the class and the generated docstring
    are left out.) *)
Definition StdGate_init_subclass (name : string)
    (annotations : list (string * Annotation)) (inherited : list string * nat)
    : list string * nat :=
  if String.prefix "Quantum" name then inherited
  else parse_annotations annotations.

Definition ctrl_structure (target : OperatorStructure) : OperatorStructure :=
  match target with
  | identity => identity
  | diagonal => diagonal
  | permutation => permutation
  | swap => permutation
  | monomial => monomial
  | unstructured => unstructured
  end.

(** [QuantumStdCtrlGate.__init_subclass__] *)
Definition StdCtrlGate_init_subclass (decl : CtrlGateDeclaration)
    : Result StdCtrlGateClass :=
  let (params, qubit_nb) :=
    StdGate_init_subclass (decl_name decl) (decl_annotations decl)
                          (decl_inherited decl) in
  let target := decl_target decl in
  if decide (cv_params target = params) then
    ctrl_block ← sym_eye (2 ^ Z.of_nat qubit_nb - 2 ^ Z.of_nat (cv_qubit_nb target))%Z;
    Ok {| ctrl_class :=
            {| cls_name := decl_name decl;
               cv_params := params;
               cv_qubit_nb := qubit_nb;
               cv_sym_operator := sym_diag ctrl_block (cv_sym_operator target);
               cv_operator_structure := ctrl_structure (cv_operator_structure target);
               cv_hermitian := cv_hermitian target |};
          cv_target := target |}
  else Raise AssertionError.

(** [QuantumStdCtrlGate.control_qubit_nb] *)
Definition control_qubit_nb (cls : StdCtrlGateClass) : Z :=
  (Z.of_nat (cv_qubit_nb cls) - Z.of_nat (cv_qubit_nb (cv_target cls)))%Z.

(** A square matrix of dimension [d]. *)
Definition sym_square (d : nat) (M : SymMatrix) : Prop :=
  length M = d ∧ Forall (fun row => length row = d) M.

End Model.

Arguments QuantumGate C : clear implicits.
Arguments QuantumOperation C : clear implicits.
Arguments Ket C : clear implicits.
Arguments Density C : clear implicits.
Arguments QuantumState C : clear implicits.
Arguments SymMatrix C : clear implicits.
Arguments StdGateClass C : clear implicits.
Arguments StdCtrlGateClass C : clear implicits.
Arguments CtrlGateDeclaration C : clear implicits.

(** The integers as entries, for running the model. *)
#[export] Instance Z_entries : Entries Z :=
  {| c0 := 0%Z; c1 := 1%Z; cadd := Z.add; cmul := Z.mul; csub := Z.sub; copp := Z.opp |}.

(** Some gates with integer operators. *)
Definition Pauli_X (q : nat) : QuantumGate Z := Unitary [0; 1; 1; 0]%Z [q].
Definition CNOT (control target : nat) : QuantumGate Z :=
  Unitary [1; 0; 0; 0;  0; 1; 0; 0;  0; 0; 0; 1;  0; 0; 1; 0]%Z [control; target].
Definition shear_upper (q : nat) : QuantumGate Z := Unitary [1; 1; 0; 1]%Z [q].
Definition shear_lower (q : nat) : QuantumGate Z := Unitary [1; 0; 1; 1]%Z [q].

(** The adjoint of a gate with a real operator: the transposed operator. *)
Definition real_adjoint (g : QuantumGate Z) : QuantumGate Z :=
  let d := 2 ^ length (g_qubits g) in
  Unitary (tabulate (d * d) (fun k => nth ((k mod d) * d + k / d) (operator g) 0%Z))
          (g_qubits g).

(** ** Positions in a tuple *)

Section Positions.
Implicit Types xs ys : list nat.

Lemma find_index_Some xs x i : find_index xs x = Some i → xs !! i = Some x.
Proof.
  revert i. induction xs as [|y ys IH]; intros i; simpl; [discriminate|].
  destruct (decide (y = x)) as [->|Hne].
  - by intros [= <-].
  - destruct (find_index ys x) as [j|]; simpl; [|discriminate].
    intros [= <-]. by apply IH.
Qed.

Lemma find_index_None xs x : find_index xs x = None ↔ x ∉ xs.
Proof.
  induction xs as [|y ys IH]; simpl.
  - split; [intros _; apply not_elem_of_nil|done].
  - rewrite not_elem_of_cons. destruct (decide (y = x)) as [->|Hne].
    + split; [discriminate|]. intros [? _]. congruence.
    + destruct (find_index ys x) as [j|]; simpl.
      * split; [discriminate|]. intros [_ Hx]. by apply IH in Hx.
      * split; [|done]. intros _. split; [congruence|by apply IH].
Qed.

Lemma find_index_elem_of xs x : x ∈ xs → ∃ i, find_index xs x = Some i.
Proof.
  intros Hx. destruct (find_index xs x) as [i|] eqn:Hf; [eauto|].
  by apply find_index_None in Hf.
Qed.

Lemma find_index_lookup xs x i :
  NoDup xs → xs !! i = Some x → find_index xs x = Some i.
Proof.
  intros Hnd Hi. destruct (find_index_elem_of xs x) as [j Hj].
  { by eapply list_elem_of_lookup_2. }
  rewrite Hj. f_equal. apply find_index_Some in Hj.
  by eapply NoDup_lookup.
Qed.

Lemma position_lt xs x : x ∈ xs → position xs x < length xs.
Proof.
  intros [i Hi]%find_index_elem_of. unfold position. rewrite Hi. simpl.
  apply find_index_Some in Hi. by eapply lookup_lt_Some.
Qed.

Lemma lookup_position xs x : x ∈ xs → xs !! position xs x = Some x.
Proof.
  intros [i Hi]%find_index_elem_of. unfold position. rewrite Hi. simpl.
  by apply find_index_Some.
Qed.

Lemma position_lookup xs x i : NoDup xs → xs !! i = Some x → position xs x = i.
Proof.
  intros Hnd Hi. unfold position. by rewrite (find_index_lookup xs x i).
Qed.

Lemma index_position xs x : x ∈ xs → index xs x = Ok (position xs x).
Proof.
  intros [i Hi]%find_index_elem_of. unfold index, position. by rewrite Hi.
Qed.

Lemma index_not_elem_of xs x : x ∉ xs → ∃ e, index xs x = Raise e.
Proof.
  intros Hx%find_index_None. unfold index. rewrite Hx. eauto.
Qed.

Lemma mapM_index xs ys :
  (∀ y, y ∈ ys → y ∈ xs) → mapM (index xs) ys = Ok (positions xs ys).
Proof.
  induction ys as [|y ys IH]; intros Hsub; simpl; [reflexivity|].
  rewrite index_position by (apply Hsub; left). simpl.
  rewrite IH by (intros z Hz; apply Hsub; by right). reflexivity.
Qed.

Lemma mapM_index_error xs ys e :
  mapM (index xs) ys = Raise e → e = ValueError "tuple.index(x): x not in tuple".
Proof.
  induction ys as [|y ys IH]; simpl; [discriminate|].
  destruct (index xs y) as [i|e0] eqn:Hi; simpl.
  - destruct (mapM (index xs) ys) as [|e']; simpl; [discriminate|].
    intros [= <-]. by apply IH.
  - intros [= <-]. unfold index in Hi.
    destruct (find_index xs y); [discriminate|]. by injection Hi as <-.
Qed.

Lemma length_positions xs ys : length (positions xs ys) = length ys.
Proof. apply length_map. Qed.

Lemma lookup_positions xs ys k :
  positions xs ys !! k = position xs <$> ys !! k.
Proof. unfold positions. apply list_lookup_fmap. Qed.

(** The positions in [xs] of the members of a rearrangement of [xs] are a
    rearrangement of [range(len(xs))]. *)
Lemma positions_Permutation xs ys :
  NoDup xs → ys ≡ₚ xs → positions xs ys ≡ₚ seq 0 (length xs).
Proof.
  intros Hnd Hp. unfold positions. rewrite Hp.
  assert (Heq : map (position xs) xs = seq 0 (length xs)); [|by rewrite Heq].
  apply list_eq. intros i. rewrite list_lookup_fmap.
  destruct (xs !! i) as [x|] eqn:Hi; simpl.
  - rewrite (position_lookup xs x i) by done.
    symmetry. apply lookup_seq. split; [done|]. by eapply lookup_lt_Some.
  - symmetry. apply lookup_ge_None. rewrite length_seq. by apply lookup_ge_None.
Qed.

(** Going to the order [ys] and back to [xs] returns every position. *)
Lemma positions_inverse xs ys k :
  NoDup xs → ys ≡ₚ xs → k < length xs →
  ∃ m, positions ys xs !! k = Some m ∧ m < length xs ∧
       positions xs ys !! m = Some k.
Proof.
  intros Hnd Hp Hk.
  destruct (lookup_lt_is_Some_2 xs k Hk) as [x Hx].
  assert (Hxy : x ∈ ys) by (rewrite Hp; by eapply list_elem_of_lookup_2).
  exists (position ys x). rewrite !lookup_positions, Hx. simpl.
  split_and!; [done| |].
  - rewrite <- (Permutation_length Hp). by apply position_lt.
  - rewrite (lookup_position ys x Hxy). simpl. f_equal. by apply position_lookup.
Qed.

End Positions.

(** ** Arrays: offsets and multi-indices *)

Section ArrayIndex.
Context {C : Type} {entries : Entries C}.

Lemma length_tabulate (n : nat) (f : nat → C) : length (tabulate n f) = n.
Proof. unfold tabulate. by rewrite length_map, length_seq. Qed.

Lemma nth_tabulate (n k : nat) (f : nat → C) (d : C) :
  k < n → nth k (tabulate n f) d = f k.
Proof.
  intros Hk. unfold tabulate.
  rewrite (nth_indep _ d (f 0)) by (by rewrite length_map, length_seq).
  rewrite (map_nth f (seq 0 n) 0 k). by rewrite seq_nth.
Qed.

Lemma tabulate_ext (n : nat) (f g : nat → C) :
  (∀ k, k < n → f k = g k) → tabulate n f = tabulate n g.
Proof.
  intros Hfg. unfold tabulate. apply map_ext_in. intros k Hk.
  apply in_seq in Hk. apply Hfg. lia.
Qed.

Lemma tabulate_nth (t : list C) (d : C) :
  tabulate (length t) (fun k => nth k t d) = t.
Proof.
  apply (nth_ext _ _ d d); [apply length_tabulate|].
  intros k Hk. rewrite length_tabulate in Hk. by rewrite nth_tabulate.
Qed.

Definition bit_value (b : bool) : nat := if b then 1 else 0.

Lemma ravel_fold (idx : list bool) (acc : nat) :
  fold_left (fun acc (b : bool) => 2 * acc + (if b then 1 else 0)) idx acc
  = acc * 2 ^ length idx + ravel idx.
Proof.
  revert acc. induction idx as [|b idx IH]; intros acc.
  - unfold ravel. simpl. lia.
  - unfold ravel. cbn [fold_left length].
    rewrite (IH (2 * acc + _)), (IH (2 * 0 + _)), Nat.pow_succ_r'. ring.
Qed.

Lemma ravel_app (l1 l2 : list bool) :
  ravel (l1 ++ l2) = ravel l1 * 2 ^ length l2 + ravel l2.
Proof. unfold ravel at 1. rewrite fold_left_app. apply ravel_fold. Qed.

Lemma ravel_snoc (l : list bool) (b : bool) :
  ravel (l ++ [b]) = 2 * ravel l + bit_value b.
Proof. rewrite ravel_app. unfold ravel at 2. simpl. unfold bit_value. lia. Qed.

Lemma ravel_lt (l : list bool) : ravel l < 2 ^ length l.
Proof.
  induction l as [|b l IH] using rev_ind; [simpl; unfold ravel; simpl; lia|].
  rewrite ravel_snoc, length_app. simpl.
  rewrite Nat.add_1_r, Nat.pow_succ_r'. destruct b; simpl; lia.
Qed.

Lemma length_unravel (n k : nat) : length (unravel n k) = n.
Proof.
  revert k. induction n as [|n IH]; intros k; simpl; [reflexivity|].
  rewrite length_app, IH. simpl. lia.
Qed.

Lemma bit_value_odd (k : nat) : bit_value (Nat.odd k) = k mod 2.
Proof.
  unfold bit_value. destruct (Nat.odd k) eqn:Ho.
  - apply Nat.odd_spec in Ho as [m ->].
    by rewrite Nat.add_comm, Nat.mul_comm, Nat.Div0.mod_add.
  - rewrite <- Nat.negb_even in Ho. apply negb_false_iff, Nat.even_spec in Ho as [m ->].
    by rewrite Nat.mul_comm, Nat.Div0.mod_mul.
Qed.

Lemma ravel_unravel (n k : nat) : k < 2 ^ n → ravel (unravel n k) = k.
Proof.
  revert k. induction n as [|n IH]; intros k Hk; cbn [unravel].
  - rewrite Nat.pow_0_r in Hk. unfold ravel. simpl. lia.
  - rewrite Nat.pow_succ_r' in Hk. rewrite ravel_snoc, bit_value_odd, IH.
    + pose proof (Nat.div_mod_eq k 2). lia.
    + apply Nat.Div0.div_lt_upper_bound. lia.
Qed.

Lemma unravel_ravel (l : list bool) : unravel (length l) (ravel l) = l.
Proof.
  induction l as [|b l IH] using rev_ind; [reflexivity|].
  rewrite length_app, Nat.add_1_r, ravel_snoc. cbn [unravel length].
  assert (Hdiv : (2 * ravel l + bit_value b) / 2 = ravel l).
  { symmetry. apply (Nat.div_unique _ 2 _ (bit_value b)); [|reflexivity].
    destruct b; simpl; lia. }
  assert (Hodd : Nat.odd (2 * ravel l + bit_value b) = b).
  { rewrite Nat.odd_add, Nat.odd_mul. simpl. by destruct b. }
  rewrite Hdiv, Hodd, IH. reflexivity.
Qed.

Lemma ravel_inj (l1 l2 : list bool) :
  length l1 = length l2 → ravel l1 = ravel l2 → l1 = l2.
Proof.
  intros Hlen Hr. rewrite <- (unravel_ravel l1), <- (unravel_ravel l2).
  by rewrite Hlen, Hr.
Qed.

Lemma at_idx_tabulate (n : nat) (f : nat → C) (idx : list bool) :
  length idx = n → at_idx (tabulate (2 ^ n) f) idx = f (ravel idx).
Proof.
  intros <-. unfold at_idx. apply nth_tabulate, ravel_lt.
Qed.

(** *** Gathering along axes *)

Lemma length_gather (axes : list nat) (idx : list bool) :
  length (gather axes idx) = length axes.
Proof. apply length_map. Qed.

Lemma lookup_gather (axes : list nat) (idx : list bool) (k : nat) :
  gather axes idx !! k = (fun a => nth a idx false) <$> axes !! k.
Proof. unfold gather. apply list_lookup_fmap. Qed.

Lemma gather_app (a1 a2 : list nat) (idx : list bool) :
  gather (a1 ++ a2) idx = gather a1 idx ++ gather a2 idx.
Proof. apply map_app. Qed.

Lemma gather_seq (idx : list bool) : gather (seq 0 (length idx)) idx = idx.
Proof.
  apply list_eq. intros i. rewrite lookup_gather.
  destruct (idx !! i) as [b|] eqn:Hi.
  - rewrite lookup_seq_lt by (by eapply lookup_lt_Some). simpl.
    f_equal. by apply nth_lookup_Some.
  - rewrite (proj2 (lookup_ge_None (seq 0 (length idx)) i)); [done|].
    rewrite length_seq. by apply lookup_ge_None.
Qed.

(** [Q] undoes [P]: axis [k] is found at [Q[k]] in [P]. *)
Definition undoes (n : nat) (Q P : list nat) : Prop :=
  ∀ k, k < n → ∃ m, Q !! k = Some m ∧ m < n ∧ P !! m = Some k.

Lemma gather_undo (n : nat) (Q P : list nat) (idx : list bool) :
  length idx = n → length Q = n → undoes n Q P →
  gather Q (gather P idx) = idx.
Proof.
  intros Hidx HQ Hundo.
  apply (list_eq_same_length _ _ n); [done|by rewrite length_gather|].
  intros k x y Hk Hx Hy.
  destruct (Hundo k Hk) as (m & Hm & Hmn & HP).
  rewrite lookup_gather, Hm in Hx. simpl in Hx.
  rewrite nth_lookup, lookup_gather, HP in Hx. simpl in Hx.
  rewrite (nth_lookup_Some _ _ _ _ Hy) in Hx. congruence.
Qed.

Lemma inverse_axes_undoes (n : nat) (Q P : list nat) :
  NoDup P → length P = n → length Q = n → undoes n Q P →
  inverse_axes P = Q.
Proof.
  intros Hnd HP HQ Hundo. unfold inverse_axes.
  apply (list_eq_same_length _ _ n); [done|by rewrite length_positions, length_seq|].
  intros k x y Hk Hx Hy.
  destruct (Hundo k Hk) as (m & Hm & Hmn & HPm).
  rewrite lookup_positions, HP, lookup_seq_lt in Hx by done. simpl in Hx.
  rewrite (position_lookup P k m) in Hx by done. congruence.
Qed.

(** *** Reading and writing along the positions of qubits *)

Lemma nth_map_seq {T : Type} (f : nat → T) (n p : nat) (d : T) :
  p < n → nth p (map f (seq 0 n)) d = f p.
Proof.
  intros Hp. rewrite (nth_indep _ d (f 0)) by (by rewrite length_map, length_seq).
  rewrite (map_nth f (seq 0 n) 0 p). by rewrite seq_nth.
Qed.

Lemma length_scatter (axes : list nat) (s idx : list bool) :
  length (scatter axes s idx) = length idx.
Proof. unfold scatter. by rewrite length_map, length_seq. Qed.

Lemma nth_scatter (axes : list nat) (s idx : list bool) (p : nat) :
  p < length idx →
  nth p (scatter axes s idx) false
  = match find_index axes p with
    | Some k => nth k s false
    | None => nth p idx false
    end.
Proof. intros Hp. unfold scatter. by rewrite nth_map_seq. Qed.

Lemma elem_of_all_idx (K : nat) (s : list bool) : s ∈ all_idx K → length s = K.
Proof.
  unfold all_idx. intros (k & <- & _)%list_elem_of_In%in_map_iff.
  apply length_unravel.
Qed.

Lemma gather_app_l (axes : list nat) (r c : list bool) :
  Forall (fun a => a < length r) axes → gather axes (r ++ c) = gather axes r.
Proof.
  intros Hlt. unfold gather. apply map_ext_in. intros a Ha.
  rewrite Forall_forall in Hlt. apply app_nth1, Hlt. by apply list_elem_of_In.
Qed.

Lemma scatter_app_l (axes : list nat) (s r c : list bool) :
  Forall (fun a => a < length r) axes →
  scatter axes s (r ++ c) = scatter axes s r ++ c.
Proof.
  intros Hlt. unfold scatter. rewrite length_app, seq_app, map_app. f_equal.
  - apply map_ext_in. intros p Hp%in_seq.
    destruct (find_index axes p); [done|]. apply app_nth1. lia.
  - simpl. apply (nth_ext _ _ false false); [by rewrite length_map, length_seq|].
    intros i Hi. rewrite length_map, length_seq in Hi.
    rewrite (nth_indep _ false
               (match find_index axes 0 with
                | Some k => nth k s false
                | None => nth 0 (r ++ c) false
                end)) by (by rewrite length_map, length_seq).
    rewrite (map_nth (fun p => match find_index axes p with
                               | Some k => nth k s false
                               | None => nth p (r ++ c) false
                               end) (seq (length r) (length c)) 0 i).
    rewrite seq_nth by done.
    destruct (find_index axes (length r + i)) as [k|] eqn:Hk.
    + apply find_index_Some in Hk. rewrite Forall_forall in Hlt.
      assert (length r + i < length r); [|lia].
      apply Hlt. by eapply list_elem_of_lookup_2.
    + apply app_nth2_plus.
Qed.

Lemma find_index_map_equiv {T : Type} (g1 g2 : T → nat) (l : list T) (y1 y2 : nat) :
  (∀ x, x ∈ l → g1 x = y1 ↔ g2 x = y2) →
  find_index (map g1 l) y1 = find_index (map g2 l) y2.
Proof.
  induction l as [|x l IH]; intros Heq; simpl; [done|].
  rewrite IH by (intros z Hz; apply Heq; by right).
  destruct (decide (g1 x = y1)) as [H1|H1], (decide (g2 x = y2)) as [H2|H2];
    try done; exfalso.
  - apply H2, (Heq x); [left|done].
  - apply H1, (Heq x); [left|done].
Qed.

Lemma position_inj (xs : list nat) (x y : nat) :
  x ∈ xs → y ∈ xs → position xs x = position xs y → x = y.
Proof.
  intros Hx Hy Heq. apply lookup_position in Hx, Hy. rewrite Heq in Hx. congruence.
Qed.

Section ThreeOrders.
(** The qubits [QA] of a gate, among the qubits [QB] of another, among the
    qubits [Q] of a state. *)
Variables Q QB QA : list nat.
Hypothesis QA_QB : ∀ x, x ∈ QA → x ∈ QB.
Hypothesis QB_Q : ∀ x, x ∈ QB → x ∈ Q.
Hypothesis QB_NoDup : NoDup QB.

Lemma positions_lt : Forall (fun a => a < length QB) (positions QB QA).
Proof using QA_QB.
  apply Forall_forall. intros a (x & <- & Hx)%list_elem_of_In%in_map_iff.
  apply position_lt, QA_QB. by apply list_elem_of_In.
Qed.

Lemma gather_positions_compose (o : list bool) :
  gather (positions QB QA) (gather (positions Q QB) o) = gather (positions Q QA) o.
Proof using QA_QB.
  unfold gather, positions. rewrite !map_map. apply map_ext_in. intros x Hx.
  apply list_elem_of_In, QA_QB in Hx.
  apply nth_lookup_Some. rewrite !list_lookup_fmap, (lookup_position QB x Hx). done.
Qed.

Lemma gather_scatter_positions (s o : list bool) :
  length o = length Q →
  gather (positions Q QB) (scatter (positions Q QA) s o)
  = scatter (positions QB QA) s (gather (positions Q QB) o).
Proof using QA_QB QB_Q QB_NoDup.
  intros Ho.
  apply (list_eq_same_length _ _ (length QB)).
  { by rewrite length_scatter, length_gather, length_positions. }
  { by rewrite length_gather, length_positions. }
  intros i b1 b2 Hi H1 H2.
  destruct (lookup_lt_is_Some_2 QB i Hi) as [y Hy].
  assert (HyQ : y ∈ Q) by (apply QB_Q; by eapply list_elem_of_lookup_2).
  rewrite lookup_gather, lookup_positions, Hy in H1. simpl in H1.
  rewrite nth_scatter in H1 by (rewrite Ho; by apply position_lt).
  assert (Hlen : i < length (gather (positions Q QB) o))
    by (by rewrite length_gather, length_positions).
  pose proof (nth_scatter (positions QB QA) s _ i Hlen) as Hs.
  rewrite (nth_lookup_Some _ _ _ _ H2) in Hs.
  assert (Hnth : nth i (gather (positions Q QB) o) false = nth (position Q y) o false).
  { apply nth_lookup_Some. by rewrite lookup_gather, lookup_positions, Hy. }
  rewrite Hnth in Hs.
  assert (Hfind : find_index (positions Q QA) (position Q y)
                  = find_index (positions QB QA) i).
  { apply find_index_map_equiv. intros x Hx. apply QA_QB in Hx. split.
    - intros Heq. apply position_inj in Heq; [|by apply QB_Q|done]. subst x.
      by apply position_lookup.
    - intros <-. by rewrite (lookup_position QB x Hx) in Hy; injection Hy as ->. }
  rewrite Hfind in H1. congruence.
Qed.

Lemma scatter_scatter_positions (s t o : list bool) :
  scatter (positions Q QB) t (scatter (positions Q QA) s o)
  = scatter (positions Q QB) t o.
Proof using QA_QB.
  unfold scatter at 1 3. rewrite length_scatter. apply map_ext_in.
  intros p Hp%in_seq.
  destruct (find_index (positions Q QB) p) as [k|] eqn:Hk; [done|].
  rewrite nth_scatter by lia.
  destruct (find_index (positions Q QA) p) as [j|] eqn:Hj; [|done].
  exfalso. apply find_index_None in Hk. apply Hk.
  apply find_index_Some in Hj. rewrite lookup_positions in Hj.
  destruct (QA !! j) as [x|] eqn:Hx; [|done]. injection Hj as <-.
  apply list_elem_of_In, in_map, list_elem_of_In, QA_QB.
  by eapply list_elem_of_lookup_2.
Qed.

End ThreeOrders.

(** *** The axes of [permute] *)

Lemma pperm_app (N : nat) (perm : list nat) :
  pperm N perm = perm ++ map (fun idx => N + idx) perm.
Proof.
  unfold pperm. simpl. rewrite app_nil_r, map_id. f_equal.
  apply map_ext. intros idx. lia.
Qed.

Lemma length_pperm (N : nat) (perm : list nat) :
  length (pperm N perm) = 2 * length perm.
Proof. rewrite pperm_app, length_app, length_map. lia. Qed.

Lemma pperm_Permutation (N : nat) (perm : list nat) :
  perm ≡ₚ seq 0 N → pperm N perm ≡ₚ seq 0 (2 * N).
Proof.
  intros Hp. rewrite pperm_app.
  replace (2 * N) with (N + N) by lia. rewrite seq_app.
  apply Permutation_app; [exact Hp|].
  transitivity (map (fun idx => N + idx) (seq 0 N)); [by apply Permutation_map|].
  pose proof (fmap_add_seq N 0 N) as Hs. rewrite Nat.add_0_r in Hs.
  rewrite Nat.add_0_l, <- Hs. reflexivity.
Qed.

Lemma lookup_pperm_l (N : nat) (perm : list nat) (k : nat) :
  k < length perm → pperm N perm !! k = perm !! k.
Proof. intros Hk. rewrite pperm_app. by apply lookup_app_l. Qed.

Lemma lookup_pperm_r (N : nat) (perm : list nat) (k : nat) :
  pperm N perm !! (length perm + k) = (fun idx => N + idx) <$> perm !! k.
Proof.
  rewrite pperm_app, lookup_app_r by lia.
  replace (length perm + k - length perm) with k by lia.
  apply list_lookup_fmap.
Qed.

(** The axes that take the order [xs] to [ys] are undone by the axes that
    take [ys] back to [xs]. *)
Lemma pperm_undoes (xs ys : list nat) :
  NoDup xs → ys ≡ₚ xs →
  undoes (2 * length xs) (pperm (length xs) (positions ys xs))
                         (pperm (length xs) (positions xs ys)).
Proof.
  intros Hnd Hp k Hk. set (N := length xs) in *.
  assert (HNy : length ys = N) by (by rewrite Hp).
  destruct (decide (k < N)) as [Hlt|Hge].
  - destruct (positions_inverse xs ys k Hnd Hp Hlt) as (m & Hm & HmN & Hback).
    exists m. rewrite !lookup_pperm_l by (rewrite length_positions; lia).
    split_and!; [done|lia|done].
  - destruct (positions_inverse xs ys (k - N) Hnd Hp) as (m & Hm & HmN & Hback);
      [fold N; lia|].
    exists (N + m).
    replace k with (length (positions ys xs) + (k - N)) at 1
      by (rewrite length_positions; fold N; lia).
    rewrite lookup_pperm_r, Hm. simpl. split_and!; [done|fold N in HmN; lia|].
    replace (N + m) with (length (positions xs ys) + m)
      by (by rewrite length_positions, HNy).
    rewrite lookup_pperm_r, Hback. simpl. f_equal. lia.
Qed.

Lemma gather_pperm (N : nat) (perm : list nat) (r c : list bool) :
  length r = N → Forall (fun a => a < N) perm →
  gather (pperm N perm) (r ++ c) = gather perm r ++ gather perm c.
Proof.
  intros Hr Hperm. rewrite pperm_app, gather_app. f_equal.
  - unfold gather. apply map_ext_in. intros a Ha.
    rewrite Forall_forall in Hperm. apply app_nth1. rewrite Hr.
    apply Hperm. by apply list_elem_of_In.
  - unfold gather. rewrite map_map. apply map_ext. intros a.
    rewrite <- Hr. apply app_nth2_plus.
Qed.

End ArrayIndex.

(** ** Properties of the composite constructor *)

Section SortedSet.

Lemma sorted_set_elem_of (xs : list nat) (x : nat) : x ∈ sorted_set xs ↔ x ∈ xs.
Proof.
  unfold sorted_set. rewrite merge_sort_Permutation. apply elem_of_remove_dups.
Qed.

Lemma sorted_set_NoDup (xs : list nat) : NoDup (sorted_set xs).
Proof.
  unfold sorted_set. rewrite merge_sort_Permutation. apply NoDup_remove_dups.
Qed.

Lemma StronglySorted_le_lt (l : list nat) :
  StronglySorted le l → NoDup l → StronglySorted lt l.
Proof.
  induction 1 as [|x l Hs IH Hall]; intros Hnd; [constructor|].
  apply NoDup_cons in Hnd as [Hx Hnd].
  constructor; [auto|].
  rewrite Forall_forall in Hall |- *. intros y Hy.
  specialize (Hall y Hy).
  assert (x ≠ y) by (intros ->; contradiction).
  lia.
Qed.

Lemma sorted_set_sorted (xs : list nat) : StronglySorted lt (sorted_set xs).
Proof.
  apply StronglySorted_le_lt; [|apply sorted_set_NoDup].
  unfold sorted_set. apply (StronglySorted_merge_sort le).
Qed.

(** Two strictly ascending lists with the same members are the same list. *)
Lemma strictly_sorted_unique (l1 l2 : list nat) :
  StronglySorted lt l1 → StronglySorted lt l2 →
  (∀ x, x ∈ l1 ↔ x ∈ l2) → l1 = l2.
Proof.
  intros H1 H2 Hmem.
  assert (Hnd : ∀ l, StronglySorted lt l → NoDup l).
  { induction 1 as [|x l Hs IH Hall]; constructor; [|assumption].
    intros Hx. rewrite Forall_forall in Hall. specialize (Hall x Hx). lia. }
  apply (StronglySorted_unique_strong lt); try assumption.
  - intros x y _ _ Hxy Hyx. lia.
  - apply NoDup_Permutation; auto.
Qed.

Lemma issubset_spec (xs ys : list nat) :
  issubset xs ys = true ↔ ∀ x, x ∈ xs → x ∈ ys.
Proof.
  unfold issubset. rewrite forallb_forall. split.
  - intros Hall x Hx. apply list_elem_of_In in Hx.
    specialize (Hall x Hx). by apply bool_decide_eq_true in Hall.
  - intros Hall x Hx. apply bool_decide_eq_true, Hall. by apply list_elem_of_In.
Qed.

Lemma issubset_sorted_set (xs ys : list nat) :
  issubset (sorted_set xs) ys = true ↔ ∀ x, x ∈ xs → x ∈ ys.
Proof.
  rewrite issubset_spec. split; intros Hall x Hx; apply Hall.
  - by apply sorted_set_elem_of.
  - by apply (sorted_set_elem_of xs x).
Qed.

Lemma elem_of_flat_map {T : Type} (f : T → list nat) (l : list T) (x : nat) :
  x ∈ flat_map f l ↔ ∃ e, e ∈ l ∧ x ∈ f e.
Proof.
  rewrite list_elem_of_In, in_flat_map. split; intros (e & He & Hx); exists e.
  - by rewrite !list_elem_of_In.
  - by rewrite <- !list_elem_of_In.
Qed.

Lemma first_use_order_spec (xs : list nat) :
  NoDup (first_use_order xs) ∧ ∀ x, x ∈ first_use_order xs ↔ x ∈ xs.
Proof.
  unfold first_use_order.
  assert (Hgen : ∀ seen, NoDup seen →
    let r := foldl (fun seen x => if decide (x ∈ seen) then seen else seen ++ [x]) seen xs in
    NoDup r ∧ ∀ x, x ∈ r ↔ x ∈ seen ∨ x ∈ xs).
  { induction xs as [|y ys IH]; intros seen Hnd; simpl.
    - split; [assumption|]. intros x. rewrite elem_of_nil. tauto.
    - destruct (decide (y ∈ seen)) as [Hin|Hnin].
      + destruct (IH seen Hnd) as [Hnd' Hmem]. split; [assumption|].
        intros x. rewrite Hmem, elem_of_cons.
        split; [tauto|]. intros [?|[->|?]]; tauto.
      + assert (Hnd2 : NoDup (seen ++ [y])).
        { apply NoDup_app. split_and!; [assumption| |apply NoDup_singleton].
          intros x Hx Hx'. apply list_elem_of_singleton in Hx' as ->. contradiction. }
        destruct (IH _ Hnd2) as [Hnd' Hmem]. split; [assumption|].
        intros x. rewrite Hmem, elem_of_app, list_elem_of_singleton, elem_of_cons. tauto. }
  destruct (Hgen [] (NoDup_nil_2)) as [Hnd Hmem]. split; [assumption|].
  intros x. rewrite Hmem, elem_of_nil. tauto.
Qed.

(** The sorted closure is the first-use order only when the latter happens to
    be ascending. *)
Lemma sorted_set_first_use (xs : list nat) :
  sorted_set xs = first_use_order xs ↔ StronglySorted lt (first_use_order xs).
Proof.
  split.
  - intros <-. apply sorted_set_sorted.
  - intros Hs. apply strictly_sorted_unique; [apply sorted_set_sorted|assumption|].
    intros x. rewrite sorted_set_elem_of.
    symmetry. apply first_use_order_spec.
Qed.

Lemma length_remove_dups_le (xs : list nat) : length (remove_dups xs) ≤ length xs.
Proof.
  induction xs as [|x xs IH]; simpl; [done|].
  destruct (decide_rel elem_of x xs); simpl; lia.
Qed.

(** [len (qbs) != len (set (qbs))] detects a repeated member. *)
Lemma length_remove_dups_NoDup (xs : list nat) :
  length (remove_dups xs) = length xs ↔ NoDup xs.
Proof.
  induction xs as [|x xs IH]; simpl.
  - split; [constructor|done].
  - rewrite NoDup_cons. destruct (decide_rel elem_of x xs) as [Hin|Hnin].
    + pose proof (length_remove_dups_le xs). split; [lia|tauto].
    + simpl. rewrite <- IH. split; [intros [=]; done|intros [_ ->]; done].
Qed.

End SortedSet.

Section Composite.
Context {C : Type} {entries : Entries C}.

(** C10.  With no explicit closure the constructor succeeds; the composite's
    qubit tuple is [sorted(set(...))] of the children's qubits: strictly
    ascending, with exactly the qubits some child uses, and it is the
    first-use program order only when that order is itself ascending.  The
    addr tuple likewise. *)
Theorem composite_default_closure (elements : list (QuantumOperation C)) :
  ∃ c,
    QuantumComposite_init elements None None = Ok c ∧
    elements_of c = elements ∧
    StronglySorted lt (qubits c) ∧
    (∀ q, q ∈ qubits c ↔ ∃ e, e ∈ elements ∧ q ∈ qubits e) ∧
    (qubits c = first_use_order (flat_map qubits elements) ↔
       StronglySorted lt (first_use_order (flat_map qubits elements))) ∧
    StronglySorted lt (addrs c) ∧
    (∀ a, a ∈ addrs c ↔ ∃ e, e ∈ elements ∧ a ∈ addrs e) ∧
    (addrs c = first_use_order (flat_map addrs elements) ↔
       StronglySorted lt (first_use_order (flat_map addrs elements))).
Proof.
  eexists. split; [reflexivity|]. simpl. unfold elem_qubits, elem_addrs.
  split_and!.
  - reflexivity.
  - apply sorted_set_sorted.
  - intros q. rewrite sorted_set_elem_of. apply elem_of_flat_map.
  - apply sorted_set_first_use.
  - apply sorted_set_sorted.
  - intros a. rewrite sorted_set_elem_of. apply elem_of_flat_map.
  - apply sorted_set_first_use.
Qed.

(** Children on qubits 2 and 1, in this order: the closure is (1, 2). *)
Example composite_default_closure_example :
  QuantumComposite_init [OpOther [2] [7]; OpOther [1; 2] [3]] None None
  = Ok (OpComposite (C := C) [OpOther [2] [7]; OpOther [1; 2] [3]] [1; 2] [3; 7]).
Proof. reflexivity. Qed.

Definition covers (closure : list nat) (f : QuantumOperation C → list nat)
    (elements : list (QuantumOperation C)) : Prop :=
  ∀ x e, e ∈ elements → x ∈ f e → x ∈ closure.

Lemma issubset_covers (f : QuantumOperation C → list nat) elements closure :
  issubset (sorted_set (flat_map f elements)) closure = true ↔ covers closure f elements.
Proof.
  rewrite issubset_sorted_set. unfold covers. split.
  - intros Hall x e He Hx. apply Hall, elem_of_flat_map. eauto.
  - intros Hall x (e & He & Hx)%elem_of_flat_map. eauto.
Qed.

(** C8.  With an explicit qubit (addr) closure the constructor succeeds exactly
    when the closure contains every qubit (addr) of every child, and then
    keeps the closure as given, however wide; otherwise it raises the
    [ValueError] of the incommensurate closure. *)
Theorem composite_explicit_closure (elements : list (QuantumOperation C))
    (qs : Qubits) (ads : Addrs) :
  (QuantumComposite_init elements (Some qs) None
     = Ok (OpComposite elements qs (elem_addrs elements))
   ↔ covers qs qubits elements) ∧
  (QuantumComposite_init elements (Some qs) None
     = Raise (ValueError "Incommensurate qubits")
   ↔ ¬ covers qs qubits elements) ∧
  (QuantumComposite_init elements None (Some ads)
     = Ok (OpComposite elements (elem_qubits elements) ads)
   ↔ covers ads addrs elements) ∧
  (QuantumComposite_init elements None (Some ads)
     = Raise (ValueError "Incommensurate addresses")
   ↔ ¬ covers ads addrs elements) ∧
  (QuantumComposite_init elements (Some qs) (Some ads)
     = Ok (OpComposite elements qs ads)
   ↔ covers qs qubits elements ∧ covers ads addrs elements) ∧
  (is_ok (QuantumComposite_init elements (Some qs) (Some ads)) = false
   ↔ ¬ (covers qs qubits elements ∧ covers ads addrs elements)).
Proof.
  unfold QuantumComposite_init, elem_qubits, elem_addrs.
  pose proof (issubset_covers qubits elements qs) as Hq.
  pose proof (issubset_covers addrs elements ads) as Ha.
  destruct (issubset (sorted_set (flat_map qubits elements)) qs);
    destruct (issubset (sorted_set (flat_map addrs elements)) ads);
    simpl; split_and!; split; intros; try done; intuition (try congruence).
Qed.

(** Induction over operations, with the hypothesis for every child of a
    composite. *)
Lemma QuantumOperation_nested_ind (P : QuantumOperation C → Prop) :
  (∀ g, P (OpGate g)) →
  (∀ elements qs ads, Forall P elements → P (OpComposite elements qs ads)) →
  (∀ qs ads, P (OpOther qs ads)) →
  ∀ op, P op.
Proof.
  intros Hg Hc Ho. fix IH 1. intros [g|elements qs ads|qs ads].
  - apply Hg.
  - apply Hc. induction elements as [|e es IHes]; constructor; [apply IH|apply IHes].
  - apply Ho.
Qed.

Lemma all_gates_Forall (P : QuantumGate C → Prop) elements qs ads :
  all_gates P (OpComposite elements qs ads) ↔ Forall (all_gates P) elements.
Proof.
  simpl. induction elements as [|e es IH]; simpl.
  - split; [constructor|done].
  - rewrite Forall_cons, IH. done.
Qed.

Lemma closed_composite (elements : list (QuantumOperation C)) qs ads :
  closed (OpComposite elements qs ads) = true ↔
  covers qs qubits elements ∧ covers ads addrs elements ∧
  Forall (fun e => closed e = true) elements.
Proof.
  simpl. rewrite !andb_true_iff. unfold elem_qubits, elem_addrs.
  rewrite !issubset_covers, forallb_forall, Forall_forall.
  split; intros ((?&?)&Hall) || intros (?&?&Hall); split_and!; try done;
    intros e He; apply Hall; by apply list_elem_of_In.
Qed.

End Composite.

(** ** Results of loops *)

Section Loops.
Context {T U : Type}.

Lemma mapM_app (f : T → Result U) (xs ys : list T) :
  mapM f (xs ++ ys) = (a ← mapM f xs; b ← mapM f ys; Ok (a ++ b)).
Proof.
  induction xs as [|x xs IH]; simpl.
  - destruct (mapM f ys); reflexivity.
  - destruct (f x) as [y|e]; simpl; [|reflexivity].
    rewrite IH. destruct (mapM f xs) as [a|e]; simpl; [|reflexivity].
    destruct (mapM f ys); reflexivity.
Qed.

Lemma mapM_Ok_Forall2 (f : T → Result U) (xs : list T) (ys : list U) :
  mapM f xs = Ok ys ↔ Forall2 (fun x y => f x = Ok y) xs ys.
Proof.
  revert ys. induction xs as [|x xs IH]; intros ys; simpl.
  - split; [intros [= <-]; constructor|by inversion 1].
  - destruct (f x) as [y|e] eqn:Hfx; simpl.
    + destruct (mapM f xs) as [zs|e] eqn:Hm; simpl.
      * split.
        -- intros [= <-]. constructor; [assumption|by apply IH].
        -- inversion 1 as [|? y' ? zs' Hy Hzs]; subst.
           apply IH in Hzs. congruence.
      * split; [discriminate|].
        inversion 1 as [|? y' ? zs' Hy Hzs]; subst. apply IH in Hzs. discriminate.
    + split; [discriminate|]. inversion 1; congruence.
Qed.

(** The loop that collects results from the last element to the first. *)
Lemma foldr_collect_reverse (f : T → Result U) (xs : list T) :
  foldr (fun x (acc : Result (list U)) => done ← acc; y ← f x; Ok (done ++ [y]))
        (Ok []) xs
  = mapM f (reverse xs).
Proof.
  induction xs as [|x xs IH]; simpl; [reflexivity|].
  rewrite reverse_cons, IH, mapM_app.
  destruct (mapM f (reverse xs)) as [a|e]; simpl; [|reflexivity].
  destruct (f x); reflexivity.
Qed.

End Loops.

(** ** The adjoint of a composite *)

Section AdjointProperties.
Context {C : Type} {entries : Entries C}.
Variable gate_H : QuantumGate C → QuantumGate C.

(** What a gate's own [H] is expected to do: keep the qubits, and give the
    gate back when taken twice. *)
Definition adjoint_ok (g : QuantumGate C) : Prop :=
  g_qubits (gate_H g) = g_qubits g ∧ gate_H (gate_H g) = g.

Lemma H_composite (elements : list (QuantumOperation C)) qs ads :
  H gate_H (OpComposite elements qs ads)
  = (hs ← mapM (H gate_H) (reverse elements);
     QuantumComposite_init hs (Some qs) (Some ads)).
Proof. simpl. by rewrite foldr_collect_reverse. Qed.

Lemma init_explicit_covers (elements : list (QuantumOperation C)) qs ads :
  covers qs qubits elements → covers ads addrs elements →
  QuantumComposite_init elements (Some qs) (Some ads) = Ok (OpComposite elements qs ads).
Proof.
  intros Hq Ha. unfold QuantumComposite_init, elem_qubits, elem_addrs.
  rewrite (proj2 (issubset_covers qubits elements qs) Hq).
  by rewrite (proj2 (issubset_covers addrs elements ads) Ha).
Qed.

Lemma covers_Forall2 (f : QuantumOperation C → list nat) closure
    (es hs : list (QuantumOperation C)) :
  Forall2 (fun e h => f h = f e) es hs → covers closure f es → covers closure f hs.
Proof.
  intros HF Hc x h Hh Hx.
  apply list_elem_of_lookup in Hh as [i Hi].
  destruct (Forall2_lookup_r _ _ _ _ _ HF Hi) as (e & He & Hfe).
  apply (Hc x e); [by eapply list_elem_of_lookup_2|]. by rewrite <- Hfe.
Qed.

(** The adjoint exists, keeps the closure, and its own adjoint is the
    operation, for every closed operation made of well-behaved gates. *)
Lemma H_involutive (op : QuantumOperation C) :
  closed op = true → all_gates adjoint_ok op →
  ∃ h, H gate_H op = Ok h ∧ qubits h = qubits op ∧ addrs h = addrs op ∧
       H gate_H h = Ok op.
Proof.
  induction op as [g|elements qs ads IH|qs ads] using QuantumOperation_nested_ind;
    intros Hclosed Hgates.
  - destruct Hgates as [Hq Hinv]. exists (OpGate (gate_H g)). simpl.
    rewrite Hinv. done.
  - apply closed_composite in Hclosed as (Hcq & Hca & Hcl).
    apply all_gates_Forall in Hgates.
    assert (Hhs : ∃ hs, Forall2 (fun e h =>
              H gate_H e = Ok h ∧ qubits h = qubits e ∧ addrs h = addrs e ∧
              H gate_H h = Ok e) elements hs).
    { clear Hcq Hca. induction elements as [|e es IHes].
      - exists []. constructor.
      - apply Forall_cons in IH as [IHe IH]. apply Forall_cons in Hcl as [Hce Hcl].
        apply Forall_cons in Hgates as [Hge Hgates].
        destruct (IHe Hce Hge) as (h & Hh). destruct (IHes IH Hcl Hgates) as (hs & Hhs).
        exists (h :: hs). by constructor. }
    destruct Hhs as (hs & Hhs).
    assert (Hfwd : mapM (H gate_H) (reverse elements) = Ok (reverse hs)).
    { apply mapM_Ok_Forall2, Forall2_reverse.
      eapply Forall2_impl; [exact Hhs|]. by intros e h (?&_). }
    assert (Hbwd : mapM (H gate_H) (reverse (reverse hs)) = Ok elements).
    { rewrite reverse_involutive. apply mapM_Ok_Forall2, Forall2_flip.
      eapply Forall2_impl; [exact Hhs|]. by intros e h (_&_&_&?). }
    exists (OpComposite (reverse hs) qs ads). split_and!; try reflexivity.
    + rewrite H_composite, Hfwd. simpl. apply init_explicit_covers.
      * apply (covers_Forall2 qubits qs (reverse elements)).
        -- apply Forall2_reverse. eapply Forall2_impl; [exact Hhs|]. by intros e h (_&?&_).
        -- intros x e He. apply Hcq. by apply elem_of_reverse.
      * apply (covers_Forall2 addrs ads (reverse elements)).
        -- apply Forall2_reverse. eapply Forall2_impl; [exact Hhs|]. by intros e h (_&_&?&_).
        -- intros x e He. apply Hca. by apply elem_of_reverse.
    + rewrite H_composite, Hbwd. simpl. by apply init_explicit_covers.
  - destruct Hgates.
Qed.

(** C4.  The adjoint of a composite is a composite with the same qubit and
    addr closure whose children are the adjoints of the original children,
    last child first; the adjoint of that composite is the original one,
    children in the original order. *)
Theorem composite_H_reverses_and_involutive
    (elements : list (QuantumOperation C)) (qs : Qubits) (ads : Addrs) :
  closed (OpComposite elements qs ads) = true →
  all_gates adjoint_ok (OpComposite elements qs ads) →
  ∃ hs,
    Forall2 (fun e h => H gate_H e = Ok h) (reverse elements) hs ∧
    H gate_H (OpComposite elements qs ads) = Ok (OpComposite hs qs ads) ∧
    H gate_H (OpComposite hs qs ads) = Ok (OpComposite elements qs ads).
Proof.
  intros Hclosed Hgates.
  destruct (H_involutive _ Hclosed Hgates) as (h & Hh & _ & _ & Hback).
  pose proof Hh as Hh'. rewrite H_composite in Hh'.
  destruct (mapM (H gate_H) (reverse elements)) as [hs|e] eqn:Hm; simpl in Hh';
    [|discriminate].
  unfold QuantumComposite_init in Hh'.
  destruct (issubset (elem_qubits hs) qs); simpl in Hh'; [|discriminate].
  destruct (issubset (elem_addrs hs) ads); simpl in Hh'; [|discriminate].
  injection Hh' as <-.
  exists hs. split_and!; [by apply mapM_Ok_Forall2|assumption|assumption].
Qed.

End AdjointProperties.

(** The adjoint of [shear_upper (0); CNOT (0, 1)] is
    [CNOT (0, 1); shear_lower (0)], and the adjoint of that is the composite
    again. *)
Lemma composite_H_reverses_and_involutive_witness :
  let c := [OpGate (shear_upper 0); OpGate (CNOT 0 1)] in
  closed (OpComposite c [0; 1] []) = true ∧
  all_gates (adjoint_ok real_adjoint) (OpComposite c [0; 1] []) ∧
  H real_adjoint (OpComposite c [0; 1] [])
  = Ok (OpComposite [OpGate (CNOT 0 1); OpGate (shear_lower 0)] [0; 1] []) ∧
  H real_adjoint (OpComposite [OpGate (CNOT 0 1); OpGate (shear_lower 0)] [0; 1] [])
  = Ok (OpComposite c [0; 1] []).
Proof.
  intros c.
  assert (Hclosed : closed (OpComposite c [0; 1] []) = true) by reflexivity.
  assert (Hgates : all_gates (adjoint_ok real_adjoint) (OpComposite c [0; 1] [])).
  { repeat split. }
  destruct (composite_H_reverses_and_involutive real_adjoint c [0; 1] []
              Hclosed Hgates) as (hs & _ & Hfwd & Hbwd).
  assert (Hhs : hs = [OpGate (CNOT 0 1); OpGate (shear_lower 0)]).
  { assert (Hrun : H real_adjoint (OpComposite c [0; 1] [])
                   = Ok (OpComposite [OpGate (CNOT 0 1); OpGate (shear_lower 0)]
                           [0; 1] [])) by reflexivity.
    rewrite Hfwd in Hrun. by injection Hrun. }
  rewrite Hhs in Hfwd, Hbwd. split_and!; assumption.
Defined.

(** ** Permuting the qubits of a gate *)

Section PermuteProperties.
Context {C : Type} {entries : Entries C}.

Lemma np_transpose_perm (rank : nat) (t : list C) (axes : list nat) :
  axes ≡ₚ seq 0 rank →
  np_transpose rank t axes
  = Ok (tabulate (2 ^ rank) (fun k =>
          at_idx t (gather (inverse_axes axes) (unravel rank k)))).
Proof. intros Hp. unfold np_transpose. by rewrite decide_True. Qed.

Lemma Permutation_seq_NoDup (n : nat) (P : list nat) : P ≡ₚ seq 0 n → NoDup P.
Proof. intros ->. apply NoDup_seq. Qed.

(** The operator of the permuted gate: its entry at a multi-index is the
    entry of the original operator at the multi-index carried back along the
    axes that return to the original order. *)
Definition permuted_operator (g : QuantumGate C) (qs : Qubits) : list C :=
  let N := length (g_qubits g) in
  tabulate (2 ^ (2 * N)) (fun k =>
    at_idx (operator g) (gather (pperm N (positions qs (g_qubits g))) (unravel (2 * N) k))).

Lemma permute_rearranged (g : QuantumGate C) (qs : Qubits) :
  gate_wf g → qs ≡ₚ g_qubits g → g_qubits g ≠ qs →
  permute g qs = Ok (Unitary (permuted_operator g qs) qs).
Proof.
  intros [Hnd Hlen] Hp Hne. unfold permute.
  rewrite decide_False by done.
  rewrite mapM_index by (intros y Hy; by rewrite <- Hp). simpl.
  rewrite decide_True by done.
  set (N := length (g_qubits g)).
  assert (Hperm : positions (g_qubits g) qs ≡ₚ seq 0 N)
    by (by apply positions_Permutation).
  rewrite np_transpose_perm by (by apply pperm_Permutation). simpl.
  unfold permuted_operator. fold N.
  rewrite (inverse_axes_undoes (2 * N) (pperm N (positions qs (g_qubits g)))).
  - reflexivity.
  - eapply Permutation_seq_NoDup. by apply pperm_Permutation.
  - rewrite length_pperm, length_positions, Hp. done.
  - rewrite length_pperm, length_positions. done.
  - by apply pperm_undoes.
Qed.

Lemma permuted_operator_at (g : QuantumGate C) (qs : Qubits) (idx : list bool) :
  length idx = 2 * length (g_qubits g) →
  at_idx (permuted_operator g qs) idx
  = at_idx (operator g) (gather (pperm (length (g_qubits g)) (positions qs (g_qubits g))) idx).
Proof.
  intros Hlen. unfold permuted_operator.
  rewrite at_idx_tabulate by done. by rewrite <- Hlen, unravel_ravel.
Qed.

Lemma positions_bounded (xs ys : list nat) :
  (∀ y, y ∈ ys → y ∈ xs) → Forall (fun a => a < length xs) (positions xs ys).
Proof.
  intros Hsub. unfold positions. apply Forall_forall. intros a Ha.
  apply list_elem_of_In, in_map_iff in Ha as (y & <- & Hy).
  apply position_lt, Hsub. by apply list_elem_of_In.
Qed.

(** For a gate [g] and a rearrangement [qs] of its qubits, [permute] returns
    a gate over [qs] whose operator is [g]'s with the row indices and the
    column indices moved by the same permutation, the one that takes the
    order of [g]'s qubits to [qs]; permuting that gate back to the order of
    [g]'s qubits returns [g]. *)
Lemma permute_round_trip (g : QuantumGate C) (qs : Qubits) :
  gate_wf g → qs ≡ₚ g_qubits g →
  let N := length (g_qubits g) in
  let perm := positions (g_qubits g) qs in
  ∃ g',
    permute g qs = Ok g' ∧
    g_qubits g' = qs ∧
    length (operator g') = 2 ^ (2 * N) ∧
    (∀ r c, length r = N → length c = N →
       at_idx (operator g') (gather perm r ++ gather perm c)
       = at_idx (operator g) (r ++ c)) ∧
    permute g' (g_qubits g) = Ok g.
Proof.
  intros Hwf Hp N perm. destruct (decide (g_qubits g = qs)) as [Heq|Hne].
  - (* the order is unchanged: [permute] returns the gate itself *)
    exists g. unfold permute. rewrite !decide_True by done.
    destruct Hwf as [Hnd Hlen]. split_and!; try done.
    intros r c Hr Hc. subst perm. rewrite <- Heq.
    assert (Hid : positions (g_qubits g) (g_qubits g) = seq 0 N).
    { apply list_eq. intros i. rewrite lookup_positions.
      destruct (g_qubits g !! i) as [x|] eqn:Hi; simpl.
      - rewrite (position_lookup _ x i) by done. symmetry.
        apply lookup_seq. split; [done|]. by eapply lookup_lt_Some.
      - symmetry. apply lookup_ge_None. rewrite length_seq. by apply lookup_ge_None. }
    rewrite Hid.
    by rewrite <- Hr, gather_seq, Hr, <- Hc, gather_seq.
  - pose proof Hwf as [Hnd Hlen].
    exists (Unitary (permuted_operator g qs) qs).
    assert (HN : length qs = N) by (by rewrite Hp).
    assert (Hundo : undoes (2 * N) (pperm N (positions qs (g_qubits g)))
                                   (pperm N (positions (g_qubits g) qs)))
      by (by apply pperm_undoes).
    split_and!.
    + by apply permute_rearranged.
    + reflexivity.
    + apply length_tabulate.
    + intros r c Hr Hc. simpl.
      rewrite permuted_operator_at
        by (rewrite length_app, !length_gather; unfold perm;
            rewrite length_positions; lia).
      rewrite <- (gather_pperm N) by
        (done || apply positions_bounded; intros y Hy; by rewrite <- Hp).
      fold N. rewrite (gather_undo (2 * N)); [done| | |done].
      * rewrite length_app. lia.
      * rewrite length_pperm, length_positions. done.
    + assert (Hwf' : gate_wf (Unitary (permuted_operator g qs) qs)).
      { split; simpl; [by rewrite Hp|]. rewrite HN. apply length_tabulate. }
      rewrite permute_rearranged; [|done|by symmetry|simpl; congruence].
      destruct g as [op gq]. cbn [operator g_qubits] in *. f_equal. f_equal.
      unfold permuted_operator at 1. cbn [operator g_qubits]. rewrite HN. fold N.
      transitivity (tabulate (length op) (fun k => nth k op c0));
        [|apply tabulate_nth].
      rewrite Hlen. apply tabulate_ext. intros k Hk.
      rewrite permuted_operator_at
        by (cbn [operator g_qubits];
            rewrite length_gather, length_pperm, length_positions; lia).
      cbn [operator g_qubits]. fold N.
      assert (Hundo' : undoes (2 * N) (pperm N (positions gq qs))
                                      (pperm N (positions qs gq))).
      { rewrite <- HN. apply pperm_undoes; [by rewrite Hp|by symmetry]. }
      rewrite (gather_undo (2 * N)); [| |rewrite length_pperm, length_positions; lia|done].
      * unfold at_idx. by rewrite ravel_unravel.
      * apply length_unravel.
Qed.

End PermuteProperties.

Example permute_CNOT :
  permute (CNOT 0 1) [1; 0]
  = Ok (Unitary [1; 0; 0; 0;  0; 0; 0; 1;  0; 0; 1; 0;  0; 1; 0; 0]%Z [1; 0]).
Proof. vm_compute. reflexivity. Qed.

(** ** Composition of gates *)

Section ComposeProperties.
Context {C : Type} {entries : Entries C}.

Lemma extra_qubits_nil (self other : QuantumGate C) :
  (∀ q, q ∈ g_qubits self → q ∈ g_qubits other) → extra_qubits self other = [].
Proof.
  intros Hsub. unfold extra_qubits.
  assert (Hf : filter (fun q => q ∉ g_qubits other) (g_qubits self) = []).
  { apply elem_of_nil_inv. intros q [Hq Hin]%list_elem_of_filter.
    apply Hq, Hsub, Hin. }
  by rewrite Hf.
Qed.

Lemma elem_of_extra_qubits (self other : QuantumGate C) (q : nat) :
  q ∈ extra_qubits self other ↔ q ∈ g_qubits self ∧ q ∉ g_qubits other.
Proof.
  unfold extra_qubits. rewrite sorted_set_elem_of, list_elem_of_filter. tauto.
Qed.

(** When [other] has every qubit of [self] there is nothing to pad. *)
Lemma matmul_fuel_covered (fuel : nat) (self other : QuantumGate C) :
  (∀ q, q ∈ g_qubits self → q ∈ g_qubits other) →
  matmul_fuel (S fuel) self other
  = Ok (Unitary (tensormul (operator self) (operator other)
                   (positions (g_qubits other) (g_qubits self)))
                (g_qubits other)).
Proof.
  intros Hsub. simpl. rewrite extra_qubits_nil by done. simpl.
  by rewrite mapM_index.
Qed.

Lemma matmul_fuel_S (fuel : nat) (self other : QuantumGate C) :
  matmul_fuel (S fuel) self other
  = let extra := extra_qubits self other in
    if decide (length extra ≠ 0) then
      padded ← matmul_fuel fuel other (Identity (g_qubits other ++ extra));
      matmul_fuel fuel self padded
    else
      indices ← mapM (index (g_qubits other)) (g_qubits self);
      Ok (Unitary (tensormul (operator self) (operator other) indices)
                  (g_qubits other)).
Proof. reflexivity. Qed.

(** The method never calls itself more than one level deep: any fuel beyond
    two gives the result of [matmul], which is never [RecursionError]. *)
Lemma matmul_fuel_enough (fuel : nat) (self other : QuantumGate C) :
  matmul_fuel (S (S fuel)) self other = matmul self other ∧
  matmul self other ≠ Raise RecursionError.
Proof.
  unfold matmul.
  destruct (decide (length (extra_qubits self other) ≠ 0)) as [Hex|Hex].
  - rewrite (matmul_fuel_S (S fuel)), (matmul_fuel_S 1). cbn zeta.
    rewrite !decide_True by done.
    set (padding := Identity (g_qubits other ++ extra_qubits self other)).
    assert (Hpad : ∀ f, matmul_fuel (S f) other padding
              = Ok (Unitary (tensormul (operator other) (operator padding)
                               (positions (g_qubits padding) (g_qubits other)))
                            (g_qubits padding))).
    { intros f. apply matmul_fuel_covered. intros q Hq. simpl.
      apply elem_of_app. by left. }
    rewrite (Hpad fuel), (Hpad 0). cbn [mbind Result_bind].
    set (padded := Unitary _ _).
    assert (Hself : ∀ f, matmul_fuel (S f) self padded
              = Ok (Unitary (tensormul (operator self) (operator padded)
                               (positions (g_qubits padded) (g_qubits self)))
                            (g_qubits padded))).
    { intros f. apply matmul_fuel_covered. intros q Hq. simpl.
      apply elem_of_app. destruct (decide (q ∈ g_qubits other)); [by left|right].
      by apply elem_of_extra_qubits. }
    rewrite (Hself fuel), (Hself 0). done.
  - rewrite (matmul_fuel_S (S fuel)), (matmul_fuel_S 1). cbn zeta.
    rewrite !decide_False by done. split; [done|].
    destruct (mapM _ _) as [idx|e] eqn:Hm; simpl; [done|].
    apply mapM_index_error in Hm as ->. done.
Qed.

(** What [matmul] computes when [other] has every qubit of [self]. *)
Lemma matmul_covered (self other : QuantumGate C) :
  (∀ q, q ∈ g_qubits self → q ∈ g_qubits other) →
  matmul self other
  = Ok (Unitary (tensormul (operator self) (operator other)
                   (positions (g_qubits other) (g_qubits self)))
                (g_qubits other)).
Proof. apply matmul_fuel_covered. Qed.

(** *** The fold of [asgate] *)

Lemma asgate_nil (qs : Qubits) (ads : Addrs) :
  asgate (OpComposite (C := C) [] qs ads) = Ok (Identity qs).
Proof. reflexivity. Qed.

(** The last child is composed last, onto the fold of the children before
    it. *)
Lemma asgate_snoc (elements : list (QuantumOperation C)) (e : QuantumOperation C)
    (qs : Qubits) (ads : Addrs) :
  asgate (OpComposite (elements ++ [e]) qs ads)
  = (gate ← asgate (OpComposite elements qs ads); g ← asgate e; matmul g gate).
Proof. simpl. by rewrite fold_left_app. Qed.

End ComposeProperties.

(** ** Contraction with the identity *)

Section Contraction.
Context {C : Type} {entries : Entries C}.
Hypothesis Cring : ring_theory c0 c1 cadd cmul csub copp eq.

Add Ring Cr : Cring.

Lemma csum_zero {T : Type} (h : T → C) (l : list T) :
  (∀ x, x ∈ l → h x = c0) → csum (map h l) = c0.
Proof using Cring.
  induction l as [|x l IH]; intros Hz; simpl; [reflexivity|].
  rewrite (Hz x) by left. rewrite IH by (intros y Hy; apply Hz; by right). ring.
Qed.

(** A sum whose only non-zero term is the one at [i]. *)
Lemma csum_delta (a n i : nat) (h : nat → C) :
  a ≤ i < a + n →
  csum (map (fun j => if decide (i = j) then h j else c0) (seq a n)) = h i.
Proof using Cring.
  revert a. induction n as [|n IH]; intros a Hi; [lia|]. simpl.
  destruct (decide (i = a)) as [->|Hne].
  - rewrite csum_zero; [ring|]. intros j Hj%list_elem_of_In%in_seq.
    rewrite decide_False by lia. reflexivity.
  - rewrite IH by lia. ring.
Qed.

Lemma at_idx_eye (K : nat) (r s : list bool) :
  length r = K → length s = K →
  at_idx (np_eye (2 ^ K)) (r ++ s) = if decide (ravel r = ravel s) then c1 else c0.
Proof.
  intros Hr Hs. unfold at_idx, np_eye.
  pose proof (ravel_lt r) as Hrl. pose proof (ravel_lt s) as Hsl.
  rewrite Hr in Hrl. rewrite Hs in Hsl.
  rewrite ravel_app, Hs. rewrite nth_tabulate by nia.
  assert (Hd : (ravel r * 2 ^ K + ravel s) / 2 ^ K = ravel r).
  { symmetry. apply (Nat.div_unique _ _ _ (ravel s)); lia. }
  assert (Hm : (ravel r * 2 ^ K + ravel s) mod 2 ^ K = ravel s).
  { symmetry. apply (Nat.mod_unique _ _ (ravel r)); lia. }
  by rewrite Hd, Hm.
Qed.

(** Writing back what was read changes nothing. *)
Lemma scatter_gather (axes : list nat) (idx : list bool) :
  scatter axes (gather axes idx) idx = idx.
Proof.
  transitivity (map (fun a => nth a idx false) (seq 0 (length idx)));
    [|apply gather_seq].
  unfold scatter. apply map_ext. intros p.
  destruct (find_index axes p) as [k|] eqn:Hk; [|reflexivity].
  apply find_index_Some in Hk.
  rewrite nth_lookup, lookup_gather, Hk. reflexivity.
Qed.

(** Contracting the identity with a tensor leaves the tensor as it is. *)
Lemma tensormul_identity (n : nat) (B : list C) (indices : list nat) :
  length B = 2 ^ n →
  tensormul (np_eye (2 ^ length indices)) B indices = B.
Proof using Cring.
  intros HB. unfold tensormul. rewrite HB, Nat.log2_pow2 by lia.
  transitivity (tabulate (length B) (fun k => nth k B c0)); [|apply tabulate_nth].
  rewrite HB. apply tabulate_ext. intros k Hk.
  set (o := unravel n k). set (K := length indices).
  unfold all_idx. rewrite map_map.
  erewrite map_ext_in.
  2:{ intros j Hj%in_seq.
      rewrite at_idx_eye by (by rewrite ?length_gather, ?length_unravel).
      rewrite (ravel_unravel K j) by lia.
      instantiate (1 := fun j => if decide (ravel (gather indices o) = j)
                                 then at_idx B (scatter indices (unravel K j) o)
                                 else c0).
      simpl. destruct (decide (ravel (gather indices o) = j)); ring. }
  rewrite csum_delta.
  - replace K with (length (gather indices o)) by apply length_gather.
    rewrite unravel_ravel, scatter_gather. unfold at_idx, o.
    by rewrite ravel_unravel.
  - pose proof (ravel_lt (gather indices o)) as Hlt.
    rewrite length_gather in Hlt. fold K in Hlt. lia.
Qed.

(** Composing an identity gate onto a gate that has its qubits gives the gate
    back. *)
Lemma matmul_Identity (qs : Qubits) (gate : QuantumGate C) :
  (∀ q, q ∈ qs → q ∈ g_qubits gate) →
  (∃ n, length (operator gate) = 2 ^ n) →
  matmul (Identity qs) gate = Ok gate.
Proof using Cring.
  intros Hsub [n Hn]. rewrite matmul_covered by done.
  cbn [Identity operator g_qubits].
  rewrite <- (length_positions (g_qubits gate) qs).
  rewrite (tensormul_identity n) by done. by destruct gate.
Qed.

Lemma length_np_eye (d : nat) : length (np_eye (C := C) d) = d * d.
Proof. apply length_tabulate. Qed.

(** Folding identity gates: the accumulator stays the identity over the
    closure. *)
Lemma asgate_identities (elements : list (QuantumOperation C)) (qs : Qubits)
    (ads : Addrs) :
  Forall (fun e => ∃ qs', e = OpGate (Identity qs') ∧ ∀ q, q ∈ qs' → q ∈ qs) elements →
  asgate (OpComposite elements qs ads) = Ok (Identity qs).
Proof using Cring.
  induction elements as [|e elements IH] using rev_ind; intros Hall.
  - reflexivity.
  - apply Forall_app in Hall as [Hall He]. rewrite Forall_singleton in He.
    destruct He as (qs' & -> & Hsub).
    rewrite asgate_snoc, IH by done. cbn [asgate mbind Result_bind].
    apply matmul_Identity; [done|].
    exists (length qs + length qs). cbn [Identity operator].
    by rewrite length_np_eye, Nat.pow_add_r.
Qed.

(** *** Sums *)

Lemma csum_map_ext {T : Type} (f g : T → C) (l : list T) :
  (∀ x, x ∈ l → f x = g x) → csum (map f l) = csum (map g l).
Proof.
  intros Hfg. f_equal. apply map_ext_in. intros x Hx. apply Hfg.
  by apply list_elem_of_In.
Qed.

Lemma csum_add {T : Type} (f g : T → C) (l : list T) :
  csum (map (fun x => cadd (f x) (g x)) l)
  = cadd (csum (map f l)) (csum (map g l)).
Proof using Cring.
  induction l as [|x l IH]; simpl; [ring|]. rewrite IH. ring.
Qed.

Lemma csum_mul_l {T : Type} (c : C) (f : T → C) (l : list T) :
  cmul c (csum (map f l)) = csum (map (fun x => cmul c (f x)) l).
Proof using Cring.
  induction l as [|x l IH]; simpl; [ring|]. rewrite <- IH. ring.
Qed.

Lemma csum_mul_r {T : Type} (c : C) (f : T → C) (l : list T) :
  cmul (csum (map f l)) c = csum (map (fun x => cmul (f x) c) l).
Proof using Cring.
  induction l as [|x l IH]; simpl; [ring|]. rewrite <- IH. ring.
Qed.

Lemma csum_exchange {T U : Type} (f : T → U → C) (lx : list T) (ly : list U) :
  csum (map (fun x => csum (map (f x) ly)) lx)
  = csum (map (fun y => csum (map (fun x => f x y) lx)) ly).
Proof using Cring.
  induction lx as [|x lx IH]; simpl.
  - symmetry. by apply csum_zero.
  - rewrite IH. symmetry. apply csum_add.
Qed.

(** *** The entries of a contraction *)

Lemma length_tensormul (A B : list C) (indices : list nat) (n : nat) :
  length B = 2 ^ n → length (tensormul A B indices) = 2 ^ n.
Proof.
  intros HB. unfold tensormul. by rewrite length_tabulate, HB, Nat.log2_pow2 by lia.
Qed.

Lemma tensormul_at (A B : list C) (indices : list nat) (n : nat) (o : list bool) :
  length B = 2 ^ n → length o = n →
  at_idx (tensormul A B indices) o
  = csum (map (fun s => cmul (at_idx A (gather indices o ++ s))
                             (at_idx B (scatter indices s o)))
              (all_idx (length indices))).
Proof.
  intros HB Ho. unfold tensormul. rewrite HB, Nat.log2_pow2 by lia.
  rewrite at_idx_tabulate by done. by rewrite <- Ho, unravel_ravel.
Qed.

(** Two arrays of shape [[2]*n] with the same entries are the same array. *)
Lemma array_ext (n : nat) (a b : list C) :
  length a = 2 ^ n → length b = 2 ^ n →
  (∀ o, length o = n → at_idx a o = at_idx b o) → a = b.
Proof.
  intros Ha Hb Hab. apply (nth_ext _ _ c0 c0); [congruence|].
  intros k Hk. rewrite Ha in Hk.
  specialize (Hab (unravel n k) (length_unravel n k)).
  unfold at_idx in Hab. by rewrite ravel_unravel in Hab.
Qed.

(** Contracting [A] into [B] and the result into [v] is contracting [B] into
    [v] and then [A] into the result: the tensor form of
    [(A B) v = A (B v)]. *)
Lemma tensormul_assoc (A B v : list C) (Q QB QA : list nat) :
  (∀ x, x ∈ QA → x ∈ QB) → (∀ x, x ∈ QB → x ∈ Q) → NoDup QB →
  length B = 2 ^ (2 * length QB) → length v = 2 ^ length Q →
  tensormul (tensormul A B (positions QB QA)) v (positions Q QB)
  = tensormul A (tensormul B v (positions Q QB)) (positions Q QA).
Proof using Cring.
  intros HAB HBQ Hnd HB Hv.
  set (n := length Q). set (m := length QB). set (k := length QA).
  apply (array_ext n).
  { by apply length_tensormul. }
  { apply length_tensormul. by apply length_tensormul. }
  intros o Ho.
  rewrite (tensormul_at _ v _ n) by done.
  rewrite (tensormul_at A _ _ n) by (done || by apply length_tensormul).
  rewrite !length_positions. fold m k.
  set (r := gather (positions Q QB) o).
  assert (Hr : length r = m) by (unfold r; by rewrite length_gather, length_positions).
  transitivity (csum (map (fun t => csum (map (fun s =>
      cmul (cmul (at_idx A (gather (positions Q QA) o ++ s))
                 (at_idx B (scatter (positions QB QA) s r ++ t)))
           (at_idx v (scatter (positions Q QB) t o))) (all_idx k))) (all_idx m))).
  - apply csum_map_ext. intros t Ht%elem_of_all_idx.
    rewrite (tensormul_at A B _ (2 * m)) by (done || rewrite length_app; lia).
    rewrite length_positions. fold k. rewrite csum_mul_r.
    apply csum_map_ext. intros s Hs.
    rewrite gather_app_l by (rewrite Hr; by apply positions_lt).
    rewrite scatter_app_l by (rewrite Hr; by apply positions_lt).
    unfold r. by rewrite gather_positions_compose.
  - rewrite csum_exchange. apply csum_map_ext. intros s Hs%elem_of_all_idx.
    rewrite (tensormul_at B v _ n) by (done || by rewrite length_scatter).
    rewrite length_positions. fold m. rewrite csum_mul_l.
    apply csum_map_ext. intros t Ht.
    rewrite gather_scatter_positions by done.
    rewrite scatter_scatter_positions by done. fold r. ring.
Qed.

(** *** Running a composed gate *)

Lemma gate_run_ket_covered (g : QuantumGate C) (ket : Ket C) :
  (∀ q, q ∈ g_qubits g → q ∈ k_qubits ket) →
  gate_run_ket g ket
  = Ok (mkKet (tensormul (operator g) (vector ket) (positions (k_qubits ket) (g_qubits g)))
              (k_qubits ket) (k_data ket)).
Proof. intros Hsub. unfold gate_run_ket. by rewrite mapM_index. Qed.

(** Running [self @ other] is running [other], then [self]. *)
Lemma matmul_run_ket (self other : QuantumGate C) (ket : Ket C) :
  (∀ q, q ∈ g_qubits self → q ∈ g_qubits other) →
  (∀ q, q ∈ g_qubits other → q ∈ k_qubits ket) →
  gate_wf other →
  length (vector ket) = 2 ^ length (k_qubits ket) →
  (composed ← matmul self other; gate_run_ket composed ket)
  = (ket' ← gate_run_ket other ket; gate_run_ket self ket').
Proof using Cring.
  intros Hso Hok [Hnd Hlen] Hket.
  rewrite matmul_covered by done. cbn [mbind Result_bind].
  rewrite (gate_run_ket_covered other) by done. cbn [mbind Result_bind].
  rewrite !gate_run_ket_covered by (cbn [g_qubits k_qubits]; auto).
  cbn [operator g_qubits vector k_qubits k_data].
  by rewrite tensormul_assoc.
Qed.

Lemma Identity_wf (qs : Qubits) : NoDup qs → gate_wf (C := C) (Identity qs).
Proof.
  intros Hnd. split; [done|]. cbn [Identity operator g_qubits].
  rewrite length_np_eye. replace (2 * length qs) with (length qs + length qs) by lia.
  by rewrite Nat.pow_add_r.
Qed.

Lemma Identity_run_ket (qs : Qubits) (ket : Ket C) :
  (∀ q, q ∈ qs → q ∈ k_qubits ket) →
  length (vector ket) = 2 ^ length (k_qubits ket) →
  gate_run_ket (Identity qs) ket = Ok ket.
Proof using Cring.
  intros Hsub Hlen. rewrite gate_run_ket_covered by done.
  cbn [Identity operator g_qubits].
  rewrite <- (length_positions (k_qubits ket) qs).
  rewrite (tensormul_identity (length (k_qubits ket))) by done. by destruct ket.
Qed.

(** The gate a composite folds to acts on every state as the composite
    does, that is, as its children one after the other in program order. *)
Lemma asgate_run_ket (op : QuantumOperation C) :
  closed op = true → all_gates gate_wf op → unique_qubits op →
  ∃ g, asgate op = Ok g ∧ g_qubits g = qubits op ∧ gate_wf g ∧
       ∀ ket, ket_for op ket →
         gate_run_ket g ket = run_ket op ket ∧
         ∀ ket', run_ket op ket = Ok ket' →
           k_qubits ket' = k_qubits ket ∧ length (vector ket') = length (vector ket).
Proof using Cring.
  induction op as [g|elements qs ads IH|qs ads] using QuantumOperation_nested_ind;
    intros Hclosed Hgates Huniq.
  - exists g. split_and!; try done. intros ket [Hsub Hlen]. split; [done|].
    cbn [run_ket]. rewrite gate_run_ket_covered by done. intros ket' [= <-].
    cbn [k_qubits vector]. split; [done|].
    rewrite (length_tensormul _ _ _ (length (k_qubits ket))); done.
  - apply closed_composite in Hclosed as (Hcq & _ & Hcl).
    apply all_gates_Forall in Hgates. destruct Huniq as [Hnd Huniq].
    assert (Huniq' : Forall unique_qubits elements).
    { clear -Huniq. induction elements as [|e es IHes]; [constructor|].
      destruct Huniq as [He Hes]. constructor; auto. }
    clear Huniq. cbn [qubits].
    revert IH Hcq Hcl Hgates Huniq'.
    induction elements as [|e elements IHels] using rev_ind;
      intros IH Hcq Hcl Hgates Huniq.
    + exists (Identity qs). split_and!; [done|done|by apply Identity_wf|].
      intros ket [Hsub Hlen]. cbn [run_ket fold_left].
      split; [by apply Identity_run_ket|]. by intros ket' [= <-].
    + apply Forall_app in IH as [IH IHe]. apply Forall_app in Hcl as [Hcl Hcle].
      apply Forall_app in Hgates as [Hgates Hge]. apply Forall_app in Huniq as [Huniq Hue].
      rewrite Forall_singleton in IHe, Hcle, Hge, Hue.
      destruct IHels as (G & HG & HGq & HGwf & HGrun); try done.
      { intros x e' He'. apply Hcq. apply elem_of_app. by left. }
      destruct (IHe Hcle Hge Hue) as (g & Hg & Hgq & Hgwf & Hgrun).
      assert (Hsub : ∀ q, q ∈ g_qubits g → q ∈ g_qubits G).
      { intros q Hq. rewrite HGq. rewrite Hgq in Hq. apply (Hcq q e); [|done].
        apply elem_of_app. right. by left. }
      rewrite asgate_snoc, HG, Hg. cbn [mbind Result_bind].
      rewrite matmul_covered by done.
      eexists. split_and!; [reflexivity|done| |].
      { destruct HGwf as [HGnd HGlen]. split; cbn [g_qubits operator]; [done|].
        by apply length_tensormul. }
      intros ket [Hket Hlen].
      assert (HketG : ket_for (OpComposite elements qs ads) ket) by done.
      destruct (HGrun ket HketG) as [HrunG HkeepG].
      cbn [run_ket]. rewrite fold_left_app. cbn [fold_left].
      change (fold_left _ elements (Ok ket)) with (run_ket (OpComposite elements qs ads) ket).
      pose proof (matmul_run_ket g G ket Hsub) as Hmm.
      rewrite matmul_covered in Hmm by done. cbn [mbind Result_bind] in Hmm.
      rewrite Hmm; [|by rewrite HGq|done|done]. rewrite HrunG.
      destruct (run_ket (OpComposite elements qs ads) ket) as [mid|err] eqn:Hmid;
        cbn [mbind Result_bind]; [|split; [done|by intros ?]].
      destruct (HkeepG mid eq_refl) as [Hmq Hml].
      assert (Hkete : ket_for e mid).
      { split; [|by rewrite Hml, Hmq]. intros q Hq. rewrite Hmq. apply Hket.
        cbn [qubits]. apply (Hcq q e); [|done]. apply elem_of_app. right. by left. }
      destruct (Hgrun mid Hkete) as [Hrune Hkeepe]. split; [done|].
      intros ket' Hk'. destruct (Hkeepe ket' Hk') as [? ?]. split; congruence.
  - destruct Hgates.
Qed.

Lemma sorted_set_length_NoDup (xs : list nat) :
  NoDup xs → length (sorted_set xs) = length xs.
Proof.
  intros Hnd. apply Permutation_length, NoDup_Permutation;
    [apply sorted_set_NoDup|done|apply sorted_set_elem_of].
Qed.

(** A composite of the single-qubit identity gates on the given qubits. *)
Definition identities (child_qubits : Qubits) : list (QuantumOperation C) :=
  map (fun q => OpGate (Identity [q])) child_qubits.

(** C1 (as amended).  [asgate] starts from the identity gate over the closure
    and composes the children onto it in program order, the first child
    first: the fold of no child is the identity, and the fold of a sequence
    that ends with [e] is [e] composed onto the fold of the children before
    it.  The gate so obtained acts on every state as the children do when
    they run one after the other from left to right.  Folding single-qubit
    identity gates gives the identity over the closure; for [n] distinct
    qubits and the default closure that is the identity operator of
    dimension [2^n]. *)
Theorem asgate_folds_in_program_order (qs : Qubits) (ads : Addrs) :
  asgate (OpComposite (C := C) [] qs ads) = Ok (Identity qs) ∧
  (∀ elements e,
     asgate (OpComposite (elements ++ [e]) qs ads)
     = (gate ← asgate (OpComposite elements qs ads); g ← asgate e; matmul g gate)) ∧
  (∀ elements,
     let c := OpComposite elements qs ads in
     closed c = true → all_gates gate_wf c → unique_qubits c →
     ∃ g, asgate c = Ok g ∧ g_qubits g = qs ∧ gate_wf g ∧
          ∀ ket, ket_for c ket →
            gate_run_ket g ket
            = fold_left (fun (acc : Result (Ket C)) elem => k ← acc; run_ket elem k)
                        elements (Ok ket)) ∧
  (∀ child_qubits,
     (∀ q, q ∈ child_qubits → q ∈ qs) →
     asgate (OpComposite (identities child_qubits) qs ads)
     = Ok (Unitary (np_eye (2 ^ length qs)) qs)) ∧
  (∀ child_qubits,
     NoDup child_qubits →
     ∃ c, QuantumComposite_init (identities child_qubits) None None = Ok c ∧
          asgate c = Ok (Unitary (np_eye (2 ^ length child_qubits)) (qubits c))).
Proof using Cring.
  split_and!.
  - apply asgate_nil.
  - intros elements e. apply asgate_snoc.
  - intros elements c Hclosed Hgates Huniq.
    destruct (asgate_run_ket c Hclosed Hgates Huniq) as (g & Hg & Hq & Hwf & Hrun).
    exists g. split_and!; try done. intros ket Hket. by apply Hrun.
  - intros child_qubits Hsub. apply asgate_identities.
    unfold identities. apply Forall_forall.
    intros e (q & <- & Hq)%list_elem_of_In%in_map_iff. exists [q]. split; [done|].
    intros q' ->%list_elem_of_singleton. by apply Hsub, list_elem_of_In.
  - intros child_qubits Hnd.
    exists (OpComposite (identities child_qubits)
              (elem_qubits (identities child_qubits))
              (elem_addrs (identities child_qubits))).
    split; [reflexivity|].
    assert (Hq : flat_map qubits (identities child_qubits) = child_qubits).
    { unfold identities. induction child_qubits as [|q l IH]; simpl; [done|].
      apply NoDup_cons in Hnd as [_ Hnd]. by rewrite IH. }
    assert (Hlen : length (elem_qubits (identities child_qubits))
                   = length child_qubits).
    { unfold elem_qubits. rewrite Hq. by apply sorted_set_length_NoDup. }
    rewrite <- Hlen. cbn [qubits].
    apply (asgate_identities (identities child_qubits)).
    apply Forall_forall. intros e He. unfold identities in He.
    apply list_elem_of_In, in_map_iff in He as (q & <- & Hin).
    exists [q]. split; [done|].
    intros q' ->%list_elem_of_singleton.
    unfold elem_qubits. rewrite Hq. by apply sorted_set_elem_of, list_elem_of_In.
Qed.

(** *** Running a permuted gate *)

Lemma csum_Permutation (l1 l2 : list C) : l1 ≡ₚ l2 → csum l1 = csum l2.
Proof using Cring.
  induction 1 as [|x l1 l2 _ IH|x y l|l1 l2 l3 _ IH1 _ IH2]; simpl.
  - reflexivity.
  - by rewrite IH.
  - ring.
  - congruence.
Qed.

Lemma elem_of_all_idx_iff (K : nat) (s : list bool) : s ∈ all_idx K ↔ length s = K.
Proof.
  split; [apply elem_of_all_idx|]. intros <-. unfold all_idx.
  apply list_elem_of_In, in_map_iff. exists (ravel s).
  split; [apply unravel_ravel|]. apply in_seq. pose proof (ravel_lt s). lia.
Qed.

Lemma all_idx_NoDup (K : nat) : NoDup (all_idx K).
Proof.
  unfold all_idx. apply (NoDup_fmap_2_strong (unravel K)); [|apply NoDup_seq].
  intros i j Hi%list_elem_of_In%in_seq Hj%list_elem_of_In%in_seq Heq.
  rewrite <- (ravel_unravel K i), <- (ravel_unravel K j) by lia. by rewrite Heq.
Qed.

Lemma positions_undoes (xs ys : list nat) :
  NoDup xs → ys ≡ₚ xs → undoes (length xs) (positions ys xs) (positions xs ys).
Proof. intros Hnd Hp k Hk. by apply positions_inverse. Qed.

(** Summing over all multi-indices, or over all of them rearranged along a
    permutation of the axes, is the same. *)
Lemma csum_all_idx_gather (xs ys : list nat) (F : list bool → C) :
  NoDup xs → ys ≡ₚ xs →
  csum (map (fun s => F (gather (positions ys xs) s)) (all_idx (length xs)))
  = csum (map F (all_idx (length xs))).
Proof using Cring.
  intros Hnd Hp. set (N := length xs).
  assert (HNy : length ys = N) by (by rewrite Hp).
  assert (Hback : ∀ s, length s = N →
            gather (positions xs ys) (gather (positions ys xs) s) = s).
  { intros s Hs. apply (gather_undo N); [done|by rewrite length_positions|].
    rewrite <- HNy. apply positions_undoes; [by rewrite Hp|by symmetry]. }
  assert (Hforth : ∀ s, length s = N →
            gather (positions ys xs) (gather (positions xs ys) s) = s).
  { intros s Hs. apply (gather_undo N); [done|by rewrite length_positions|].
    by apply positions_undoes. }
  rewrite <- (map_map (gather (positions ys xs)) F).
  apply csum_Permutation, Permutation_map, NoDup_Permutation.
  - apply (NoDup_fmap_2_strong (gather (positions ys xs))); [|apply all_idx_NoDup].
    intros a b Ha%elem_of_all_idx Hb%elem_of_all_idx Heq.
    rewrite <- (Hback a Ha), <- (Hback b Hb). by rewrite Heq.
  - apply all_idx_NoDup.
  - intros s. rewrite elem_of_all_idx_iff. split.
    + intros (a & <- & Ha)%list_elem_of_In%in_map_iff.
      by rewrite length_gather, length_positions.
    + intros Hs. apply list_elem_of_In, in_map_iff.
      exists (gather (positions xs ys) s). split; [by apply Hforth|].
      apply list_elem_of_In, elem_of_all_idx_iff.
      by rewrite length_gather, length_positions.
Qed.

Lemma positions_NoDup (Q xs : list nat) :
  NoDup xs → (∀ x, x ∈ xs → x ∈ Q) → NoDup (positions Q xs).
Proof.
  intros Hnd Hsub. unfold positions.
  apply (NoDup_fmap_2_strong (position Q)); [|done].
  intros x y Hx Hy. apply position_inj; auto.
Qed.

(** Writing [s'] along the order [ys] is writing it, rearranged, along the
    order [xs]. *)
Lemma scatter_rearranged (Q xs ys : list nat) (s' o : list bool) :
  NoDup xs → ys ≡ₚ xs → (∀ x, x ∈ xs → x ∈ Q) →
  scatter (positions Q ys) s' o
  = scatter (positions Q xs) (gather (positions ys xs) s') o.
Proof.
  intros Hnd Hp Hsub. unfold scatter. apply map_ext_in. intros p Hp'.
  assert (Hndy : NoDup ys) by (by rewrite Hp).
  assert (Hsuby : ∀ y, y ∈ ys → y ∈ Q) by (intros y Hy; apply Hsub; by rewrite <- Hp).
  destruct (find_index (positions Q xs) p) as [j|] eqn:Hj.
  - apply find_index_Some in Hj. pose proof Hj as Hj'.
    rewrite lookup_positions in Hj.
    destruct (xs !! j) as [x|] eqn:Hx; [|done]. injection Hj as <-.
    assert (Hxy : x ∈ ys) by (rewrite Hp; by eapply list_elem_of_lookup_2).
    rewrite (find_index_lookup (positions Q ys) (position Q x) (position ys x)).
    + symmetry. apply nth_lookup_Some.
      rewrite lookup_gather, lookup_positions, Hx. done.
    + by apply positions_NoDup.
    + by rewrite lookup_positions, (lookup_position ys x Hxy).
  - apply find_index_None in Hj.
    destruct (find_index (positions Q ys) p) as [i|] eqn:Hi; [|done].
    exfalso. apply Hj. apply find_index_Some, list_elem_of_lookup_2 in Hi.
    unfold positions in *. rewrite <- Hp. done.
Qed.

(** The permuted gate acts on every state as the gate does. *)
Lemma permute_run_ket (g : QuantumGate C) (qs : Qubits) (ket : Ket C) :
  gate_wf g → qs ≡ₚ g_qubits g → ket_for (OpGate g) ket →
  gate_run_ket (Unitary (permuted_operator g qs) qs) ket = gate_run_ket g ket.
Proof using Cring.
  intros [Hnd Hlen] Hp [Hsub Hket]. cbn [qubits] in Hsub.
  set (gq := g_qubits g) in *. set (N := length gq).
  assert (HN : length qs = N) by (by rewrite Hp).
  assert (Hsubq : ∀ q, q ∈ qs → q ∈ k_qubits ket)
    by (intros q Hq; apply Hsub; by rewrite <- Hp).
  rewrite !gate_run_ket_covered by done. cbn [operator g_qubits]. fold gq.
  f_equal. f_equal.
  set (n := length (k_qubits ket)).
  apply (array_ext n); [by apply length_tensormul..|].
  intros o Ho.
  rewrite (tensormul_at _ _ _ n) by done.
  rewrite (tensormul_at (operator g) _ _ n) by done.
  rewrite !length_positions, HN. fold N.
  set (F := fun s => cmul (at_idx (operator g)
                             (gather (positions (k_qubits ket) gq) o ++ s))
                          (at_idx (vector ket)
                             (scatter (positions (k_qubits ket) gq) s o))).
  transitivity (csum (map (fun s' => F (gather (positions qs gq) s')) (all_idx N)));
    [|by apply csum_all_idx_gather].
  apply csum_map_ext. intros s' Hs'%elem_of_all_idx. unfold F.
  rewrite permuted_operator_at
    by (rewrite length_app, length_gather, length_positions, Hs', HN;
        unfold N, gq; lia).
  fold gq N.
  rewrite (gather_pperm N)
    by (rewrite ?length_gather, ?length_positions; try done;
        rewrite <- HN; apply positions_bounded; intros y Hy; by rewrite Hp).
  rewrite (gather_positions_compose (k_qubits ket) qs gq)
    by (intros x Hx; by rewrite Hp).
  by rewrite (scatter_rearranged (k_qubits ket) gq qs).
Qed.

(** C3.  For a gate [g] and a rearrangement [qs] of its qubits, [permute]
    returns a gate over [qs]; its operator is [g]'s, read as a tensor of rank
    [2N], with the row indices and the column indices moved by the same
    permutation, the one that takes the order of [g]'s qubits to [qs]; it is
    the same gate with its qubits in the new order, acting on every state as
    [g] does; and permuting it back to the order of [g]'s qubits returns
    [g]. *)
Theorem permute_transposes_and_round_trips (g : QuantumGate C) (qs : Qubits) :
  gate_wf g → qs ≡ₚ g_qubits g →
  let N := length (g_qubits g) in
  let perm := positions (g_qubits g) qs in
  ∃ g',
    permute g qs = Ok g' ∧
    g_qubits g' = qs ∧
    length (operator g') = 2 ^ (2 * N) ∧
    (∀ r c, length r = N → length c = N →
       at_idx (operator g') (gather perm r ++ gather perm c)
       = at_idx (operator g) (r ++ c)) ∧
    (∀ ket, ket_for (OpGate g) ket → gate_run_ket g' ket = gate_run_ket g ket) ∧
    permute g' (g_qubits g) = Ok g.
Proof using Cring.
  intros Hwf Hp N perm.
  destruct (permute_round_trip g qs Hwf Hp) as (g' & Hfwd & Hqs & Hlen & Hat & Hbwd).
  exists g'. split_and!; try done.
  intros ket Hket. destruct (decide (g_qubits g = qs)) as [Heq|Hne].
  - unfold permute in Hfwd. rewrite decide_True in Hfwd by done. by injection Hfwd as <-.
  - rewrite permute_rearranged in Hfwd by done. injection Hfwd as <-.
    by apply permute_run_ket.
Qed.

End Contraction.

(** [CNOT (0, 1)] permuted to the order (1, 0) and back. *)
Lemma permute_transposes_and_round_trips_witness :
  gate_wf (CNOT 0 1) ∧ [1; 0] ≡ₚ g_qubits (CNOT 0 1) ∧
  ∃ g', permute (CNOT 0 1) [1; 0] = Ok g' ∧ g_qubits g' = [1; 0] ∧
        permute g' [0; 1] = Ok (CNOT 0 1).
Proof.
  assert (Hwf : gate_wf (CNOT 0 1)).
  { split; [apply (bool_decide_unpack _); exact I|reflexivity]. }
  assert (Hp : [1; 0] ≡ₚ g_qubits (CNOT 0 1)) by apply perm_swap.
  destruct (permute_transposes_and_round_trips (entries := Z_entries) InitialRing.Zth
              (CNOT 0 1) [1; 0] Hwf Hp)
    as (g' & Hfwd & Hqs & _ & _ & _ & Hbwd).
  split_and!; [exact Hwf|exact Hp|].
  exists g'. split_and!; assumption.
Defined.


(** *** The fold over concrete gates *)

(** The code composes the first child first: the operator of the fold of
    [shear_upper; shear_lower] is the product [shear_lower * shear_upper]. *)
Example asgate_two_children :
  asgate (OpComposite [OpGate (shear_upper 0); OpGate (shear_lower 0)] [0] [])
  = Ok (Unitary [1; 1; 1; 2]%Z [0]).
Proof. vm_compute. reflexivity. Qed.

(** C1 (as stated) fails: composing the last child onto the accumulator
    first gives another gate than [asgate] does. *)
Lemma asgate_not_last_child_first :
  asgate (OpComposite [OpGate (shear_upper 0); OpGate (shear_lower 0)] [0] [])
  ≠ asgate_last_child_first
      (OpComposite [OpGate (shear_upper 0); OpGate (shear_lower 0)] [0] []).
Proof. vm_compute. discriminate. Qed.

(** Three single-qubit identity gates fold to the identity of dimension 8. *)
Lemma asgate_folds_in_program_order_witness :
  NoDup [0; 1; 2] ∧
  ∃ c, QuantumComposite_init (identities (C := Z) [0; 1; 2]) None None = Ok c ∧
       asgate c = Ok (Unitary (np_eye (2 ^ 3)) (qubits c)).
Proof.
  assert (Hnd : NoDup [0; 1; 2]) by (apply (bool_decide_unpack _); exact I).
  split; [exact Hnd|].
  exact (proj2 (proj2 (proj2 (proj2
           (asgate_folds_in_program_order (entries := Z_entries) InitialRing.Zth [] []))))
         [0; 1; 2] Hnd).
Defined.

(** ** Running an operation *)

Section RunProperties.
Context {C : Type} {entries : Entries C}.

(** C9.  [run] without a state runs the operation on the all-zero pure state
    over the operation's own qubit tuple: the result is that of [run] applied
    to this ket, whose qubits are exactly [op.qubits], in this order, whose
    vector has [2^N] amplitudes, one at offset zero and zero elsewhere, and
    whose memory is empty. *)
Theorem run_default_state (op : QuantumOperation C) :
  let ket := zero_ket (qubits op) in
  run op None = run op (Some (StKet ket)) ∧
  run op None = StKet <$> run_ket op ket ∧
  k_qubits ket = qubits op ∧
  length (vector ket) = 2 ^ qubit_nb op ∧
  (∀ k, k < 2 ^ qubit_nb op →
        nth k (vector ket) c0 = if decide (k = 0) then c1 else c0) ∧
  k_data ket = ∅.
Proof.
  cbn zeta. split_and!; try reflexivity.
  - apply length_tabulate.
  - intros k Hk. unfold zero_ket, qubit_nb in *. cbn [vector].
    by rewrite nth_tabulate.
Qed.

End RunProperties.

(** Running [X] on qubit 0 and then [CNOT (0, 1)] from the default state
    gives [|11>]. *)
Example run_default_state_example :
  run (OpComposite [OpGate (Pauli_X 0); OpGate (CNOT 0 1)] [0; 1] []) None
  = Ok (StKet (mkKet [0; 0; 0; 1]%Z [0; 1] ∅)).
Proof. vm_compute. reflexivity. Qed.

(** ** Standard controlled gates *)

Section StdCtrlGateProperties.
Context {C : Type} {entries : Entries C}.

Lemma sym_eye_nonneg (d : nat) :
  sym_eye (Z.of_nat d)
  = Ok (map (fun i => map (fun j => if decide (i = j) then c1 else c0) (seq 0 d))
            (seq 0 d)).
Proof.
  unfold sym_eye. rewrite decide_False by lia. by rewrite Nat2Z.id.
Qed.

Lemma sym_eye_square (d : nat) (E : SymMatrix C) :
  sym_eye (Z.of_nat d) = Ok E → sym_square d E ∧ sym_cols E = d.
Proof.
  rewrite sym_eye_nonneg. intros [= <-]. split; [split|].
  - by rewrite length_map, length_seq.
  - apply Forall_forall. intros row (i & <- & _)%list_elem_of_In%in_map_iff.
    by rewrite length_map, length_seq.
  - destruct d as [|d]; [done|]. simpl. by rewrite length_map, length_seq.
Qed.

Lemma sym_eye_entry (d : nat) (E : SymMatrix C) (i j : nat) :
  sym_eye (Z.of_nat d) = Ok E → i < d → j < d →
  sym_entry E i j = if decide (i = j) then c1 else c0.
Proof.
  rewrite sym_eye_nonneg. intros [= <-] Hi Hj. unfold sym_entry.
  rewrite (nth_indep _ [] (map (fun j => if decide (0 = j) then c1 else c0) (seq 0 d)))
    by (by rewrite length_map, length_seq).
  rewrite (map_nth (fun i => map (fun j => if decide (i = j) then c1 else c0) (seq 0 d))
             (seq 0 d) 0 i).
  rewrite seq_nth by done. simpl.
  rewrite (nth_indep _ c0 (if decide (i = 0) then c1 else c0))
    by (by rewrite length_map, length_seq).
  rewrite (map_nth (fun j => if decide (i = j) then c1 else c0) (seq 0 d) 0 j).
  by rewrite seq_nth.
Qed.

Lemma sym_square_cols (d : nat) (M : SymMatrix C) :
  sym_square d M → sym_cols M = d.
Proof.
  intros [Hlen Hrows]. destruct M as [|row M]; simpl in *; [done|].
  by apply Forall_cons in Hrows as [? _].
Qed.

Lemma sym_square_row (d : nat) (M : SymMatrix C) (i : nat) :
  sym_square d M → i < d → length (nth i M []) = d.
Proof.
  intros [Hlen Hrows] Hi. rewrite Forall_forall in Hrows.
  apply Hrows, list_elem_of_In, nth_In. lia.
Qed.

(** The entries of a block-diagonal matrix. *)
Lemma sym_diag_entry (a b : nat) (A B : SymMatrix C) (i j : nat) :
  sym_square a A → sym_square b B → i < a + b → j < a + b →
  sym_entry (sym_diag A B) i j
  = if decide (i < a ∧ j < a) then sym_entry A i j
    else if decide (a ≤ i ∧ a ≤ j) then sym_entry B (i - a) (j - a)
    else c0.
Proof.
  intros HA HB Hi Hj. unfold sym_entry, sym_diag.
  rewrite (sym_square_cols a A HA), (sym_square_cols b B HB).
  pose proof HA as [HlenA _]. pose proof HB as [HlenB _].
  destruct (decide (i < a)) as [Hia|Hia].
  - rewrite app_nth1 by (by rewrite length_map, HlenA).
    rewrite (nth_indep _ [] ([] ++ repeat c0 b)) by (by rewrite length_map, HlenA).
    rewrite (map_nth (fun row => row ++ repeat c0 b) A [] i).
    pose proof (sym_square_row a A i HA Hia) as Hrow.
    destruct (decide (j < a)) as [Hja|Hja].
    + rewrite decide_True by done. by rewrite app_nth1 by lia.
    + rewrite decide_False by lia. rewrite decide_False by lia.
      rewrite app_nth2 by lia. apply nth_repeat.
  - rewrite app_nth2 by (rewrite length_map, HlenA; lia).
    rewrite length_map, HlenA.
    rewrite (nth_indep _ [] (repeat c0 a ++ [])) by (rewrite length_map, HlenB; lia).
    rewrite (map_nth (fun row => repeat c0 a ++ row) B [] (i - a)).
    rewrite decide_False by lia.
    destruct (decide (j < a)) as [Hja|Hja].
    + rewrite decide_False by lia. rewrite app_nth1 by (by rewrite repeat_length).
      apply nth_repeat.
    + rewrite decide_True by lia. rewrite app_nth2 by (rewrite repeat_length; lia).
      by rewrite repeat_length.
Qed.

Lemma sym_diag_square (a b : nat) (A B : SymMatrix C) :
  sym_square a A → sym_square b B → sym_square (a + b) (sym_diag A B).
Proof.
  intros HA HB. unfold sym_diag.
  rewrite (sym_square_cols a A HA), (sym_square_cols b B HB).
  destruct HA as [HlenA HrowsA]. destruct HB as [HlenB HrowsB]. split.
  - rewrite length_app, !length_map. lia.
  - apply Forall_app. rewrite !Forall_forall in *. split.
    + intros row (r & <- & Hr)%list_elem_of_In%in_map_iff.
      rewrite length_app, repeat_length, (HrowsA r) by (by apply list_elem_of_In).
      done.
    + intros row (r & <- & Hr)%list_elem_of_In%in_map_iff.
      rewrite length_app, repeat_length, (HrowsB r) by (by apply list_elem_of_In).
      done.
Qed.

Lemma pow2_sub_nonneg (n t : nat) :
  (0 ≤ 2 ^ Z.of_nat n - 2 ^ Z.of_nat t)%Z ↔ t ≤ n.
Proof.
  split.
  - intros Hle. destruct (decide (t ≤ n)) as [|Hlt]; [done|].
    assert (Z.of_nat n < Z.of_nat t)%Z as Hz by lia.
    pose proof (Z.pow_lt_mono_r 2 (Z.of_nat n) (Z.of_nat t) ltac:(lia) ltac:(lia) Hz).
    lia.
  - intros Hle.
    pose proof (Z.pow_le_mono_r 2 (Z.of_nat t) (Z.of_nat n) ltac:(lia) ltac:(lia)). lia.
Qed.

Lemma pow2_sub_of_nat (n t : nat) :
  t ≤ n → (2 ^ Z.of_nat n - 2 ^ Z.of_nat t)%Z = Z.of_nat (2 ^ n - 2 ^ t).
Proof.
  intros Hle. pose proof (Nat.pow_le_mono_r 2 t n ltac:(lia) Hle).
  rewrite Nat2Z.inj_sub by done. by rewrite !Nat2Z.inj_pow.
Qed.

(** C2.  The class of a standard controlled gate with target [T]: the number
    of control qubits is the qubit count minus [T]'s; the symbolic operator
    is the block-diagonal matrix of the identity of dimension
    [2^n - 2^t] and [T]'s symbolic operator.  With two qubits over a
    one-qubit target there is one control qubit, the block for control 0 is
    the identity of dimension 2, the block for control 1 is [T]'s operator,
    and the other two blocks are zero. *)
Theorem ctrl_gate_class (decl : CtrlGateDeclaration C) (cls : StdCtrlGateClass C) :
  StdCtrlGate_init_subclass decl = Ok cls →
  let target := decl_target decl in
  let n := cv_qubit_nb cls in
  let t := cv_qubit_nb target in
  let k := 2 ^ n - 2 ^ t in
  sym_square (2 ^ t) (cv_sym_operator target) →
  cv_target cls = target ∧
  cv_params cls = cv_params target ∧
  control_qubit_nb cls = (Z.of_nat n - Z.of_nat t)%Z ∧
  t ≤ n ∧
  (∃ eye, sym_eye (Z.of_nat k) = Ok eye ∧
          cv_sym_operator cls = sym_diag eye (cv_sym_operator target)) ∧
  sym_square (2 ^ n) (cv_sym_operator cls) ∧
  (∀ i j, i < 2 ^ n → j < 2 ^ n →
     sym_entry (cv_sym_operator cls) i j
     = if decide (i < k ∧ j < k) then (if decide (i = j) then c1 else c0)
       else if decide (k ≤ i ∧ k ≤ j)
            then sym_entry (cv_sym_operator target) (i - k) (j - k)
            else c0) ∧
  (n = 2 → t = 1 →
     control_qubit_nb cls = 1%Z ∧
     sym_block (cv_sym_operator cls) 0 0 2 2 = [[c1; c0]; [c0; c1]] ∧
     sym_block (cv_sym_operator cls) 2 2 2 2 = cv_sym_operator target ∧
     sym_block (cv_sym_operator cls) 0 2 2 2 = [[c0; c0]; [c0; c0]] ∧
     sym_block (cv_sym_operator cls) 2 0 2 2 = [[c0; c0]; [c0; c0]]).
Proof.
  unfold StdCtrlGate_init_subclass.
  destruct (StdGate_init_subclass _ _ _) as [params qubit_nb].
  destruct (decide (cv_params (decl_target decl) = params)) as [Hparams|];
    [|discriminate].
  destruct (sym_eye _) as [eye|e] eqn:Heye; [|discriminate].
  simpl. intros [= <-]. cbn [ctrl_class cv_target cv_params cv_qubit_nb cv_sym_operator].
  intros Hsq.
  set (target := decl_target decl) in *. set (t := cv_qubit_nb target) in *.
  assert (Hle : t ≤ qubit_nb).
  { apply pow2_sub_nonneg. unfold sym_eye in Heye.
    destruct (decide (_ < 0)%Z); [discriminate|lia]. }
  rewrite pow2_sub_of_nat in Heye by done.
  set (k := 2 ^ qubit_nb - 2 ^ t) in *.
  assert (Hk : k + 2 ^ t = 2 ^ qubit_nb).
  { pose proof (Nat.pow_le_mono_r 2 t qubit_nb ltac:(lia) Hle). lia. }
  destruct (sym_eye_square k eye Heye) as [Heyesq _].
  split_and!; try done.
  - by exists eye.
  - rewrite <- Hk. by apply sym_diag_square.
  - intros i j Hi Hj.
    rewrite (sym_diag_entry k (2 ^ t)) by (done || lia).
    destruct (decide (i < k ∧ j < k)) as [[? ?]|]; [|done].
    by apply (sym_eye_entry k).
  - intros -> Ht. unfold control_qubit_nb. cbn [ctrl_class cv_target cv_qubit_nb].
    fold target. fold t. rewrite Ht in *. split; [done|].
    assert (k = 2) as -> by (unfold k; rewrite Ht; reflexivity).
    rewrite sym_eye_nonneg in Heye. injection Heye as <-.
    destruct Hsq as [Hlen Hrows]. simpl in Hlen.
    destruct (cv_sym_operator target) as [|r0 [|r1 [|? ?]]]; try discriminate.
    apply Forall_cons in Hrows as [H0 Hrows]. apply Forall_cons in Hrows as [H1 _].
    destruct r0 as [|a [|b [|? ?]]]; try discriminate.
    destruct r1 as [|c [|d [|? ?]]]; try discriminate.
    done.
Qed.

End StdCtrlGateProperties.

(** The class of [CNOT], declared with two qubits over the target [X]. *)
Definition X_class : StdGateClass Z :=
  {| cls_name := "X"; cv_params := []; cv_qubit_nb := 1;
     cv_sym_operator := [[0; 1]; [1; 0]]%Z;
     cv_operator_structure := permutation; cv_hermitian := true |}.

Definition CNOT_declaration : CtrlGateDeclaration Z :=
  {| decl_name := "CNOT";
     decl_annotations := [("q0", AnnQubit); ("q1", AnnQubit); ("return", AnnOther)];
     decl_target := X_class;
     decl_inherited := ([], 0) |}.

Definition CNOT_class : StdCtrlGateClass Z :=
  {| ctrl_class :=
       {| cls_name := "CNOT"; cv_params := []; cv_qubit_nb := 2;
          cv_sym_operator := [[1; 0; 0; 0]; [0; 1; 0; 0]; [0; 0; 0; 1]; [0; 0; 1; 0]]%Z;
          cv_operator_structure := permutation; cv_hermitian := true |};
     cv_target := X_class |}.

Example CNOT_init_subclass : StdCtrlGate_init_subclass CNOT_declaration = Ok CNOT_class.
Proof. reflexivity. Qed.

Lemma ctrl_gate_class_witness :
  StdCtrlGate_init_subclass CNOT_declaration = Ok CNOT_class ∧
  sym_square 2 (cv_sym_operator X_class) ∧
  control_qubit_nb CNOT_class = 1%Z ∧
  sym_block (cv_sym_operator CNOT_class) 0 0 2 2 = [[1; 0]; [0; 1]]%Z ∧
  sym_block (cv_sym_operator CNOT_class) 2 2 2 2 = cv_sym_operator X_class.
Proof.
  assert (Hsq : sym_square 2 (cv_sym_operator X_class)).
  { split; [reflexivity|]. repeat constructor. }
  pose proof (ctrl_gate_class CNOT_declaration CNOT_class eq_refl Hsq)
    as (_ & _ & _ & _ & _ & _ & _ & Hblocks).
  destruct (Hblocks eq_refl eq_refl) as (Hnb & H00 & H11 & _).
  split_and!; [reflexivity|exact Hsq|exact Hnb|exact H00|exact H11].
Defined.

(** * Further properties of gates and composites *)

(** ** Running never touches the qubits or the memory of a state *)

Section RunInvariants.
Context {C : Type} {entries : Entries C}.

Lemma mapM_index_raise (xs ys : list nat) :
  ¬ (∀ y, y ∈ ys → y ∈ xs) →
  mapM (index xs) ys = Raise (ValueError "tuple.index(x): x not in tuple").
Proof.
  intros Hnot. destruct (mapM (index xs) ys) as [l|e] eqn:Hm.
  - exfalso. apply Hnot. intros y Hy. apply mapM_Ok_Forall2 in Hm.
    apply list_elem_of_lookup in Hy as [i Hi].
    destruct (Forall2_lookup_l _ _ _ _ _ Hm Hi) as (k & _ & Hk).
    unfold index in Hk. destruct (find_index xs y) as [j|] eqn:Hj; [|discriminate].
    apply find_index_Some in Hj. by eapply list_elem_of_lookup_2.
  - by apply mapM_index_error in Hm as ->.
Qed.

Lemma fold_run_keeps {S : Type} (P : S → S → Prop) (step : QuantumOperation C → S → Result S)
    (elements : list (QuantumOperation C)) :
  (∀ s, P s s) → (∀ a b c, P a b → P b c → P a c) →
  Forall (fun e => ∀ s s', step e s = Ok s' → P s s') elements →
  ∀ s s', fold_left (fun (acc : Result S) e => k ← acc; step e k) elements (Ok s) = Ok s' →
          P s s'.
Proof.
  intros Hrefl Htrans Hall.
  induction elements as [|e elements IH] using rev_ind; intros s s'.
  - simpl. intros [= <-]. apply Hrefl.
  - apply Forall_app in Hall as [Hall He]. rewrite Forall_singleton in He.
    rewrite fold_left_app. cbn [fold_left].
    destruct (fold_left _ elements (Ok s)) as [mid|err] eqn:Hmid; simpl; [|discriminate].
    intros Hstep. eapply Htrans; [by apply IH|by apply He].
Qed.

(** X1.  A successful [_run_ket] gives a state over the same qubits, in the
    same order, with the same classical data; and with as many amplitudes as
    before when the state had one for each basis state. *)
Theorem run_ket_keeps_qubits_and_data (op : QuantumOperation C) (ket ket' : Ket C) :
  run_ket op ket = Ok ket' →
  k_qubits ket' = k_qubits ket ∧
  k_data ket' = k_data ket ∧
  (length (vector ket) = 2 ^ length (k_qubits ket) →
   length (vector ket') = length (vector ket)).
Proof.
  revert ket ket'.
  induction op as [g|elements qs ads IH|qs ads] using QuantumOperation_nested_ind;
    intros ket ket'.
  - cbn [run_ket]. unfold gate_run_ket.
    destruct (mapM _ _) as [idx|e]; simpl; [|discriminate].
    intros [= <-]. cbn [k_qubits k_data vector]. split_and!; try done.
    intros Hlen. rewrite (length_tensormul _ _ _ (length (k_qubits ket))); done.
  - cbn [run_ket]. intros Hfold.
    apply (fold_run_keeps
             (fun a b => k_qubits b = k_qubits a ∧ k_data b = k_data a ∧
                (length (vector a) = 2 ^ length (k_qubits a) →
                 length (vector b) = length (vector a)))
             run_ket elements); try done.
    intros a b c (Hq1 & Hd1 & Hl1) (Hq2 & Hd2 & Hl2). split_and!; try congruence.
    intros Ha. rewrite Hl2, Hl1; try done. by rewrite Hl1, Hq1.
  - discriminate.
Qed.

(** X2.  A gate runs on a state exactly when the state has all of the gate's
    qubits; otherwise the lookup of a qubit raises [ValueError]. *)
Theorem gate_run_ket_needs_qubits (g : QuantumGate C) (ket : Ket C) :
  (is_ok (gate_run_ket g ket) = true ↔ ∀ q, q ∈ g_qubits g → q ∈ k_qubits ket) ∧
  (is_ok (gate_run_ket g ket) = false ↔
   gate_run_ket g ket = Raise (ValueError "tuple.index(x): x not in tuple")).
Proof.
  unfold gate_run_ket.
  destruct (decide (Forall (fun q => q ∈ k_qubits ket) (g_qubits g))) as [Hsub|Hnot];
    rewrite Forall_forall in *.
  - rewrite mapM_index by done. simpl. split; split; try done; discriminate.
  - rewrite mapM_index_raise by done. simpl. split; split; try done; discriminate.
Qed.

End RunInvariants.

Lemma run_ket_keeps_qubits_and_data_witness :
  run_ket (OpComposite [OpGate (Pauli_X 0); OpGate (CNOT 0 1)] [0; 1] [])
          (zero_ket [0; 1; 2])
  = Ok (mkKet [0; 0; 0; 0; 0; 0; 1; 0]%Z [0; 1; 2] ∅) ∧
  k_qubits (mkKet [0; 0; 0; 0; 0; 0; 1; 0]%Z [0; 1; 2] ∅) = [0; 1; 2].
Proof.
  assert (Hrun : run_ket (OpComposite [OpGate (Pauli_X 0); OpGate (CNOT 0 1)] [0; 1] [])
                         (zero_ket [0; 1; 2])
                 = Ok (mkKet [0; 0; 0; 0; 0; 0; 1; 0]%Z [0; 1; 2] ∅))
    by (vm_compute; reflexivity).
  split; [exact Hrun|].
  exact (proj1 (run_ket_keeps_qubits_and_data _ _ _ Hrun)).
Defined.

(** ** Composition of gates on any qubits *)

Section ComposeAnyQubits.
Context {C : Type} {entries : Entries C}.

Lemma extra_qubits_NoDup_app (self other : QuantumGate C) :
  NoDup (g_qubits other) → NoDup (g_qubits other ++ extra_qubits self other).
Proof.
  intros Hnd. apply NoDup_app. split_and!; [done| |apply sorted_set_NoDup].
  intros q Hq Hex%elem_of_extra_qubits. tauto.
Qed.

(** What [matmul] computes when [other] lacks a qubit of [self]: [other] is
    first composed onto the identity over its qubits and the missing ones. *)
Lemma matmul_padded (self other : QuantumGate C) :
  extra_qubits self other ≠ [] →
  let wide := g_qubits other ++ extra_qubits self other in
  let padded := Unitary (tensormul (operator other) (operator (Identity wide))
                           (positions wide (g_qubits other))) wide in
  matmul self other
  = Ok (Unitary (tensormul (operator self) (operator padded)
                   (positions wide (g_qubits self))) wide).
Proof.
  intros Hex wide padded. unfold matmul. rewrite (matmul_fuel_S 1). cbn zeta.
  rewrite decide_True by (by destruct (extra_qubits self other)).
  rewrite (matmul_fuel_covered 0 other (Identity wide))
    by (intros q Hq; apply elem_of_app; by left).
  cbn [mbind Result_bind]. fold wide. cbn [Identity g_qubits]. fold padded.
  rewrite (matmul_fuel_covered 0 self padded); [done|].
  intros q Hq. cbn [padded g_qubits]. apply elem_of_app.
  destruct (decide (q ∈ g_qubits other)); [by left|right].
  by apply elem_of_extra_qubits.
Qed.

Lemma length_Identity (qs : Qubits) :
  length (operator (Identity (C := C) qs)) = 2 ^ (2 * length qs).
Proof.
  cbn [Identity operator]. rewrite length_np_eye.
  replace (2 * length qs) with (length qs + length qs) by lia.
  by rewrite Nat.pow_add_r.
Qed.


Hypothesis Cring : ring_theory c0 c1 cadd cmul csub copp eq.

(** X4.  Running [self @ other] on a state that has the qubits of both is
    running [other], then [self], also when [other] lacks qubits of
    [self]. *)
Theorem matmul_runs_other_then_self (self other : QuantumGate C) (ket : Ket C) :
  gate_wf other →
  (∀ q, q ∈ g_qubits self → q ∈ k_qubits ket) →
  (∀ q, q ∈ g_qubits other → q ∈ k_qubits ket) →
  length (vector ket) = 2 ^ length (k_qubits ket) →
  (composed ← matmul self other; gate_run_ket composed ket)
  = (ket' ← gate_run_ket other ket; gate_run_ket self ket').
Proof using Cring.
  intros Hwf Hs Ho Hlen.
  destruct (extra_qubits self other) as [|x extra] eqn:Hex.
  - apply (matmul_run_ket Cring); try done.
    intros q Hq. destruct (decide (q ∈ g_qubits other)) as [|Hn]; [done|].
    assert (q ∈ extra_qubits self other) as Hin by (by apply elem_of_extra_qubits).
    rewrite Hex in Hin. by apply elem_of_nil in Hin.
  - pose proof (matmul_padded self other) as Hpad. rewrite Hex in Hpad.
    specialize (Hpad ltac:(done)). cbn zeta in Hpad. rewrite <- Hex in Hpad.
    set (wide := g_qubits other ++ extra_qubits self other) in *.
    set (padded := Unitary (tensormul (operator other) (operator (Identity wide))
                              (positions wide (g_qubits other))) wide) in *.
    assert (Hwide : ∀ q, q ∈ wide → q ∈ k_qubits ket).
    { intros q [Hq|Hq%elem_of_extra_qubits]%elem_of_app; [auto|]. apply Hs, Hq. }
    assert (Hnd : NoDup wide) by (apply extra_qubits_NoDup_app, Hwf).
    assert (Hos : ∀ q, q ∈ g_qubits other → q ∈ wide)
      by (intros q Hq; apply elem_of_app; by left).
    assert (Hss : ∀ q, q ∈ g_qubits self → q ∈ wide).
    { intros q Hq. apply elem_of_app.
      destruct (decide (q ∈ g_qubits other)); [by left|right].
      by apply elem_of_extra_qubits. }
    assert (Hpadded : matmul other (Identity wide) = Ok padded)
      by (by apply matmul_covered).
    assert (Hwfp : gate_wf padded).
    { split; [done|]. cbn [padded operator g_qubits].
      apply length_tensormul, length_Identity. }
    (* the padded gate acts as [other] *)
    pose proof (matmul_run_ket Cring other (Identity wide) ket Hos Hwide
                  (Identity_wf wide Hnd) Hlen) as Hrun_padded.
    rewrite Hpadded, (Identity_run_ket Cring) in Hrun_padded by done.
    cbn [mbind Result_bind] in Hrun_padded.
    (* and [self] composed onto it runs after it *)
    pose proof (matmul_run_ket Cring self padded ket Hss Hwide Hwfp Hlen) as Hrun.
    rewrite (matmul_covered self padded) in Hrun by done.
    change (g_qubits padded) with wide in Hrun.
    rewrite Hpad. cbn [mbind Result_bind] in Hrun |- *.
    by rewrite Hrun, Hrun_padded.
Qed.

End ComposeAnyQubits.

(** [X] on qubit 2 composed onto [CNOT (0, 1)], then run from [|000>]. *)
Lemma matmul_runs_other_then_self_witness :
  gate_wf (CNOT 0 1) ∧
  (composed ← matmul (Pauli_X 2) (CNOT 0 1); gate_run_ket composed (zero_ket [0; 1; 2]))
  = (ket' ← gate_run_ket (CNOT 0 1) (zero_ket [0; 1; 2]); gate_run_ket (Pauli_X 2) ket').
Proof.
  assert (Hwf : gate_wf (CNOT 0 1)).
  { split; [apply (bool_decide_unpack _); exact I|reflexivity]. }
  split; [exact Hwf|].
  apply (matmul_runs_other_then_self (entries := Z_entries) InitialRing.Zth
           (Pauli_X 2) (CNOT 0 1) (zero_ket [0; 1; 2]) Hwf).
  - intros q Hq. apply (bool_decide_unpack _).
    apply list_elem_of_singleton in Hq as ->. exact I.
  - intros q Hq. apply elem_of_cons in Hq as [->|Hq];
      [apply (bool_decide_unpack _); exact I|].
    apply list_elem_of_singleton in Hq as ->. apply (bool_decide_unpack _). exact I.
  - reflexivity.
Defined.

(** ** Composition is associative and has the identity gate as unit *)

Section ComposeLaws.
Context {C : Type} {entries : Entries C}.
Hypothesis Cring : ring_theory c0 c1 cadd cmul csub copp eq.

Add Ring Cr_laws : Cring.

Lemma find_index_app_l (xs ys : list nat) (x : nat) :
  x ∈ xs → find_index (xs ++ ys) x = find_index xs x.
Proof.
  induction xs as [|y xs IH]; intros Hx; [by apply elem_of_nil in Hx|]. simpl.
  destruct (decide (y = x)); [done|]. rewrite IH; [done|].
  apply elem_of_cons in Hx as [->|]; done.
Qed.

Lemma positions_app_l (xs ys zs : list nat) :
  (∀ z, z ∈ zs → z ∈ xs) → positions (xs ++ ys) zs = positions xs zs.
Proof.
  intros Hsub. unfold positions. apply map_ext_in. intros z Hz%list_elem_of_In.
  unfold position. by rewrite find_index_app_l by auto.
Qed.

Lemma positions_self (xs : list nat) :
  NoDup xs → positions xs xs = seq 0 (length xs).
Proof.
  intros Hnd. apply list_eq. intros i. rewrite lookup_positions.
  destruct (xs !! i) as [x|] eqn:Hi; simpl.
  - rewrite (position_lookup _ x i) by done. symmetry.
    apply lookup_seq. split; [done|]. by eapply lookup_lt_Some.
  - symmetry. apply lookup_ge_None. rewrite length_seq. by apply lookup_ge_None.
Qed.

Lemma scatter_seq (s r : list bool) :
  length s = length r → scatter (seq 0 (length r)) s r = s.
Proof.
  intros Hlen. unfold scatter.
  transitivity (map (fun p => nth p s false) (seq 0 (length s)));
    [|apply gather_seq].
  rewrite Hlen. apply map_ext_in. intros p Hp%in_seq.
  rewrite (find_index_lookup (seq 0 (length r)) p p); [done|apply NoDup_seq|].
  apply lookup_seq_lt. lia.
Qed.

Lemma gather_seq_len (N : nat) (x : list bool) :
  length x = N → gather (seq 0 N) x = x.
Proof. intros <-. apply gather_seq. Qed.

Lemma scatter_seq_len (N : nat) (s r : list bool) :
  length s = N → length r = N → scatter (seq 0 N) s r = s.
Proof. intros Hs <-. by apply scatter_seq. Qed.

(** Contracting an operator with the identity operator on the same axes
    leaves it as it is. *)
Lemma tensormul_eye_r (N : nat) (A : list C) :
  length A = 2 ^ (2 * N) →
  tensormul A (np_eye (2 ^ N)) (seq 0 N) = A.
Proof using Cring.
  intros HA.
  assert (Heye : length (np_eye (C := C) (2 ^ N)) = 2 ^ (2 * N)).
  { rewrite length_np_eye. replace (2 * N) with (N + N) by lia.
    by rewrite Nat.pow_add_r. }
  apply (array_ext (2 * N)); [by apply length_tensormul|done|].
  intros o Ho. rewrite (tensormul_at _ _ _ (2 * N)) by done.
  rewrite length_seq.
  set (r := take N o). set (c := drop N o).
  assert (Hr : length r = N) by (unfold r; rewrite length_take; lia).
  assert (Hc : length c = N) by (unfold c; rewrite length_drop; lia).
  assert (Hrc : o = r ++ c) by (unfold r, c; by rewrite take_drop).
  rewrite Hrc.
  unfold all_idx. rewrite map_map.
  erewrite map_ext_in.
  2:{ intros j Hj%in_seq.
      rewrite gather_app_l by (rewrite Hr; apply Forall_forall;
                               intros a Ha%list_elem_of_In%in_seq; lia).
      rewrite scatter_app_l by (rewrite Hr; apply Forall_forall;
                                intros a Ha%list_elem_of_In%in_seq; lia).
      rewrite (gather_seq_len N r) by done.
      rewrite (scatter_seq_len N) by (done || apply length_unravel).
      rewrite at_idx_eye by (done || apply length_unravel).
      rewrite (ravel_unravel N j) by lia.
      instantiate (1 := fun j => if decide (ravel c = j)
                                 then at_idx A (r ++ unravel N j) else c0).
      simpl. destruct (decide (j = ravel c)) as [->|Hne].
      - rewrite decide_True by done. ring.
      - rewrite decide_False by done. ring. }
  rewrite (csum_delta Cring).
  - by rewrite <- Hc, unravel_ravel.
  - pose proof (ravel_lt c). rewrite Hc in *. lia.
Qed.

(** X5.  The identity gate is a unit of composition: composed onto a
    well-formed gate from the left, over any of the gate's qubits, or from
    the right, over the gate's own qubits, it gives the gate back. *)
Theorem matmul_Identity_unit (g : QuantumGate C) (qs : Qubits) :
  gate_wf g → (∀ q, q ∈ qs → q ∈ g_qubits g) →
  matmul (Identity qs) g = Ok g ∧
  matmul g (Identity (g_qubits g)) = Ok g.
Proof using Cring.
  intros [Hnd Hlen] Hsub. split.
  - apply (matmul_Identity Cring); [done|]. by eexists.
  - rewrite matmul_covered by done. cbn [Identity operator g_qubits].
    rewrite positions_self by done.
    rewrite (tensormul_eye_r (length (g_qubits g))) by done. by destruct g.
Qed.

(** X6.  Composition is associative: for gates [a], [b], [c] with the qubits
    of [a] among those of [b] and those of [b] among those of [c],
    [(a @ b) @ c] and [a @ (b @ c)] are the same gate. *)
Theorem matmul_assoc (a b c : QuantumGate C) :
  gate_wf b → gate_wf c →
  (∀ q, q ∈ g_qubits a → q ∈ g_qubits b) →
  (∀ q, q ∈ g_qubits b → q ∈ g_qubits c) →
  (ab ← matmul a b; matmul ab c) = (bc ← matmul b c; matmul a bc).
Proof using Cring.
  intros [Hndb Hlenb] [Hndc Hlenc] Hab Hbc.
  rewrite (matmul_covered a b), (matmul_covered b c) by done.
  cbn [mbind Result_bind].
  rewrite !matmul_covered by (cbn [g_qubits]; auto).
  cbn [operator g_qubits]. f_equal. f_equal.
  pose proof (tensormul_assoc Cring (operator a) (operator b) (operator c)
                (g_qubits c ++ g_qubits c) (g_qubits b) (g_qubits a)) as Hassoc.
  rewrite !positions_app_l in Hassoc by auto.
  apply Hassoc; try done.
  - intros q Hq. apply elem_of_app. left. auto.
  - rewrite length_app, Hlenc. f_equal. lia.
Qed.

End ComposeLaws.

Lemma matmul_Identity_unit_witness :
  gate_wf (CNOT 0 1) ∧
  matmul (Identity [1]) (CNOT 0 1) = Ok (CNOT 0 1) ∧
  matmul (CNOT 0 1) (Identity [0; 1]) = Ok (CNOT 0 1).
Proof.
  assert (Hwf : gate_wf (CNOT 0 1)).
  { split; [apply (bool_decide_unpack _); exact I|reflexivity]. }
  split; [exact Hwf|].
  apply (matmul_Identity_unit (entries := Z_entries) InitialRing.Zth (CNOT 0 1) [1] Hwf).
  intros q Hq. apply list_elem_of_singleton in Hq as ->.
  apply (bool_decide_unpack _). exact I.
Defined.

Lemma matmul_assoc_witness :
  gate_wf (CNOT 0 1) ∧
  (ab ← matmul (shear_upper 1) (Pauli_X 1); matmul ab (CNOT 0 1))
  = (bc ← matmul (Pauli_X 1) (CNOT 0 1); matmul (shear_upper 1) bc).
Proof.
  assert (Hwfc : gate_wf (CNOT 0 1)).
  { split; [apply (bool_decide_unpack _); exact I|reflexivity]. }
  assert (Hwfb : gate_wf (Pauli_X 1)).
  { split; [apply (bool_decide_unpack _); exact I|reflexivity]. }
  split; [exact Hwfc|].
  apply (matmul_assoc (entries := Z_entries) InitialRing.Zth
           (shear_upper 1) (Pauli_X 1) (CNOT 0 1) Hwfb Hwfc).
  - intros q Hq. exact Hq.
  - intros q Hq. apply list_elem_of_singleton in Hq as ->.
    apply (bool_decide_unpack _). exact I.
Defined.

(** ** When [permute] succeeds, and how permutations compose *)

Section PermuteLaws.
Context {C : Type} {entries : Entries C}.

Lemma permute_Ok_rearrangement (g : QuantumGate C) (qs : Qubits) (g' : QuantumGate C) :
  NoDup (g_qubits g) → permute g qs = Ok g' → qs ≡ₚ g_qubits g.
Proof.
  intros Hnd. unfold permute.
  destruct (decide (g_qubits g = qs)) as [->|Hne]; [done|].
  destruct (mapM (index (g_qubits g)) qs) as [perm|e] eqn:Hm;
    cbn [mbind Result_bind]; [|discriminate].
  destruct (decide (length (operator g) = 2 ^ (2 * length (g_qubits g))));
    [|discriminate].
  unfold np_transpose.
  destruct (decide (pperm (length (g_qubits g)) perm ≡ₚ seq 0 (2 * length (g_qubits g))))
    as [Hp|]; cbn [mbind Result_bind]; [|discriminate].
  intros _.
  assert (Hmem : ∀ y, y ∈ qs → y ∈ g_qubits g).
  { intros y Hy. apply mapM_Ok_Forall2 in Hm.
    apply list_elem_of_lookup in Hy as [i Hi].
    destruct (Forall2_lookup_l _ _ _ _ _ Hm Hi) as (k & _ & Hk).
    unfold index in Hk. destruct (find_index (g_qubits g) y) as [j|] eqn:Hj;
      [|discriminate].
    apply find_index_Some in Hj. by eapply list_elem_of_lookup_2. }
  rewrite mapM_index in Hm by done. injection Hm as <-.
  assert (Hlen : length qs = length (g_qubits g)).
  { apply Permutation_length in Hp.
    rewrite length_pperm, length_positions, length_seq in Hp. lia. }
  assert (Hndq : NoDup qs).
  { apply Permutation_seq_NoDup in Hp. rewrite pperm_app in Hp.
    apply NoDup_app in Hp as [Hp _]. unfold positions in Hp.
    by apply (NoDup_fmap_1 (position (g_qubits g))). }
  apply submseteq_length_Permutation; [|lia]. by apply NoDup_submseteq.
Qed.

Lemma permute_Raise_ValueError (g : QuantumGate C) (qs : Qubits) (e : Exception) :
  permute g qs = Raise e → ∃ msg, e = ValueError msg.
Proof.
  unfold permute. destruct (decide (g_qubits g = qs)); [discriminate|].
  destruct (mapM (index (g_qubits g)) qs) as [perm|e'] eqn:Hm;
    cbn [mbind Result_bind].
  - destruct (decide (length (operator g) = 2 ^ (2 * length (g_qubits g))));
      [|intros [= <-]; eauto].
    unfold np_transpose. destruct (decide (_ ≡ₚ _)); cbn [mbind Result_bind];
      [discriminate|].
    intros [= <-]. eauto.
  - apply mapM_index_error in Hm as ->. intros [= <-]. eauto.
Qed.

(** X7.  [permute] of a well-formed gate succeeds exactly when the new order
    is a rearrangement of the gate's qubits (a qubit the gate lacks, a qubit
    left out or one named twice make it fail), and it fails with
    [ValueError] only. *)
Theorem permute_succeeds_iff_rearrangement (g : QuantumGate C) (qs : Qubits) :
  gate_wf g →
  (is_ok (permute g qs) = true ↔ qs ≡ₚ g_qubits g) ∧
  (∀ e, permute g qs = Raise e → ∃ msg, e = ValueError msg).
Proof.
  intros Hwf. split; [split|].
  - destruct (permute g qs) as [g'|e] eqn:Hp; [|discriminate].
    intros _. eapply permute_Ok_rearrangement; [apply Hwf|done].
  - intros Hp. destruct (permute_round_trip g qs Hwf Hp) as (g' & -> & _). done.
  - apply permute_Raise_ValueError.
Qed.

Lemma take_drop_length (N : nat) (x : list bool) :
  length x = 2 * N → length (take N x) = N ∧ length (drop N x) = N.
Proof. intros Hx. rewrite length_take, length_drop. lia. Qed.

(** The operator permuted to [qs1] and from there to [qs2] is the operator
    permuted to [qs2]. *)
Lemma permuted_operator_compose (g : QuantumGate C) (qs1 qs2 : Qubits) :
  qs1 ≡ₚ g_qubits g → qs2 ≡ₚ g_qubits g →
  permuted_operator (Unitary (permuted_operator g qs1) qs1) qs2
  = permuted_operator g qs2.
Proof.
  intros Hp1 Hp2. unfold permuted_operator at 1 3. cbn [operator g_qubits].
  set (N := length (g_qubits g)).
  assert (HN1 : length qs1 = N) by (by rewrite Hp1).
  assert (HN2 : length qs2 = N) by (by rewrite Hp2).
  rewrite HN1. apply tabulate_ext. intros k Hk.
  set (x := unravel (2 * N) k).
  destruct (take_drop_length N x (length_unravel _ _)) as [Hr Hc].
  rewrite <- (take_drop N x).
  set (r := take N x) in *. set (c := drop N x) in *.
  assert (Hb21 : Forall (fun a => a < N) (positions qs2 qs1)).
  { rewrite <- HN2. apply positions_bounded. intros y Hy. by rewrite Hp2, <- Hp1. }
  assert (Hb1g : Forall (fun a => a < N) (positions qs1 (g_qubits g))).
  { rewrite <- HN1. apply positions_bounded. intros y Hy. by rewrite Hp1. }
  assert (Hb2g : Forall (fun a => a < N) (positions qs2 (g_qubits g))).
  { rewrite <- HN2. apply positions_bounded. intros y Hy. by rewrite Hp2. }
  rewrite !(gather_pperm N _ r c) by done.
  rewrite permuted_operator_at
    by (rewrite length_app, !length_gather, !length_positions; fold N; lia).
  fold N.
  rewrite (gather_pperm N)
    by (rewrite ?length_gather, ?length_positions; done).
  rewrite !(gather_positions_compose qs2 qs1 (g_qubits g))
    by (intros y Hy; by rewrite Hp1).
  done.
Qed.

(** X8.  Permutations compose: permuting a well-formed gate to one order and
    then to another is permuting it to the second order at once. *)
Theorem permute_permute (g : QuantumGate C) (qs1 qs2 : Qubits) :
  gate_wf g → qs1 ≡ₚ g_qubits g → qs2 ≡ₚ g_qubits g →
  (g1 ← permute g qs1; permute g1 qs2) = permute g qs2.
Proof.
  intros Hwf Hp1 Hp2.
  destruct (decide (g_qubits g = qs1)) as [Heq1|Hne1].
  { assert (permute g qs1 = Ok g) as ->
      by (unfold permute; by rewrite decide_True).
    done. }
  rewrite (permute_rearranged g qs1) by done. cbn [mbind Result_bind].
  set (g1 := Unitary (permuted_operator g qs1) qs1).
  assert (Hwf1 : gate_wf g1).
  { destruct Hwf as [Hnd Hlen]. split; cbn [g1 g_qubits operator]; [by rewrite Hp1|].
    unfold permuted_operator. rewrite length_tabulate. by rewrite Hp1. }
  destruct (decide (qs1 = qs2)) as [<-|Hne12].
  { assert (permute g1 qs1 = Ok g1) as ->
      by (unfold permute; cbn [g1 g_qubits]; by rewrite decide_True).
    by rewrite (permute_rearranged g qs1). }
  destruct (decide (g_qubits g = qs2)) as [<-|Hne2].
  { destruct (permute_round_trip g qs1 Hwf Hp1) as (g' & Hfwd & _ & _ & _ & Hbwd).
    rewrite (permute_rearranged g qs1) in Hfwd by done. injection Hfwd as <-.
    fold g1 in Hbwd. rewrite Hbwd. unfold permute. by rewrite decide_True. }
  rewrite (permute_rearranged g1 qs2), (permute_rearranged g qs2); try done.
  - unfold g1. by rewrite permuted_operator_compose.
  - cbn [g1 g_qubits]. by rewrite Hp2, Hp1.
Qed.

End PermuteLaws.

Definition Toffoli_like : QuantumGate Z :=
  Unitary (tabulate 64 (fun k => if decide (k = 6 * 8 + 7 ∨ k = 7 * 8 + 6 ∨
                                            (k / 8 = k mod 8 ∧ k / 8 < 6))
                                 then 1%Z else 0%Z)) [0; 1; 2].

Lemma permute_succeeds_iff_rearrangement_witness :
  gate_wf (CNOT 0 1) ∧
  is_ok (permute (CNOT 0 1) [1; 0]) = true ∧
  is_ok (permute (CNOT 0 1) [0; 2]) = false ∧
  is_ok (permute (CNOT 0 1) [0]) = false ∧
  is_ok (permute (CNOT 0 1) [0; 1; 1]) = false.
Proof.
  assert (Hwf : gate_wf (CNOT 0 1)).
  { split; [apply (bool_decide_unpack _); exact I|reflexivity]. }
  split; [exact Hwf|]. split.
  - apply (proj1 (permute_succeeds_iff_rearrangement (CNOT 0 1) [1; 0] Hwf)).
    apply perm_swap.
  - split_and!; vm_compute; reflexivity.
Defined.

Lemma permute_permute_witness :
  gate_wf Toffoli_like ∧
  (g1 ← permute Toffoli_like [2; 0; 1]; permute g1 [1; 0; 2])
  = permute Toffoli_like [1; 0; 2].
Proof.
  assert (Hwf : gate_wf Toffoli_like).
  { split; [apply (bool_decide_unpack _); exact I|reflexivity]. }
  split; [exact Hwf|].
  apply (permute_permute Toffoli_like [2; 0; 1] [1; 0; 2] Hwf).
  - apply (bool_decide_unpack _). exact I.
  - apply (bool_decide_unpack _). exact I.
Defined.

(** ** Running composites: leaves, densities and adjoints *)

Section RunLaws.
Context {C : Type} {entries : Entries C}.

(** The operations that are not composites, in the order a run meets
    them. *)
Fixpoint leaves (op : QuantumOperation C) : list (QuantumOperation C) :=
  match op with
  | OpComposite elements _ _ => flat_map leaves elements
  | _ => [op]
  end.

(** A loop that has raised keeps its exception to the end. *)
Lemma fold_bind_Raise {S T : Type} (step : T → S → Result S) (xs : list T)
    (e : Exception) :
  fold_left (fun (acc : Result S) x => k ← acc; step x k) xs (Raise e) = Raise e.
Proof. induction xs as [|x xs IH]; simpl; [reflexivity|exact IH]. Qed.

(** A loop over the children, each of which loops over its own part, is one
    loop over all the parts. *)
Lemma fold_bind_flat_map {S T : Type} (step : T → S → Result S) (parts : T → list T)
    (xs : list T) (acc : Result S) :
  fold_left (fun (acc : Result S) x =>
               k ← acc; fold_left (fun (acc : Result S) y => k ← acc; step y k)
                                  (parts x) (Ok k))
            xs acc
  = fold_left (fun (acc : Result S) y => k ← acc; step y k) (flat_map parts xs) acc.
Proof.
  revert acc. induction xs as [|x xs IH]; intros acc; simpl; [reflexivity|].
  rewrite fold_left_app, IH. f_equal.
  destruct acc as [k|e]; simpl; [reflexivity|]. by rewrite fold_bind_Raise.
Qed.

Lemma fold_bind_ext {S T : Type} (f g : T → S → Result S) (xs : list T)
    (acc : Result S) :
  Forall (fun x => ∀ k, f x k = g x k) xs →
  fold_left (fun (acc : Result S) x => k ← acc; f x k) xs acc
  = fold_left (fun (acc : Result S) x => k ← acc; g x k) xs acc.
Proof.
  intros Hall. revert acc. induction Hall as [|x xs Hx _ IH]; intros acc; simpl;
    [reflexivity|].
  rewrite IH. f_equal. destruct acc as [k|e]; simpl; [apply Hx|reflexivity].
Qed.

Lemma run_ket_leaves (op : QuantumOperation C) (ket : Ket C) :
  run_ket op ket
  = fold_left (fun (acc : Result (Ket C)) leaf => k ← acc; run_ket leaf k)
              (leaves op) (Ok ket).
Proof.
  revert ket.
  induction op as [g|elements qs ads IH|qs ads] using QuantumOperation_nested_ind;
    intros ket; [reflexivity| |reflexivity].
  cbn [run_ket leaves]. rewrite <- fold_bind_flat_map.
  by apply fold_bind_ext.
Qed.

(** X9.  A run on a pure state is the run of the leaves one after the other:
    how the operations are grouped into composites, and what closure each
    composite declares, plays no part in it. *)
Theorem run_ket_ignores_grouping (op : QuantumOperation C) (ket : Ket C) :
  run_ket op ket
  = fold_left (fun (acc : Result (Ket C)) leaf => k ← acc; run_ket leaf k)
              (leaves op) (Ok ket) ∧
  (∀ op', leaves op' = leaves op → run_ket op' ket = run_ket op ket) ∧
  (∀ before inner after qs ads qs' ads',
     op = OpComposite (before ++ [OpComposite inner qs' ads'] ++ after) qs ads →
     run_ket op ket = run_ket (OpComposite (before ++ inner ++ after) qs ads) ket).
Proof.
  split_and!.
  - apply run_ket_leaves.
  - intros op' Heq. by rewrite (run_ket_leaves op'), (run_ket_leaves op), Heq.
  - intros before inner after qs ads qs' ads' ->.
    rewrite (run_ket_leaves (OpComposite (before ++ _ ++ after) qs ads)).
    rewrite (run_ket_leaves (OpComposite (before ++ inner ++ after) qs ads)).
    cbn [leaves]. rewrite !flat_map_app. cbn [flat_map leaves]. by rewrite app_nil_r.
Qed.

(** X10.  [_run_density] is overridden by the composite alone: a run on a
    mixed state returns the state as it was given when the operation has no
    leaf at all, and raises [NotImplementedError] as soon as it has one.  It
    never returns another state. *)
Theorem run_density_never_evolves (op : QuantumOperation C) (rho : Density C) :
  run_density op rho
  = match leaves op with
    | [] => Ok rho
    | _ :: _ => Raise NotImplementedError
    end.
Proof.
  assert (Hleaf : ∀ op rho,
            run_density op rho
            = fold_left (fun (acc : Result (Density C)) leaf => r ← acc; run_density leaf r)
                        (leaves op) (Ok rho)).
  { clear. intros op.
    induction op as [g|elements qs ads IH|qs ads] using QuantumOperation_nested_ind;
      intros rho; [reflexivity| |reflexivity].
    cbn [run_density leaves]. rewrite <- fold_bind_flat_map.
    by apply fold_bind_ext. }
  rewrite Hleaf.
  assert (Hnc : Forall (fun leaf => ∀ r, run_density leaf r = Raise NotImplementedError)
                       (leaves op)).
  { clear. induction op as [g|elements qs ads IH|qs ads]
      using QuantumOperation_nested_ind; cbn [leaves].
    - by constructor.
    - induction IH as [|e es He _ IHes]; simpl; [constructor|].
      by apply Forall_app.
    - by constructor. }
  destruct (leaves op) as [|leaf rest]; [reflexivity|].
  apply Forall_cons in Hnc as [Hl _]. cbn [fold_left mbind Result_bind].
  rewrite Hl. apply fold_bind_Raise.
Qed.

(** A run keeps a state with one amplitude for each basis state such. *)
Lemma run_ket_full (op : QuantumOperation C) (ket ket' : Ket C) :
  run_ket op ket = Ok ket' →
  length (vector ket) = 2 ^ length (k_qubits ket) →
  length (vector ket') = 2 ^ length (k_qubits ket').
Proof.
  revert ket ket'.
  induction op as [g|elements qs ads IH|qs ads] using QuantumOperation_nested_ind;
    intros ket ket'.
  - cbn [run_ket]. unfold gate_run_ket.
    destruct (mapM _ _) as [idx|e]; simpl; [|discriminate].
    intros [= <-] Hlen. cbn [k_qubits vector].
    rewrite (length_tensormul _ _ _ (length (k_qubits ket))); done.
  - cbn [run_ket]. intros Hfold.
    apply (fold_run_keeps
             (fun a b => length (vector a) = 2 ^ length (k_qubits a) →
                         length (vector b) = 2 ^ length (k_qubits b))
             run_ket elements); try done.
    intros a b c Hab Hbc Ha. auto.
  - discriminate.
Qed.

Section AdjointRuns.
Variable gate_H : QuantumGate C → QuantumGate C.

(** What a gate's own [H] is expected to do to states: it keeps the qubits
    and undoes the gate. *)
Definition undoes_gate (g : QuantumGate C) : Prop :=
  g_qubits (gate_H g) = g_qubits g ∧
  ∀ ket ket', length (vector ket) = 2 ^ length (k_qubits ket) →
              gate_run_ket g ket = Ok ket' → gate_run_ket (gate_H g) ket' = Ok ket.

Lemma H_undoes (op : QuantumOperation C) :
  closed op = true → all_gates undoes_gate op →
  ∃ h, H gate_H op = Ok h ∧ qubits h = qubits op ∧ addrs h = addrs op ∧
       ∀ ket ket', length (vector ket) = 2 ^ length (k_qubits ket) →
                   run_ket op ket = Ok ket' → run_ket h ket' = Ok ket.
Proof.
  induction op as [g|elements qs ads IH|qs ads] using QuantumOperation_nested_ind;
    intros Hclosed Hgates.
  - destruct Hgates as [Hq Hinv]. exists (OpGate (gate_H g)). simpl. done.
  - apply closed_composite in Hclosed as (Hcq & Hca & Hcl).
    apply all_gates_Forall in Hgates.
    assert (Hhs : ∃ hs, Forall2 (fun e h =>
              H gate_H e = Ok h ∧ qubits h = qubits e ∧ addrs h = addrs e ∧
              ∀ ket ket', length (vector ket) = 2 ^ length (k_qubits ket) →
                          run_ket e ket = Ok ket' → run_ket h ket' = Ok ket)
              elements hs).
    { clear Hcq Hca. induction elements as [|e es IHes].
      - exists []. constructor.
      - apply Forall_cons in IH as [IHe IH]. apply Forall_cons in Hcl as [Hce Hcl].
        apply Forall_cons in Hgates as [Hge Hgates].
        destruct (IHe Hce Hge) as (h & Hh). destruct (IHes IH Hcl Hgates) as (hs & Hhs).
        exists (h :: hs). by constructor. }
    destruct Hhs as (hs & Hhs).
    assert (Hfwd : mapM (H gate_H) (reverse elements) = Ok (reverse hs)).
    { apply mapM_Ok_Forall2, Forall2_reverse.
      eapply Forall2_impl; [exact Hhs|]. by intros e h (?&_). }
    exists (OpComposite (reverse hs) qs ads). split_and!; try reflexivity.
    + rewrite H_composite, Hfwd. simpl. apply init_explicit_covers.
      * apply (covers_Forall2 qubits qs (reverse elements)).
        -- apply Forall2_reverse. eapply Forall2_impl; [exact Hhs|]. by intros e h (_&?&_).
        -- intros x e He. apply Hcq. by apply elem_of_reverse.
      * apply (covers_Forall2 addrs ads (reverse elements)).
        -- apply Forall2_reverse. eapply Forall2_impl; [exact Hhs|]. by intros e h (_&_&?&_).
        -- intros x e He. apply Hca. by apply elem_of_reverse.
    + cbn [run_ket]. clear -Hhs.
      induction Hhs as [|e h es hs' (_ & _ & _ & Hundo) _ IHes]; intros ket ket' Hfull.
      * simpl. by intros [= <-].
      * cbn [fold_left mbind Result_bind].
        destruct (run_ket e ket) as [mid|err] eqn:Hmid;
          [|rewrite fold_bind_Raise; discriminate].
        intros Hrest. rewrite reverse_cons, fold_left_app.
        rewrite (IHes mid ket') by (try done; by eapply run_ket_full).
        cbn [fold_left mbind Result_bind]. by apply Hundo.
  - destruct Hgates.
Qed.

(** X11.  The adjoint of an operation undoes its run: when each gate's own
    [H] undoes the gate, running a closed operation and then its adjoint,
    which conjugates the children last to first, gives the state back. *)
Theorem H_undoes_run (op : QuantumOperation C) (ket ket' : Ket C) :
  closed op = true → all_gates undoes_gate op →
  length (vector ket) = 2 ^ length (k_qubits ket) →
  run_ket op ket = Ok ket' →
  ∃ h, H gate_H op = Ok h ∧ run_ket h ket' = Ok ket.
Proof.
  intros Hclosed Hgates Hfull Hrun.
  destruct (H_undoes op Hclosed Hgates) as (h & Hh & _ & _ & Hundo).
  exists h. split; [exact Hh|]. by apply Hundo.
Qed.

End AdjointRuns.

End RunLaws.

Section InverseGates.
Context {C : Type} {entries : Entries C}.
Hypothesis Cring : ring_theory c0 c1 cadd cmul csub copp (@eq C).

(** A gate whose [H] composes with it to the identity is undone by it. *)
Lemma inverse_gate_undoes (gate_H : QuantumGate C → QuantumGate C) (g : QuantumGate C) :
  gate_wf g → g_qubits (gate_H g) = g_qubits g →
  matmul (gate_H g) g = Ok (Identity (g_qubits g)) →
  undoes_gate gate_H g.
Proof using Cring.
  intros Hwf Hq Hinv. split; [exact Hq|]. intros ket ket' Hfull Hrun.
  assert (Hsub : ∀ q, q ∈ g_qubits g → q ∈ k_qubits ket).
  { destruct (decide (Forall (fun q => q ∈ k_qubits ket) (g_qubits g))) as [Hsub|Hnot];
      rewrite Forall_forall in *; [exact Hsub|].
    unfold gate_run_ket in Hrun. rewrite mapM_index_raise in Hrun by done.
    discriminate. }
  pose proof (matmul_run_ket Cring (gate_H g) g ket) as Hcomp.
  rewrite Hinv, Hrun in Hcomp. cbn [mbind Result_bind] in Hcomp.
  rewrite <- Hcomp; [|by rewrite Hq|done|done|done].
  by apply (Identity_run_ket Cring).
Qed.

End InverseGates.

Lemma H_undoes_run_witness :
  let op := OpComposite [OpGate (Pauli_X 0); OpGate (CNOT 0 1)] [0; 1] [] in
  let ket' := mkKet [0; 0; 0; 0; 0; 0; 1; 0]%Z [0; 1; 2] ∅ in
  run_ket op (zero_ket [0; 1; 2]) = Ok ket' ∧
  ∃ h, H real_adjoint op = Ok h ∧ run_ket h ket' = Ok (zero_ket [0; 1; 2]).
Proof.
  intros op ket'.
  assert (Hrun : run_ket op (zero_ket [0; 1; 2]) = Ok ket') by (vm_compute; reflexivity).
  split; [exact Hrun|].
  apply (H_undoes_run real_adjoint op (zero_ket [0; 1; 2]) ket').
  - reflexivity.
  - change (undoes_gate real_adjoint (Pauli_X 0) ∧
            undoes_gate real_adjoint (CNOT 0 1) ∧ True).
    split; [|split; [|exact I]];
      apply (inverse_gate_undoes (entries := Z_entries) InitialRing.Zth);
      try (vm_compute; reflexivity);
      (split; [apply (bool_decide_unpack _); exact I|reflexivity]).
  - reflexivity.
  - exact Hrun.
Defined.

(** ** Relabelling: [on] and [relabel] *)

Section Relabel.
Context {C : Type} {entries : Entries C}.

(** A Python dictionary between labels: the items in the order in which
    their keys were first inserted, no key twice. *)
Definition Dict : Type := list (nat * nat).

(** [d[key] = value]: a key already present keeps its place. *)
Fixpoint dict_set (d : Dict) (key value : nat) : Dict :=
  match d with
  | [] => [(key, value)]
  | (k, v) :: rest =>
      if decide (k = key) then (k, value) :: rest
      else (k, v) :: dict_set rest key value
  end.

(** [d[key]]: [KeyError] for an absent key. *)
Fixpoint dict_get (d : Dict) (key : nat) : Result nat :=
  match d with
  | [] => Raise (KeyError key)
  | (k, v) :: rest => if decide (k = key) then Ok v else dict_get rest key
  end.

Definition dict_keys (d : Dict) : list nat := d.*1.

(** [tuple(d.values())] *)
Definition dict_values (d : Dict) : list nat := d.*2.

(** [dict(zip(keys, values))]: [zip] stops at the end of the shorter
    sequence, and a key that comes again takes the later value. *)
Definition dict_zip (keys values : list nat) : Dict :=
  fold_left (fun d item => dict_set d item.1 item.2) (zip keys values) [].

(** [QuantumGate.relabel]: a copy of the gate over the qubits the map gives;
    the address map is not looked at. *)
Definition gate_relabel (self : QuantumGate C) (qubit_map : Dict)
    : Result (QuantumGate C) :=
  qs ← mapM (dict_get qubit_map) (g_qubits self);
  Ok (Unitary (operator self) qs).

(** [relabel] is abstract: every other concrete operation supplies its
    own. *)
Variable other_relabel :
  Qubits → Addrs → Dict → option Dict → Result (QuantumOperation C).

(** [relabel (qubit_map, addr_map)], the qubit map being a dictionary as the
    signature of the abstract method has it.  For a composite:
    [elements = [elem.relabel(qubit_map, addr_map) for elem in self]], then
    the constructor with [tuple(qubit_map.values())] for qubits and, for
    addrs, [tuple(addr_map.values())] or [self.addrs] without a map. *)
Fixpoint relabel (op : QuantumOperation C) (qubit_map : Dict) (addr_map : option Dict)
    : Result (QuantumOperation C) :=
  match op with
  | OpGate g => OpGate <$> gate_relabel g qubit_map
  | OpComposite elements qs ads =>
      els ← fold_left (fun (acc : Result (list (QuantumOperation C))) elem =>
                         done ← acc; r ← relabel elem qubit_map addr_map;
                         Ok (done ++ [r]))
                      elements (Ok []);
      QuantumComposite_init els (Some (dict_values qubit_map))
        (Some (match addr_map with
               | Some m => dict_values m
               | None => ads
               end))
  | OpOther qs ads => other_relabel qs ads qubit_map addr_map
  end.

(** [QuantumOperation.on] *)
Definition on (op : QuantumOperation C) (qs : Qubits) : Result (QuantumOperation C) :=
  if decide (length qs ≠ qubit_nb op) then Raise (ValueError "Wrong number of qubits")
  else relabel op (dict_zip (qubits op) qs) None.

(** *** Dictionaries *)

Lemma dict_set_fresh (d : Dict) (k v : nat) :
  k ∉ dict_keys d → dict_set d k v = d ++ [(k, v)].
Proof.
  induction d as [|[k' v'] d IH]; simpl; [done|].
  intros [Hne Hk]%not_elem_of_cons.
  rewrite decide_False by done. by rewrite IH.
Qed.

Lemma dict_fold_fresh (items d : Dict) :
  NoDup (dict_keys (d ++ items)) →
  fold_left (fun d item => dict_set d item.1 item.2) items d = d ++ items.
Proof.
  revert d. induction items as [|[k v] items IH]; intros d Hnd; simpl.
  - by rewrite app_nil_r.
  - rewrite dict_set_fresh.
    + rewrite IH; rewrite <- app_assoc; done.
    + unfold dict_keys in Hnd. rewrite fmap_app in Hnd.
      apply NoDup_app in Hnd as (_ & Hdis & _). intros Hk.
      apply (Hdis k Hk). simpl. left.
Qed.

Lemma dict_zip_NoDup (keys values : list nat) :
  NoDup keys → length values = length keys →
  dict_zip keys values = zip keys values ∧
  dict_keys (dict_zip keys values) = keys ∧
  dict_values (dict_zip keys values) = values.
Proof.
  intros Hnd Hlen. unfold dict_zip.
  assert (Hk : (zip keys values).*1 = keys) by (apply fst_zip; lia).
  assert (Hv : (zip keys values).*2 = values) by (apply snd_zip; lia).
  rewrite dict_fold_fresh by (unfold dict_keys; simpl; by rewrite Hk).
  done.
Qed.

Lemma dict_keys_set (d : Dict) (k v q : nat) :
  q ∈ dict_keys (dict_set d k v) ↔ q ∈ dict_keys d ∨ q = k.
Proof.
  unfold dict_keys. induction d as [|[k' v'] d IH]; simpl.
  - rewrite list_elem_of_singleton. split; [by right|]. intros [[]%elem_of_nil|]; done.
  - destruct (decide (k' = k)) as [->|Hne]; simpl.
    + rewrite !elem_of_cons. tauto.
    + rewrite !elem_of_cons, IH. tauto.
Qed.

Lemma dict_keys_zip (keys values : list nat) (q : nat) :
  length keys ≤ length values → q ∈ keys → q ∈ dict_keys (dict_zip keys values).
Proof.
  intros Hlen Hq. unfold dict_zip.
  assert (Hin : q ∈ (zip keys values).*1) by (by rewrite fst_zip).
  assert (Hgen : ∀ items d,
            q ∈ dict_keys d ∨ q ∈ items.*1 →
            q ∈ dict_keys (fold_left (fun d item => dict_set d item.1 item.2) items d)).
  { clear. induction items as [|[k v] items IH]; intros d; simpl.
    - intros [?|[]%elem_of_nil]. done.
    - intros Hq. apply IH. rewrite dict_keys_set, elem_of_cons in *. tauto. }
  apply Hgen. by right.
Qed.

Lemma dict_values_zip (keys values : list nat) (v : nat) :
  v ∈ dict_values (dict_zip keys values) → v ∈ values.
Proof.
  unfold dict_zip.
  assert (Hsub : ∀ item, item ∈ zip keys values → item.2 ∈ values).
  { intros [k w] Hitem. by apply elem_of_zip_r in Hitem. }
  revert Hsub. generalize (zip keys values). intros items Hsub.
  assert (Hgen : ∀ d, (∀ w, w ∈ dict_values d → w ∈ values) →
            ∀ w, w ∈ dict_values (fold_left (fun d item => dict_set d item.1 item.2)
                                            items d) → w ∈ values).
  { induction items as [|[k w] items IH]; intros d Hd; simpl; [exact Hd|].
    apply IH.
    - intros item Hitem. apply Hsub. by right.
    - assert (Hkw : w ∈ values) by (apply (Hsub (k, w)); left).
      clear -Hd Hkw. unfold dict_values in *.
      induction d as [|[k' v'] d IHd]; simpl.
      + intros x ->%list_elem_of_singleton. done.
      + destruct (decide (k' = k)) as [->|Hne]; simpl; intros x Hx;
          apply elem_of_cons in Hx as [->|Hx]; try done.
        * apply Hd. simpl. by right.
        * apply Hd. simpl. left.
        * apply IHd; [|done]. intros y Hy. apply Hd. simpl. by right. }
  apply Hgen. by intros w []%elem_of_nil.
Qed.

Lemma dict_get_Ok (d : Dict) (k : nat) :
  k ∈ dict_keys d → ∃ v, dict_get d k = Ok v ∧ v ∈ dict_values d.
Proof.
  unfold dict_keys, dict_values. induction d as [|[k' v'] d IH]; simpl.
  - by intros []%elem_of_nil.
  - intros Hk. destruct (decide (k' = k)) as [->|Hne].
    + exists v'. split; [done|left].
    + apply elem_of_cons in Hk as [->|Hk]; [done|].
      destruct (IH Hk) as (v & Hv & Hin). exists v. split; [done|by right].
Qed.

Lemma dict_get_Raise (d : Dict) (k : nat) :
  k ∉ dict_keys d → dict_get d k = Raise (KeyError k).
Proof.
  unfold dict_keys. induction d as [|[k' v'] d IH]; simpl; [done|].
  intros [Hne Hk]%not_elem_of_cons. rewrite decide_False by done. by apply IH.
Qed.

(** The value a dictionary holds for a key, for the keys it has. *)
Definition dict_at (d : Dict) (key : nat) : nat :=
  match dict_get d key with
  | Ok v => v
  | Raise _ => key
  end.

Lemma mapM_dict_get (d : Dict) (keys : list nat) :
  (∀ k, k ∈ keys → k ∈ dict_keys d) →
  mapM (dict_get d) keys = Ok (map (dict_at d) keys).
Proof.
  induction keys as [|k keys IH]; intros Hall; simpl; [done|].
  destruct (dict_get_Ok d k) as (v & Hv & _); [apply Hall; left|].
  unfold dict_at at 1. rewrite Hv. simpl.
  rewrite IH by (intros k' Hk'; apply Hall; by right). done.
Qed.

Lemma map_dict_at_zip (keys values : list nat) :
  NoDup keys → length values = length keys →
  map (dict_at (zip keys values)) keys = values.
Proof.
  intros Hnd. revert values.
  induction Hnd as [|k keys Hk Hnd IH]; intros [|v values] Hlen; try done.
  simpl in *. unfold dict_at at 1. simpl. rewrite decide_True by done. f_equal.
  rewrite <- (IH values) at 2 by lia.
  apply map_ext_in. intros k' Hk'%list_elem_of_In.
  unfold dict_at. simpl. rewrite decide_False; [done|]. by intros ->.
Qed.

(** *** Gates *)

(** X12.  [on] of a gate raises [ValueError] for a wrong number of qubits and
    nothing else: given as many labels as the gate has qubits it returns the
    gate with its operator untouched, over the given labels when the gate has
    no qubit twice.  The labels are not checked: the new gate is well formed
    exactly when no label is given twice. *)
Theorem gate_on_relabels (g : QuantumGate C) (qs : Qubits) :
  (length qs ≠ length (g_qubits g) →
     on (OpGate g) qs = Raise (ValueError "Wrong number of qubits")) ∧
  (length qs = length (g_qubits g) →
     ∃ qs', on (OpGate g) qs = Ok (OpGate (Unitary (operator g) qs')) ∧
            length qs' = length qs ∧ (∀ q, q ∈ qs' → q ∈ qs) ∧
            (NoDup (g_qubits g) → qs' = qs) ∧
            (gate_wf g → (gate_wf (Unitary (operator g) qs') ↔ NoDup qs))).
Proof.
  unfold on, qubit_nb. cbn [qubits]. split.
  - intros Hne. by rewrite decide_True.
  - intros Hlen. rewrite decide_False by (intros Hne; by apply Hne).
    cbn [relabel]. unfold gate_relabel.
    set (m := dict_zip (g_qubits g) qs).
    rewrite mapM_dict_get by (intros k Hk; apply dict_keys_zip; [lia|done]).
    exists (map (dict_at m) (g_qubits g)). split; [done|].
    assert (Hsame : NoDup (g_qubits g) → map (dict_at m) (g_qubits g) = qs).
    { intros Hnd. unfold m.
      rewrite (proj1 (dict_zip_NoDup _ _ Hnd Hlen)). by apply map_dict_at_zip. }
    split_and!.
    + rewrite length_map. lia.
    + intros q (k & <- & Hk)%list_elem_of_In%in_map_iff.
      apply list_elem_of_In in Hk.
      destruct (dict_get_Ok m k) as (v & Hv & Hin);
        [apply dict_keys_zip; [lia|done]|].
      unfold dict_at. rewrite Hv. by apply dict_values_zip in Hin.
    + exact Hsame.
    + intros [Hnd Hop]. rewrite (Hsame Hnd). unfold gate_wf. cbn [g_qubits operator].
      rewrite Hlen. tauto.
Qed.

(** *** Composites *)

Lemma fold_collect_mapM {T U : Type} (f : T → Result U) (xs : list T) (acc : list U) :
  fold_left (fun (acc : Result (list U)) x => done ← acc; r ← f x; Ok (done ++ [r]))
            xs (Ok acc)
  = (ys ← mapM f xs; Ok (acc ++ ys)).
Proof.
  revert acc. induction xs as [|x xs IH]; intros acc; simpl.
  - by rewrite app_nil_r.
  - destruct (f x) as [y|e]; simpl.
    + rewrite IH. destruct (mapM f xs) as [ys|e]; simpl; [|done].
      by rewrite <- app_assoc.
    + clear. induction xs as [|x xs IH]; simpl; [done|exact IH].
Qed.

(** The operation over the labels the dictionary gives: every gate over the
    values of its qubits, every composite declared over all the values of the
    dictionary, whatever it declared before. *)
Fixpoint relabelled (m : Dict) (op : QuantumOperation C) : QuantumOperation C :=
  match op with
  | OpGate g => OpGate (Unitary (operator g) (map (dict_at m) (g_qubits g)))
  | OpComposite elements _ ads => OpComposite (map (relabelled m) elements) (dict_values m) ads
  | OpOther _ _ => op
  end.

Lemma all_gates_impl (P Q : QuantumGate C → Prop) (op : QuantumOperation C) :
  (∀ g, P g → Q g) → all_gates P op → all_gates Q op.
Proof.
  intros HPQ.
  induction op as [g|elements qs ads IH|qs ads] using QuantumOperation_nested_ind.
  - apply HPQ.
  - rewrite !all_gates_Forall. intros Hall.
    induction IH as [|e es He _ IHes]; [constructor|].
    apply Forall_cons in Hall as [Hh Ht]. constructor; auto.
  - done.
Qed.

(** In a closed operation made of gates, the declared qubits contain the
    qubits of every gate. *)
Lemma closed_gates_within (op : QuantumOperation C) :
  closed op = true → all_gates (fun _ => True) op →
  all_gates (fun g => ∀ q, q ∈ g_qubits g → q ∈ qubits op) op.
Proof.
  induction op as [g|elements qs ads IH|qs ads] using QuantumOperation_nested_ind;
    intros Hclosed Hgates.
  - simpl. done.
  - apply closed_composite in Hclosed as (Hcq & _ & Hcl).
    apply all_gates_Forall in Hgates. apply all_gates_Forall.
    rewrite Forall_forall in *. intros e He.
    eapply all_gates_impl; [|apply (IH e He (Hcl e He) (Hgates e He))].
    intros g Hg q Hq. cbn [qubits]. apply (Hcq q e He). by apply Hg.
  - destruct Hgates.
Qed.

Lemma relabel_closed_form (m : Dict) (op : QuantumOperation C) :
  closed op = true →
  all_gates (fun g => ∀ q, q ∈ g_qubits g → q ∈ dict_keys m) op →
  relabel op m None = Ok (relabelled m op) ∧
  (∀ q, q ∈ qubits (relabelled m op) → q ∈ dict_values m) ∧
  addrs (relabelled m op) = addrs op.
Proof.
  induction op as [g|elements qs ads IH|qs ads] using QuantumOperation_nested_ind;
    intros Hclosed Hgates.
  - cbn [relabel relabelled all_gates] in *. unfold gate_relabel.
    rewrite mapM_dict_get by done. split_and!; try done.
    cbn [qubits g_qubits]. intros q (k & <- & Hk)%list_elem_of_In%in_map_iff.
    apply list_elem_of_In in Hk.
    destruct (dict_get_Ok m k (Hgates k Hk)) as (v & Hv & Hin).
    unfold dict_at. by rewrite Hv.
  - apply closed_composite in Hclosed as (Hcq & Hca & Hcl).
    apply all_gates_Forall in Hgates.
    assert (Hall : Forall (fun e =>
              relabel e m None = Ok (relabelled m e) ∧
              (∀ q, q ∈ qubits (relabelled m e) → q ∈ dict_values m) ∧
              addrs (relabelled m e) = addrs e) elements).
    { rewrite Forall_forall in *. intros e He. apply IH; auto. }
    split_and!; try done.
    cbn [relabel relabelled]. rewrite fold_collect_mapM.
    assert (Hm : mapM (fun e => relabel e m None) elements
                 = Ok (map (relabelled m) elements)).
    { apply mapM_Ok_Forall2. clear -Hall.
      induction Hall as [|e es (He & _) _ IHes]; simpl; constructor; done. }
    rewrite Hm. cbn [mbind Result_bind app].
    apply init_explicit_covers.
    + intros q e' (e & <- & He)%list_elem_of_In%in_map_iff Hq.
      apply list_elem_of_In in He. rewrite Forall_forall in Hall.
      by apply (Hall e He).
    + intros a e' (e & <- & He)%list_elem_of_In%in_map_iff Ha.
      apply list_elem_of_In in He. rewrite Forall_forall in Hall.
      destruct (Hall e He) as (_ & _ & Haddr). rewrite Haddr in Ha.
      by apply (Hca a e).
  - destruct Hgates.
Qed.

(** X13.  [on] of a closed composite made of gates, declared over distinct
    qubits, succeeds exactly when it is given as many labels as the composite
    declares.  The result has every gate over its new labels and the
    composite over the labels given; and every composite nested in it is
    declared over all of these labels too, whatever it declared before,
    since [relabel] takes the qubits of each composite from the values of
    the map. *)
Theorem composite_on_spans (elements : list (QuantumOperation C))
    (qs : Qubits) (ads : Addrs) (qs' : Qubits) :
  let c := OpComposite elements qs ads in
  closed c = true → all_gates (fun _ => True) c → NoDup qs →
  (length qs' ≠ length qs → on c qs' = Raise (ValueError "Wrong number of qubits")) ∧
  (length qs' = length qs →
     on c qs' = Ok (relabelled (zip qs qs') c) ∧
     qubits (relabelled (zip qs qs') c) = qs' ∧
     Forall (fun e => match e with
                      | OpComposite _ inner _ => inner = qs'
                      | _ => True
                      end)
            (map (relabelled (zip qs qs')) elements)).
Proof.
  intros c Hclosed Hgates Hnd. unfold on, qubit_nb. cbn [qubits c]. split.
  - intros Hne. by rewrite decide_True.
  - intros Hlen. rewrite decide_False by (intros Hne; by apply Hne).
    destruct (dict_zip_NoDup qs qs' Hnd Hlen) as (Hzip & Hkeys & Hvalues).
    rewrite Hzip in *.
    split_and!.
    + apply relabel_closed_form; [done|].
      eapply all_gates_impl; [|by apply closed_gates_within].
      intros g Hg q Hq. rewrite Hkeys. by apply Hg.
    + cbn [relabelled qubits c]. exact Hvalues.
    + apply Forall_forall. intros e' (e & <- & He)%list_elem_of_In%in_map_iff.
      destruct e; cbn [relabelled]; done.
Qed.

End Relabel.

Lemma composite_on_spans_witness :
  let inner := OpComposite [OpGate (CNOT 0 1)] [0; 1] [] in
  let c := OpComposite [OpGate (Pauli_X 2); inner] [0; 1; 2] [] in
  on (fun _ _ _ _ => Raise NotImplementedError) c [5; 6; 7]
  = Ok (OpComposite
          [OpGate (Pauli_X 7); OpComposite [OpGate (CNOT 5 6)] [5; 6; 7] []]
          [5; 6; 7] []).
Proof.
  intros inner c.
  assert (Hnd : NoDup [0; 1; 2]) by (apply (bool_decide_unpack _); exact I).
  destruct (composite_on_spans (fun _ _ _ _ => Raise NotImplementedError)
              [OpGate (Pauli_X 2); inner] [0; 1; 2] [] [5; 6; 7]
              eq_refl (conj I (conj (conj I I) I)) Hnd) as [_ Hon].
  destruct (Hon eq_refl) as (Hrun & _). exact Hrun.
Defined.

(** ** Declaring and constructing standard gates *)

Section StdGateInstances.
Context {C : Type} {entries : Entries C}.

(** The values a gate is constructed from, parameters and qubits alike. *)
Context {Value : Type}.

(** A bound of a slice of a sequence of [len] items: a negative bound counts
    from the end, and every bound is clipped to the sequence. *)
Definition slice_bound (len : nat) (i : Z) : nat :=
  if decide (i < 0)%Z then Z.to_nat (Z.max 0 (Z.of_nat len + i))
  else Nat.min (Z.to_nat i) len.

(** [xs[start:stop]], with [None] for a bound that is left out. *)
Definition slice {T : Type} (xs : list T) (start stop : option Z) : list T :=
  let lo := from_option (slice_bound (length xs)) 0 start in
  let hi := from_option (slice_bound (length xs)) (length xs) stop in
  take (hi - lo) (drop lo xs).

(** An instance of a standard gate: its class, [_args] and [_qubits]. *)
Record StdGate : Type := mkStdGate {
  sg_class : StdGateClass C;
  sg_args : list Value;
  sg_qubits : list Value
}.

(** [QuantumStdGate.__init__], called with the sequence [args_qubits] *)
Definition StdGate_init (cls : StdGateClass C) (args_qubits : list Value) : StdGate :=
  let n := Z.of_nat (cv_qubit_nb cls) in
  let args := slice args_qubits (Some 0%Z) (Some (- n)%Z) in
  let qubits := slice args_qubits (Some (- n)%Z) None in
  mkStdGate cls args qubits.

(** An instance of a standard controlled gate. *)
Record StdCtrlGate : Type := mkStdCtrlGate {
  cg_class : StdCtrlGateClass C;
  cg_args : list Value;
  cg_qubits : list Value
}.

(** The constructor is the one of [QuantumStdGate]. *)
Definition StdCtrlGate_init (cls : StdCtrlGateClass C) (args_qubits : list Value)
    : StdCtrlGate :=
  let self := StdGate_init cls args_qubits in
  mkStdCtrlGate cls (sg_args self) (sg_qubits self).

(** [QuantumStdCtrlGate.control_qubits] *)
Definition control_qubits (self : StdCtrlGate) : list Value :=
  slice (cg_qubits self) None (Some (control_qubit_nb (cg_class self))).

(** [QuantumStdCtrlGate.target] *)
Definition target (self : StdCtrlGate) : StdGate :=
  let target_qubits :=
    slice (cg_qubits self) (Some (control_qubit_nb (cg_class self))) None in
  StdGate_init (cv_target (cg_class self)) (cg_args self ++ target_qubits).

Lemma slice_upto {T : Type} (xs : list T) (k : nat) :
  slice xs None (Some (Z.of_nat k)) = take k xs.
Proof.
  unfold slice, slice_bound. cbn [from_option].
  rewrite decide_False by lia. rewrite Nat2Z.id, drop_0, Nat.sub_0_r.
  destruct (decide (k ≤ length xs)).
  - by rewrite Nat.min_l.
  - rewrite Nat.min_r by lia. by rewrite !take_ge by lia.
Qed.

Lemma slice_from {T : Type} (xs : list T) (k : nat) :
  slice xs (Some (Z.of_nat k)) None = drop k xs.
Proof.
  unfold slice, slice_bound. cbn [from_option].
  rewrite decide_False by lia. rewrite Nat2Z.id.
  destruct (decide (k ≤ length xs)).
  - rewrite Nat.min_l by done. apply take_ge. rewrite length_drop. lia.
  - rewrite Nat.min_r by lia. rewrite Nat.sub_diag, take_0.
    by rewrite drop_ge by lia.
Qed.

Lemma slice_but_last {T : Type} (xs : list T) (n : nat) :
  0 < n → slice xs (Some 0%Z) (Some (- Z.of_nat n)%Z) = take (length xs - n) xs.
Proof.
  intros Hn. unfold slice, slice_bound. cbn [from_option].
  rewrite (decide_False (P := (0 < 0)%Z)) by lia.
  rewrite (decide_True (P := (- Z.of_nat n < 0)%Z)) by lia.
  rewrite Nat.min_0_l, drop_0, Nat.sub_0_r. f_equal. lia.
Qed.

Lemma slice_last {T : Type} (xs : list T) (n : nat) :
  0 < n → slice xs (Some (- Z.of_nat n)%Z) None = drop (length xs - n) xs.
Proof.
  intros Hn. unfold slice, slice_bound. cbn [from_option].
  rewrite decide_True by lia.
  replace (Z.to_nat (Z.max 0 (Z.of_nat (length xs) + - Z.of_nat n)))
    with (length xs - n) by lia.
  apply take_ge. rewrite length_drop. lia.
Qed.

(** X14.  The constructor of a standard gate splits its arguments in two and
    checks nothing: the last [cv_qubit_nb] arguments are the qubits and the
    ones before are the parameters.  Given fewer arguments than qubits, all
    of them become qubits; and for a class without qubits the bound [-0] is
    the start of the sequence, so that every argument becomes a qubit and
    none a parameter.  Constructing again from the parameters followed by
    the qubits, as [relabel] and [target] do, gives the same instance. *)
Theorem StdGate_init_slices (cls : StdGateClass C) (args_qubits : list Value) :
  let self := StdGate_init cls args_qubits in
  let n := cv_qubit_nb cls in
  sg_class self = cls ∧
  sg_args self ++ sg_qubits self = args_qubits ∧
  (0 < n ≤ length args_qubits →
     length (sg_qubits self) = n ∧
     sg_args self = take (length args_qubits - n) args_qubits ∧
     sg_qubits self = drop (length args_qubits - n) args_qubits) ∧
  (n = 0 ∨ length args_qubits ≤ n →
     sg_args self = [] ∧ sg_qubits self = args_qubits) ∧
  StdGate_init cls (sg_args self ++ sg_qubits self) = self.
Proof.
  intros self n.
  assert (Hsplit : sg_args self ++ sg_qubits self = args_qubits).
  { unfold self, StdGate_init. cbn [sg_args sg_qubits]. fold n.
    destruct (decide (n = 0)) as [->|Hn].
    - change (- Z.of_nat 0)%Z with (Z.of_nat 0).
      by rewrite (slice_from args_qubits 0), drop_0.
    - rewrite slice_but_last, slice_last by lia. apply take_drop. }
  split_and!.
  - reflexivity.
  - exact Hsplit.
  - intros [Hn Hlen]. unfold self, StdGate_init. cbn [sg_args sg_qubits]. fold n.
    rewrite slice_but_last, slice_last by lia. split_and!; try done.
    rewrite length_drop. lia.
  - intros Hcase. unfold self, StdGate_init. cbn [sg_args sg_qubits]. fold n.
    destruct (decide (n = 0)) as [->|Hn].
    + change (- Z.of_nat 0)%Z with (Z.of_nat 0).
      rewrite (slice_from args_qubits 0), drop_0. split; [|done].
      unfold slice, slice_bound. cbn [from_option]. by rewrite decide_False by lia.
    + rewrite slice_but_last, slice_last by lia.
      replace (length args_qubits - n) with 0 by lia. by rewrite take_0, drop_0.
  - by rewrite Hsplit.
Qed.

(** X15.  An instance of a declared controlled gate, constructed from its
    parameters followed by as many qubits as the class has: the control
    qubits are the leading qubits, the target gate is the target class over
    the remaining ones with the same parameters, and the control qubits
    followed by the target's qubits are the qubits of the gate. *)
Theorem ctrl_gate_target_split (decl : CtrlGateDeclaration C) (cls : StdCtrlGateClass C)
    (params qubits : list Value) :
  StdCtrlGate_init_subclass decl = Ok cls →
  0 < cv_qubit_nb (cv_target cls) →
  length qubits = cv_qubit_nb cls →
  let self := StdCtrlGate_init cls (params ++ qubits) in
  let k := cv_qubit_nb cls - cv_qubit_nb (cv_target cls) in
  cg_args self = params ∧
  cg_qubits self = qubits ∧
  control_qubits self = take k qubits ∧
  target self = mkStdGate (cv_target cls) params (drop k qubits) ∧
  control_qubits self ++ sg_qubits (target self) = qubits ∧
  length (control_qubits self) = k ∧
  length (sg_qubits (target self)) = cv_qubit_nb (cv_target cls).
Proof.
  intros Hdecl Ht Hlen self k.
  assert (Htn : cv_qubit_nb (cv_target cls) ≤ cv_qubit_nb cls).
  { unfold StdCtrlGate_init_subclass in Hdecl.
    destruct (StdGate_init_subclass _ _ _) as [ps n].
    destruct (decide (cv_params (decl_target decl) = ps)); [|discriminate].
    unfold sym_eye in Hdecl.
    destruct (decide (2 ^ Z.of_nat n - 2 ^ Z.of_nat (cv_qubit_nb (decl_target decl)) < 0)%Z)
      as [|Hge]; [discriminate|].
    simpl in Hdecl. injection Hdecl as <-. simpl.
    apply pow2_sub_nonneg. lia. }
  assert (Hargs : cg_args self = params).
  { unfold self, StdCtrlGate_init, StdGate_init. cbn [cg_args sg_args].
    rewrite slice_but_last by lia. rewrite length_app.
    replace (length params + length qubits - cv_qubit_nb cls) with (length params)
      by lia.
    by rewrite take_app_length. }
  assert (Hqubits : cg_qubits self = qubits).
  { unfold self, StdCtrlGate_init, StdGate_init. cbn [cg_qubits sg_qubits].
    rewrite slice_last by lia. rewrite length_app.
    replace (length params + length qubits - cv_qubit_nb cls) with (length params)
      by lia.
    by rewrite drop_app_length. }
  assert (Hnb : control_qubit_nb cls = Z.of_nat k).
  { unfold control_qubit_nb, k. lia. }
  assert (Hctrl : control_qubits self = take k qubits).
  { unfold control_qubits. rewrite Hqubits.
    change (cg_class self) with cls. by rewrite Hnb, slice_upto. }
  assert (Htarget : target self = mkStdGate (cv_target cls) params (drop k qubits)).
  { unfold target. rewrite Hqubits, Hargs.
    change (cg_class self) with cls. rewrite Hnb, slice_from.
    unfold StdGate_init. rewrite slice_but_last, slice_last by lia.
    rewrite length_app, length_drop.
    replace (length params + (length qubits - k) - cv_qubit_nb (cv_target cls))
      with (length params) by (unfold k; lia).
    by rewrite take_app_length, drop_app_length. }
  split_and!; try done.
  - rewrite Hctrl, Htarget. apply take_drop.
  - rewrite Hctrl, length_take. unfold k. lia.
  - rewrite Htarget. cbn [sg_qubits]. rewrite length_drop. unfold k. lia.
Qed.

(** *** The outcome of a declaration *)


#[local] Instance Annotation_eq_dec : EqDecision Annotation.
Proof. solve_decision. Defined.


End StdGateInstances.

Lemma ctrl_gate_target_split_witness :
  let self := StdCtrlGate_init (Value := nat) CNOT_class [3; 4] in
  StdCtrlGate_init_subclass CNOT_declaration = Ok CNOT_class ∧
  control_qubits self = [3] ∧
  target self = mkStdGate X_class [] [4].
Proof.
  intros self.
  assert (Hdecl : StdCtrlGate_init_subclass CNOT_declaration = Ok CNOT_class)
    by reflexivity.
  destruct (ctrl_gate_target_split (Value := nat) CNOT_declaration CNOT_class [] [3; 4]
              Hdecl (le_n 1) eq_refl) as (_ & _ & Hctrl & Htarget & _).
  split_and!; [exact Hdecl|exact Hctrl|exact Htarget].
Defined.

(** A one-qubit gate constructed with two arguments takes the first for a
    parameter, and one constructed from a class without qubits takes every
    argument for a qubit. *)
Example StdGate_init_unchecked :
  StdGate_init (Value := nat) X_class [7; 8] = mkStdGate X_class [7] [8] ∧
  StdGate_init (Value := nat) CNOT_class [5] = mkStdGate CNOT_class [] [5].
Proof. split; reflexivity. Qed.

(** ** Composition does not see the order of a gate's qubits *)

Section ComposePermuted.
Context {C : Type} {entries : Entries C}.
Hypothesis Cring : ring_theory c0 c1 cadd cmul csub copp (@eq C).



End ComposePermuted.


(** ** The registries of concrete classes *)

Section Registries.

(** The four registries of the module. *)
Inductive Collection : Type :=
| OPERATIONS
| GATES
| STDGATES
| STDCTRLGATES.

#[local] Instance Collection_eq_dec : EqDecision Collection.
Proof. solve_decision. Defined.

(** The base classes of the module that keep registries. *)
Inductive BaseClass : Type :=
| QuantumOperationBase
| QuantumGateBase
| QuantumStdGateBase
| QuantumStdCtrlGateBase.

(** [_cv_collections] of each base class: the one of its parent and a
    registry of its own. *)
Definition cv_collections (base : BaseClass) : list Collection :=
  match base with
  | QuantumOperationBase => [OPERATIONS]
  | QuantumGateBase => [OPERATIONS; GATES]
  | QuantumStdGateBase => [OPERATIONS; GATES; STDGATES]
  | QuantumStdCtrlGateBase => [OPERATIONS; GATES; STDGATES; STDCTRLGATES]
  end.

(** A class statement, as [__init_subclass__] sees the new class: its
    [__name__], the [_cv_collections] it inherits or sets, whether
    [inspect.isabstract] holds of it, and the class object, told from the
    other classes by a serial number. *)
Record ClassStatement : Type := {
  class_name : string;
  class_collections : list Collection;
  class_abstract : bool;
  class_object : nat
}.

(** The state of the four dictionaries, from names to classes. *)
Record Registries : Type := {
  reg_OPERATIONS : gmap string nat;
  reg_GATES : gmap string nat;
  reg_STDGATES : gmap string nat;
  reg_STDCTRLGATES : gmap string nat
}.

Definition registry (regs : Registries) (collection : Collection) : gmap string nat :=
  match collection with
  | OPERATIONS => reg_OPERATIONS regs
  | GATES => reg_GATES regs
  | STDGATES => reg_STDGATES regs
  | STDCTRLGATES => reg_STDCTRLGATES regs
  end.

(** [collection[name] = cls] *)
Definition register (collection : Collection) (name : string) (cls : nat)
    (regs : Registries) : Registries :=
  match collection with
  | OPERATIONS =>
      {| reg_OPERATIONS := <[name := cls]> (reg_OPERATIONS regs);
         reg_GATES := reg_GATES regs; reg_STDGATES := reg_STDGATES regs;
         reg_STDCTRLGATES := reg_STDCTRLGATES regs |}
  | GATES =>
      {| reg_OPERATIONS := reg_OPERATIONS regs;
         reg_GATES := <[name := cls]> (reg_GATES regs);
         reg_STDGATES := reg_STDGATES regs;
         reg_STDCTRLGATES := reg_STDCTRLGATES regs |}
  | STDGATES =>
      {| reg_OPERATIONS := reg_OPERATIONS regs; reg_GATES := reg_GATES regs;
         reg_STDGATES := <[name := cls]> (reg_STDGATES regs);
         reg_STDCTRLGATES := reg_STDCTRLGATES regs |}
  | STDCTRLGATES =>
      {| reg_OPERATIONS := reg_OPERATIONS regs; reg_GATES := reg_GATES regs;
         reg_STDGATES := reg_STDGATES regs;
         reg_STDCTRLGATES := <[name := cls]> (reg_STDCTRLGATES regs) |}
  end.

(** The registries when the module is loaded. *)
Definition no_classes : Registries :=
  {| reg_OPERATIONS := ∅; reg_GATES := ∅; reg_STDGATES := ∅; reg_STDCTRLGATES := ∅ |}.

(** [QuantumOperation.__init_subclass__], which every class statement below
    [QuantumOperation] runs first. *)
Definition init_subclass (cls : ClassStatement) (regs : Registries) : Registries :=
  if class_abstract cls then regs
  else fold_left (fun regs collection =>
                    register collection (class_name cls) (class_object cls) regs)
                 (class_collections cls) regs.

(** The registries after a sequence of class statements. *)
Definition declare_all (statements : list ClassStatement) : Registries :=
  fold_left (fun regs cls => init_subclass cls regs) statements no_classes.

Lemma registry_register (c c' : Collection) (name : string) (cls : nat)
    (regs : Registries) :
  registry (register c name cls regs) c'
  = if decide (c' = c) then <[name := cls]> (registry regs c') else registry regs c'.
Proof. by destruct c, c'. Qed.

Lemma registry_fold_register (cs : list Collection) (name : string) (cls : nat)
    (regs : Registries) (c : Collection) :
  registry (fold_left (fun regs collection => register collection name cls regs) cs regs) c
  = if decide (c ∈ cs) then <[name := cls]> (registry regs c) else registry regs c.
Proof.
  revert regs. induction cs as [|c0 cs IH]; intros regs; cbn [fold_left].
  - rewrite decide_False; [done|]. by intros ?%elem_of_nil.
  - rewrite IH, registry_register.
    destruct (decide (c = c0)) as [->|Hne].
    + rewrite (decide_True (P := c0 ∈ c0 :: cs)) by left.
      destruct (decide (c0 ∈ cs)); [by rewrite insert_insert_eq|done].
    + destruct (decide (c ∈ cs)) as [Hin|Hnin].
      * rewrite decide_True; [done|by right].
      * rewrite decide_False; [done|].
        intros [?|?]%elem_of_cons; contradiction.
Qed.

Lemma registry_init_subclass (s : ClassStatement) (regs : Registries) (c : Collection) :
  registry (init_subclass s regs) c
  = if decide (class_abstract s = false ∧ c ∈ class_collections s)
    then <[class_name s := class_object s]> (registry regs c)
    else registry regs c.
Proof.
  unfold init_subclass. destruct (class_abstract s) eqn:Habs.
  { rewrite decide_False; [done|]. by intros [? _]. }
  rewrite registry_fold_register.
  destruct (decide (c ∈ class_collections s)) as [Hin|Hnin].
  - by rewrite decide_True.
  - rewrite decide_False; [done|]. by intros [_ ?].
Qed.

(** X21.  After any sequence of class statements, a registry holds under a
    name the class made by the last statement of that name that was not
    abstract and had the registry among its collections: a later class
    replaces an earlier one of the same name, in its own registries only,
    and nothing is ever removed.  When every class keeps the collections of
    one of the four base classes, every name of [STDCTRLGATES] is in
    [STDGATES], every name of [STDGATES] in [GATES], and every name of
    [GATES] in [OPERATIONS]. *)
Theorem registries_hold_last_concrete_class (statements : list ClassStatement) :
  (∀ collection name,
     registry (declare_all statements) collection !! name
     = class_object <$>
         last (filter (fun s => class_name s = name ∧ class_abstract s = false ∧
                                collection ∈ class_collections s) statements)) ∧
  (Forall (fun s => ∃ base, class_collections s = cv_collections base) statements →
   ∀ name,
     (is_Some (registry (declare_all statements) STDCTRLGATES !! name) →
      is_Some (registry (declare_all statements) STDGATES !! name)) ∧
     (is_Some (registry (declare_all statements) STDGATES !! name) →
      is_Some (registry (declare_all statements) GATES !! name)) ∧
     (is_Some (registry (declare_all statements) GATES !! name) →
      is_Some (registry (declare_all statements) OPERATIONS !! name))).
Proof.
  assert (Hlast : ∀ collection name,
     registry (declare_all statements) collection !! name
     = class_object <$>
         last (filter (fun s => class_name s = name ∧ class_abstract s = false ∧
                                collection ∈ class_collections s) statements)).
  { intros collection name. unfold declare_all.
    induction statements as [|s statements IH] using rev_ind;
      [destruct collection; apply lookup_empty|].
    rewrite fold_left_app, filter_app. cbn [fold_left].
    rewrite registry_init_subclass. rewrite filter_cons, filter_nil.
    destruct (decide (class_abstract s = false ∧ collection ∈ class_collections s))
      as [[Habs Hin]|Hnot].
    - destruct (decide (class_name s = name)) as [<-|Hne].
      + rewrite decide_True by done. rewrite last_snoc. simpl.
        by rewrite lookup_insert_eq.
      + rewrite decide_False by (by intros [? _]). rewrite app_nil_r.
        by rewrite lookup_insert_ne.
    - rewrite decide_False by (intros (_ & ? & ?); by apply Hnot).
      by rewrite app_nil_r. }
  split; [exact Hlast|].
  intros Hstd name. rewrite !Hlast. rewrite !fmap_is_Some.
  assert (Hstep : ∀ c c',
            (∀ base, c ∈ cv_collections base → c' ∈ cv_collections base) →
            is_Some (last (filter (fun s => class_name s = name ∧ class_abstract s = false ∧
                                            c ∈ class_collections s) statements)) →
            is_Some (last (filter (fun s => class_name s = name ∧ class_abstract s = false ∧
                                            c' ∈ class_collections s) statements))).
  { intros c c' Hcc'. rewrite !last_is_Some. intros Hne Hnil.
    destruct (filter _ statements) as [|s rest] eqn:Hf in Hne; [done|].
    assert (Hs : s ∈ s :: rest) by left.
    rewrite <- Hf in Hs. apply list_elem_of_filter in Hs as ((Hn & Ha & Hc) & Hs).
    rewrite Forall_forall in Hstd. destruct (Hstd s Hs) as [base Hbase].
    assert (Hs' : s ∈ filter (fun s => class_name s = name ∧ class_abstract s = false ∧
                                       c' ∈ class_collections s) statements).
    { apply list_elem_of_filter. split_and!; try done.
      rewrite Hbase in *. by apply Hcc'. }
    rewrite Hnil in Hs'. by apply elem_of_nil in Hs'. }
  split_and!; apply Hstep; intros base; apply (bool_decide_unpack _);
    by destruct base.
Qed.

End Registries.

(** A gate class named like an earlier standard gate replaces it among the
    operations and the gates; the registry of standard gates keeps the
    earlier class. *)
Lemma registries_hold_last_concrete_class_witness :
  let statements :=
    [ {| class_name := "QuantumGate"; class_collections := cv_collections QuantumGateBase;
         class_abstract := true; class_object := 0 |};
      {| class_name := "X"; class_collections := cv_collections QuantumStdGateBase;
         class_abstract := false; class_object := 1 |};
      {| class_name := "X"; class_collections := cv_collections QuantumGateBase;
         class_abstract := false; class_object := 2 |} ] in
  registry (declare_all statements) GATES !! "X" = Some 2 ∧
  registry (declare_all statements) STDGATES !! "X" = Some 1 ∧
  (is_Some (registry (declare_all statements) STDGATES !! "X") →
   is_Some (registry (declare_all statements) GATES !! "X")).
Proof.
  intros statements.
  destruct (registries_hold_last_concrete_class statements) as [Hlast Hchain].
  assert (Hstd : Forall (fun s => ∃ base, class_collections s = cv_collections base)
                        statements).
  { repeat constructor; eexists; reflexivity. }
  split_and!.
  - rewrite Hlast. reflexivity.
  - rewrite Hlast. reflexivity.
  - exact (proj1 (proj2 (Hchain Hstd "X"))).
Defined.

(** ** Every composite the module builds has passed the check of the constructor *)

Section ClosedInvariant.
Context {C : Type} {entries : Entries C}.

Lemma issubset_refl (xs : list nat) : issubset xs xs = true.
Proof. by apply issubset_spec. Qed.

Lemma init_closed (elements : list (QuantumOperation C)) (qs : option Qubits)
    (ads : option Addrs) (c : QuantumOperation C) :
  Forall (fun e => closed e = true) elements →
  QuantumComposite_init elements qs ads = Ok c → closed c = true.
Proof.
  intros Hall. unfold QuantumComposite_init.
  assert (Hch : forallb closed elements = true).
  { apply forallb_forall. intros e He%list_elem_of_In.
    rewrite Forall_forall in Hall. by apply Hall. }
  destruct qs as [qs|], ads as [ads|]; cbn [mbind Result_bind];
    repeat match goal with
           | |- context [if issubset ?a ?b then _ else _] =>
               destruct (issubset a b) eqn:?; cbn [mbind Result_bind]
           end;
    try discriminate; intros [= <-]; cbn [closed];
    rewrite ?issubset_refl, Hch; by repeat (apply andb_true_iff; split).
Qed.

Lemma H_closed (gate_H : QuantumGate C → QuantumGate C) (op h : QuantumOperation C) :
  H gate_H op = Ok h → closed h = true.
Proof.
  revert h.
  induction op as [g|elements qs ads IH|qs ads] using QuantumOperation_nested_ind;
    intros h.
  - by intros [= <-].
  - rewrite H_composite.
    destruct (mapM (H gate_H) (reverse elements)) as [hs|e] eqn:Hm;
      cbn [mbind Result_bind]; [|discriminate].
    apply init_closed. apply mapM_Ok_Forall2 in Hm.
    apply Forall_forall. intros h' Hh'.
    apply list_elem_of_lookup in Hh' as [i Hi].
    destruct (Forall2_lookup_r _ _ _ _ _ Hm Hi) as (e & He & Hhe).
    rewrite Forall_forall in IH. apply (IH e); [|done].
    apply elem_of_reverse. by eapply list_elem_of_lookup_2.
  - discriminate.
Qed.

Lemma relabel_closed
    (other_relabel : Qubits → Addrs → Dict → option Dict → Result (QuantumOperation C))
    (op : QuantumOperation C) (m : Dict) (am : option Dict) (op' : QuantumOperation C) :
  all_gates (fun _ => True) op →
  relabel other_relabel op m am = Ok op' → closed op' = true.
Proof.
  revert op'.
  induction op as [g|elements qs ads IH|qs ads] using QuantumOperation_nested_ind;
    intros op' Hgates.
  - cbn [relabel]. destruct (gate_relabel g m); [|discriminate]. by intros [= <-].
  - cbn [relabel]. rewrite fold_collect_mapM.
    destruct (mapM _ elements) as [els|e] eqn:Hm; cbn [mbind Result_bind app];
      [|discriminate].
    apply init_closed. apply mapM_Ok_Forall2 in Hm.
    apply all_gates_Forall in Hgates.
    apply Forall_forall. intros e' He'.
    apply list_elem_of_lookup in He' as [i Hi].
    destruct (Forall2_lookup_r _ _ _ _ _ Hm Hi) as (e & He & Hee).
    apply list_elem_of_lookup_2 in He.
    rewrite Forall_forall in IH, Hgates. by apply (IH e He e' (Hgates e He)).
  - destruct Hgates.
Qed.

(** X22.  The check of the constructor holds of every composite the module
    returns, at every level of nesting: of what the constructor builds from
    checked children, of every adjoint [H] returns, and of what [relabel]
    and [on] return for an operation made of gates. *)
Theorem constructors_keep_closed :
  (∀ (elements : list (QuantumOperation C)) qs ads c,
     Forall (fun e => closed e = true) elements →
     QuantumComposite_init elements qs ads = Ok c → closed c = true) ∧
  (∀ gate_H (op h : QuantumOperation C), H gate_H op = Ok h → closed h = true) ∧
  (∀ other_relabel (op : QuantumOperation C) m am op',
     all_gates (fun _ => True) op →
     relabel other_relabel op m am = Ok op' → closed op' = true) ∧
  (∀ other_relabel (op : QuantumOperation C) qs op',
     all_gates (fun _ => True) op →
     on other_relabel op qs = Ok op' → closed op' = true).
Proof.
  split_and!.
  - apply init_closed.
  - apply H_closed.
  - apply relabel_closed.
  - intros other_relabel op qs op' Hgates. unfold on.
    destruct (decide _); [discriminate|]. by apply relabel_closed.
Qed.

End ClosedInvariant.

End Operations.

(** * Classical-control operations ([stdops.py]) *)

Module Stdops.

(** ** States, memory and samples *)

Section States.

(** The quantum data of a state, whatever its representation. *)
Variable Tensor : Type.

(** Modelled from the spec: [states.State] is not among the sources.  The
    state contract exposes the ordered qubits, the underlying data and a
    memory mapping from addresses to classical values, mutated only through
    [store].  A classical value is an integer, [True] and [False] being 1
    and 0 as they are in Python. *)
Record State : Type := mkState {
  s_tensor : Tensor;
  s_qubits : Qubits;
  s_memory : gmap nat Z
}.

(** Modelled from the spec: [states.Density], with the same contract. *)
Record Density : Type := mkDensity {
  rho_tensor : Tensor;
  rho_qubits : Qubits;
  rho_memory : gmap nat Z
}.

(** Modelled from the spec: [State.store ({key: value})] returns the state
    with the memory updated at [key]. *)
Definition store (ket : State) (key : nat) (value : Z) : State :=
  mkState (s_tensor ket) (s_qubits ket) (<[key := value]> (s_memory ket)).

Definition rho_store (rho : Density) (key : nat) (value : Z) : Density :=
  mkDensity (rho_tensor rho) (rho_qubits rho) (<[key := value]> (rho_memory rho)).

(** [ket.memory[key]]: a mapping raises [KeyError] for an absent key. *)
Definition memory_get (memory : gmap nat Z) (key : nat) : Result Z :=
  match memory !! key with
  | Some value => Ok value
  | None => Raise (KeyError key)
  end.

(** The generator behind [np.random.random ()]: the sequence of samples it
    will deliver and the number already drawn. *)
Record Rng : Type := mkRng {
  samples : nat -> Q;
  drawn : nat
}.

(** [np.random.random ()]: the next sample, from the half-open interval
    [[0, 1)]. *)
Definition random (rng : Rng) : Q * Rng :=
  (samples rng (drawn rng), mkRng (samples rng) (S (drawn rng))).

Definition unit_interval (rng : Rng) : Prop :=
  ∀ n, (0 <= samples rng n)%Q ∧ (samples rng n < 1)%Q.

Lemma store_lookup (ket : State) (key : nat) (value : Z) :
  s_memory (store ket key value) !! key = Some value.
Proof. unfold store. simpl. apply lookup_insert_eq. Qed.

Lemma store_lookup_ne (ket : State) (key key' : nat) (value : Z) :
  key ≠ key' → s_memory (store ket key value) !! key' = s_memory ket !! key'.
Proof. intros Hne. unfold store. simpl. by apply lookup_insert_ne. Qed.

(** *** If *)

Section Conditional.

(** The operations of the module act on states and may draw samples; [If]
    holds one and calls its [run] or [evolve]. *)
Variable Operation : Type.
Variable op_run : Operation -> State -> Rng -> Result (State * Rng).
Variable op_evolve : Operation -> Density -> Rng -> Result (Density * Rng).

(** [If]: the operation, the address to look up and the value to match. *)
Record If : Type := mkIf {
  if_element : Operation;
  if_key : nat;
  if_value : Z
}.

(** [If.__init__ (elem, key, value = True)] *)
Definition If_init (elem : Operation) (key : nat) (value : option Z) : If :=
  mkIf elem key (default 1%Z value).

(** [If.run] *)
Definition If_run (self : If) (ket : State) (rng : Rng) : Result (State * Rng) :=
  stored ← memory_get (s_memory ket) (if_key self);
  if decide (stored = if_value self) then op_run (if_element self) ket rng
  else Ok (ket, rng).

(** [If.evolve] *)
Definition If_evolve (self : If) (rho : Density) (rng : Rng)
    : Result (Density * Rng) :=
  stored ← memory_get (rho_memory rho) (if_key self);
  if decide (stored = if_value self) then op_evolve (if_element self) rho rng
  else Ok (rho, rng).

(** C5.  [If (op, key, v)] on a state whose memory holds [key]: when the
    stored value differs from [v] the state comes back as it is, quantum
    data and memory, and no sample is drawn; when it equals [v] the result is
    that of [op].  When [key] is absent the lookup raises [KeyError].  The
    same for [evolve]. *)
Theorem If_run_evolve (op : Operation) (key : nat) (v : Z)
    (ket : State) (rho : Density) (rng : Rng) :
  let self := If_init op key (Some v) in
  (∀ stored, s_memory ket !! key = Some stored → stored ≠ v →
     If_run self ket rng = Ok (ket, rng)) ∧
  (s_memory ket !! key = Some v → If_run self ket rng = op_run op ket rng) ∧
  (s_memory ket !! key = None → If_run self ket rng = Raise (KeyError key)) ∧
  (∀ stored, rho_memory rho !! key = Some stored → stored ≠ v →
     If_evolve self rho rng = Ok (rho, rng)) ∧
  (rho_memory rho !! key = Some v → If_evolve self rho rng = op_evolve op rho rng) ∧
  (rho_memory rho !! key = None → If_evolve self rho rng = Raise (KeyError key)).
Proof.
  unfold If_run, If_evolve, memory_get. cbn. split_and!.
  - intros stored -> Hne. simpl. by rewrite decide_False.
  - intros ->. simpl. by rewrite decide_True.
  - by intros ->.
  - intros stored -> Hne. simpl. by rewrite decide_False.
  - intros ->. simpl. by rewrite decide_True.
  - by intros ->.
Qed.

End Conditional.

(** *** Measure *)

Section Measurement.

(** [Project0 (q).run], [Project1 (q).run]: the projections of one qubit,
    run by [Gate.run], which is not among the sources; [State.norm] and
    [State.normalize] of the state contract. *)
Variable Project0_run : Qubit -> State -> Result State.
Variable Project1_run : Qubit -> State -> Result State.
Variable norm : State -> Q.
Variable normalize : State -> State.

(** [Measure]: the qubit to measure and the address of the outcome. *)
Record Measure : Type := mkMeasure {
  meas_qubit : Qubit;
  meas_cbit : nat
}.

(** [Measure.__init__ (qubit, cbit = None)]: the outcome goes to the address
    named like the qubit unless another is given. *)
Definition Measure_init (qubit : Qubit) (cbit : option nat) : Measure :=
  mkMeasure qubit (default qubit cbit).

(** [Measure.run] *)
Definition Measure_run (self : Measure) (ket : State) (rng : Rng)
    : Result (State * Rng) :=
  projected ← Project0_run (meas_qubit self) ket;
  let prob_zero := norm projected in
  let (sample, rng') := random rng in
  if Qlt_le_dec sample prob_zero then
    zero ← Project0_run (meas_qubit self) ket;
    Ok (store (normalize zero) (meas_cbit self) 0, rng')
  else
    one ← Project1_run (meas_qubit self) ket;
    Ok (store (normalize one) (meas_cbit self) 1, rng').

(** C6.  [Measure.run] projects onto the zero subspace, takes the norm of the
    projection as the probability of outcome 0, draws one sample, and
    returns the normalized branch it took with the outcome stored at the
    target address: outcome 0 when the sample is below the probability, 1
    otherwise.  When the probability of zero is 1, every sample of the unit
    interval takes the zero branch and the memory holds 0 at the target
    address. *)
Theorem Measure_run_samples (self : Measure) (ket : State) (rng : Rng)
    (zero : State) :
  unit_interval rng →
  Project0_run (meas_qubit self) ket = Ok zero →
  let sample := samples rng (drawn rng) in
  let rng' := mkRng (samples rng) (S (drawn rng)) in
  let target := meas_cbit self in
  (∀ one, Project1_run (meas_qubit self) ket = Ok one →
     Measure_run self ket rng
     = Ok (if Qlt_le_dec sample (norm zero)
           then store (normalize zero) target 0
           else store (normalize one) target 1, rng')) ∧
  ((norm zero == 1)%Q →
     Measure_run self ket rng = Ok (store (normalize zero) target 0, rng') ∧
     ∀ final rng'', Measure_run self ket rng = Ok (final, rng'') →
       s_memory final !! target = Some 0%Z ∧ drawn rng'' = S (drawn rng)).
Proof.
  intros Hunit Hzero sample rng' target. unfold Measure_run. rewrite Hzero. simpl.
  fold sample target. split.
  - intros one ->. destruct (Qlt_le_dec sample (norm zero)); reflexivity.
  - intros Hone.
    assert (Hrun : (if Qlt_le_dec sample (norm zero)
                    then Ok (store (normalize zero) target 0, rng')
                    else one ← Project1_run (meas_qubit self) ket;
                         Ok (store (normalize one) target 1, rng'))
                   = Ok (store (normalize zero) target 0, rng')).
    { destruct (Qlt_le_dec sample (norm zero)) as [Hlt|Hge]; [reflexivity|].
      exfalso. destruct (Hunit (drawn rng)) as [_ Hlt1]. fold sample in Hlt1.
      rewrite Hone in Hge. apply (Qlt_irrefl sample).
      eapply Qlt_le_trans; eassumption. }
    fold rng'. rewrite Hrun. split; [reflexivity|].
    intros final rng'' [= <- <-]. split; [apply store_lookup|reflexivity].
Qed.

End Measurement.

End States.

(** ** Moment *)

Section Moments.

(** The operations a moment holds, each with its qubits. *)
Variable Operation : Type.
Variable op_qubits : Operation -> Qubits.

(** Two operations with no qubit in common, and a sequence of operations
    with pairwise disjoint qubits. *)
Definition share_no_qubit (a b : Operation) : Prop :=
  ∀ q, q ∈ op_qubits a → q ∉ op_qubits b.

Fixpoint pairwise_disjoint (children : list Operation) : Prop :=
  match children with
  | [] => True
  | a :: rest => Forall (share_no_qubit a) rest ∧ pairwise_disjoint rest
  end.

Lemma NoDup_flat_map_qubits (children : list Operation) :
  NoDup (flat_map op_qubits children) ↔
  Forall (fun e => NoDup (op_qubits e)) children ∧ pairwise_disjoint children.
Proof.
  induction children as [|a rest IH]; simpl.
  - split; [intros _; split; [constructor|done]|intros _; constructor].
  - rewrite NoDup_app, IH, Forall_cons.
    assert (Hd : (∀ q, q ∈ op_qubits a → q ∉ flat_map op_qubits rest)
                 ↔ Forall (share_no_qubit a) rest).
    { rewrite Forall_forall. unfold share_no_qubit. split.
      - intros Hd b Hb q Hq Hqb. apply (Hd q Hq).
        apply Operations.elem_of_flat_map. eauto.
      - intros Hd q Hq (b & Hb & Hqb)%Operations.elem_of_flat_map.
        by apply (Hd b Hb q). }
    rewrite Hd. tauto.
Qed.

(** Modelled from the spec: [circuits.Circuit] is not among the sources.  A
    composite keeps its children in order; its qubits default to the sorted
    union of the children's, and an explicit closure must be a superset of
    that union, else construction fails. *)
Record Circuit : Type := mkCircuit {
  c_elements : list Operation;
  c_qubits : Qubits
}.

Definition Circuit_init (elements : list Operation) (qubits : option Qubits)
    : Result Circuit :=
  let elem_qubits := sorted_set (flat_map op_qubits elements) in
  match qubits with
  | None => Ok (mkCircuit elements elem_qubits)
  | Some qs =>
      if issubset elem_qubits qs then Ok (mkCircuit elements qs)
      else Raise (ValueError "Incommensurate qubits")
  end.

(** [Circuit (elements).flat ()], the elementary operations of the children;
    [Circuit.flat] is not among the sources. *)
Variable flat : list Operation -> list Operation.

Record Moment : Type := mkMoment {
  m_qubits : Qubits;
  m_circ : Circuit
}.

(** [Moment.__init__] *)
Definition Moment_init (elements : list Operation) (qubits : option Qubits)
    : Result Moment :=
  circ ← Circuit_init (flat elements) qubits;
  let qbs := flat_map op_qubits (c_elements circ) in
  if decide (length qbs ≠ length (remove_dups qbs)) then
    Raise (ValueError "Qubits of operations within Moments must be disjoint.")
  else Ok (mkMoment (c_qubits circ) circ).

(** [Moment.__iter__] *)
Definition Moment_elements (m : Moment) : list Operation := c_elements (m_circ m).

(** C7.  Without an explicit closure, or with a closure that contains the
    children's qubits, the constructor of [Moment] raises the disjointness
    error exactly when the flattened list of the children's qubits has a
    duplicate; otherwise it succeeds and the moment holds the children in
    the order given.  When no child repeats a qubit of its own, a duplicate
    means that two children share a qubit. *)
Theorem Moment_init_disjoint (elements : list Operation) (closure : option Qubits) :
  let children := flat elements in
  let qbs := flat_map op_qubits children in
  match closure with
  | None => True
  | Some qs => ∀ q, q ∈ qbs → q ∈ qs
  end →
  (Moment_init elements closure
     = Raise (ValueError "Qubits of operations within Moments must be disjoint.")
   ↔ ¬ NoDup qbs) ∧
  (NoDup qbs ↔
     ∃ m, Moment_init elements closure = Ok m ∧
          Moment_elements m = children ∧
          m_qubits m = default (sorted_set qbs) closure) ∧
  (flat elements = elements → NoDup qbs →
     ∃ m, Moment_init elements closure = Ok m ∧ Moment_elements m = elements) ∧
  (Forall (fun e => NoDup (op_qubits e)) children →
     (NoDup qbs ↔ pairwise_disjoint children)).
Proof.
  intros children qbs Hclosure.
  assert (Hcirc : Circuit_init children closure
                  = Ok (mkCircuit children (default (sorted_set qbs) closure))).
  { unfold Circuit_init. destruct closure as [qs|]; [|reflexivity].
    fold qbs. rewrite (proj2 (Operations.issubset_sorted_set qbs qs)); done. }
  unfold Moment_init. fold children. rewrite Hcirc. simpl. fold qbs.
  pose proof (Operations.length_remove_dups_NoDup qbs) as Hdup.
  pose proof (NoDup_flat_map_qubits children) as Hpairs. fold qbs in Hpairs.
  destruct (decide (length qbs ≠ length (remove_dups qbs))) as [Hne|Heq].
  - assert (Hnd : ¬ NoDup qbs) by (intros Hnd; apply Hdup in Hnd; congruence).
    split_and!.
    + done.
    + split; [done|]. by intros (m & [=] & _).
    + intros _ Hn. contradiction.
    + tauto.
  - assert (Hnd : NoDup qbs) by (apply Hdup; lia).
    split_and!.
    + split; [discriminate|done].
    + split; [|done]. intros _. eexists. split; [reflexivity|]. done.
    + intros Hflat _. eexists. split; [reflexivity|]. unfold Moment_elements.
      simpl. done.
    + tauto.
Qed.

End Moments.


(** ** A one-qubit state with rational amplitudes *)

(** The amplitudes of [|0>] and [|1>]. *)
Definition Amplitudes : Type := (Q * Q)%type.

Definition project0 (q : Qubit) (ket : State Amplitudes) : Result (State Amplitudes) :=
  Ok (mkState _ (fst (s_tensor _ ket), 0%Q) (s_qubits _ ket) (s_memory _ ket)).

Definition project1 (q : Qubit) (ket : State Amplitudes) : Result (State Amplitudes) :=
  Ok (mkState _ (0%Q, snd (s_tensor _ ket)) (s_qubits _ ket) (s_memory _ ket)).

Definition norm_squared (ket : State Amplitudes) : Q :=
  (fst (s_tensor _ ket) * fst (s_tensor _ ket)
   + snd (s_tensor _ ket) * snd (s_tensor _ ket))%Q.

(** Division by the norm, exact on the basis states. *)
Definition normalize_basis (ket : State Amplitudes) : State Amplitudes :=
  mkState _ ((fst (s_tensor _ ket) / norm_squared ket)%Q,
             (snd (s_tensor _ ket) / norm_squared ket)%Q)
          (s_qubits _ ket) (s_memory _ ket).

Definition ket_zero : State Amplitudes := mkState _ (1%Q, 0%Q) [0] ∅.

(** A generator whose samples approach one from below: 1/2, 2/3, 3/4, ... *)
Definition rising_rng : Rng :=
  mkRng (fun n => Z.of_nat (S n) # Pos.of_nat (S (S n))) 0.

Lemma rising_rng_unit_interval : unit_interval rising_rng.
Proof.
  intros n. unfold rising_rng, Qle, Qlt. cbn [samples Qnum Qden]. split; lia.
Defined.

Lemma Measure_run_samples_witness :
  unit_interval rising_rng ∧
  project0 0 ket_zero = Ok ket_zero ∧
  (norm_squared ket_zero == 1)%Q ∧
  ∃ final rng',
    Measure_run Amplitudes project0 project1 norm_squared normalize_basis
      (Measure_init 0 (Some 5)) ket_zero rising_rng = Ok (final, rng') ∧
    s_memory _ final !! 5 = Some 0%Z ∧ drawn rng' = 1.
Proof.
  assert (Hzero : project0 0 ket_zero = Ok ket_zero) by reflexivity.
  assert (Hnorm : (norm_squared ket_zero == 1)%Q) by reflexivity.
  destruct (Measure_run_samples Amplitudes project0 project1 norm_squared
              normalize_basis (Measure_init 0 (Some 5)) ket_zero rising_rng ket_zero
              rising_rng_unit_interval Hzero) as [_ Hone].
  destruct (Hone Hnorm) as [Hrun Hfinal].
  split_and!; [exact rising_rng_unit_interval|exact Hzero|exact Hnorm|].
  eexists _, _. split; [exact Hrun|].
  exact (Hfinal _ _ Hrun).
Defined.

(** ** Moments of operations given by their qubits *)

Lemma Moment_init_disjoint_witness :
  let elements := [[0]; [1; 2]] in
  ∃ m, Moment_init (list nat) id id elements None = Ok m ∧
       Moment_elements _ m = elements ∧ m_qubits _ m = [0; 1; 2].
Proof.
  intros elements.
  destruct (Moment_init_disjoint (list nat) id id elements None I)
    as (_ & Hok & _ & _).
  assert (Hnd : NoDup (flat_map id (id elements))).
  { apply (bool_decide_unpack _). exact I. }
  destruct (proj1 Hok Hnd) as (m & Hm & Hel & Hqs).
  exists m. split_and!; assumption.
Defined.

(** Two children on qubit 0 are refused. *)
Example Moment_init_shared_qubit :
  Moment_init (list nat) id id [[0; 1]; [0]] None
  = Raise (ValueError "Qubits of operations within Moments must be disjoint.").
Proof. reflexivity. Qed.

(** ** Store, Measure and If together *)

Section Protocols.

Variable Tensor : Type.
Variable Operation : Type.
Variable op_run : Operation -> State Tensor -> Rng -> Result (State Tensor * Rng).
Variable op_evolve : Operation -> Density Tensor -> Rng -> Result (Density Tensor * Rng).

(** [Store]: the address, the value and the qubits it is declared over. *)
Record Store : Type := mkStore {
  store_key : nat;
  store_value : Z;
  store_qubits : Qubits
}.

(** [Store.__init__ (key, value, qubits = ())] *)
Definition Store_init (key : nat) (value : Z) (qubits : option Qubits) : Store :=
  mkStore key value (default [] qubits).

(** [Store.run] *)
Definition Store_run (self : Store) (ket : State Tensor) : State Tensor :=
  store Tensor ket (store_key self) (store_value self).

(** [Store.evolve] *)
Definition Store_evolve (self : Store) (rho : Density Tensor) : Density Tensor :=
  rho_store Tensor rho (store_key self) (store_value self).

(** X17.  What [Store] writes, [If] reads: after [Store (key, w)] an [If] on
    [key] never raises [KeyError], and runs its operation exactly when [w] is
    the value it expects; an [If] on another address decides as it would
    have before the store.  A second store to the same address overwrites the
    first, and stores to different addresses commute.  The quantum data and
    the qubits are left alone. *)
Theorem Store_then_If (st : Store) (op : Operation) (v : Z)
    (ket : State Tensor) (rng : Rng) :
  let stored := Store_run st ket in
  s_tensor _ stored = s_tensor _ ket ∧
  s_qubits _ stored = s_qubits _ ket ∧
  If_run Tensor Operation op_run (If_init Operation op (store_key st) (Some v)) stored rng
  = (if decide (store_value st = v) then op_run op stored rng else Ok (stored, rng)) ∧
  (∀ key, key ≠ store_key st →
     If_run Tensor Operation op_run (If_init Operation op key (Some v)) stored rng
     = match s_memory _ ket !! key with
       | Some w => if decide (w = v) then op_run op stored rng else Ok (stored, rng)
       | None => Raise (KeyError key)
       end) ∧
  (∀ st', store_key st' = store_key st →
     Store_run st' stored = Store_run st' ket) ∧
  (∀ st', store_key st' ≠ store_key st →
     Store_run st' stored = Store_run st (Store_run st' ket)).
Proof.
  intros stored. unfold stored, Store_run, If_run, If_init, memory_get, store.
  cbn [s_tensor s_qubits s_memory if_key if_value if_element default].
  split_and!; try reflexivity.
  - by rewrite lookup_insert_eq.
  - intros key Hne. rewrite lookup_insert_ne by done.
    by destruct (s_memory Tensor ket !! key).
  - intros st' ->. by rewrite insert_insert_eq.
  - intros st' Hne. by rewrite insert_insert_ne.
Qed.

Section MeasuredControl.

Variable Project0_run : Qubit -> State Tensor -> Result (State Tensor).
Variable Project1_run : Qubit -> State Tensor -> Result (State Tensor).
Variable norm : State Tensor -> Q.
Variable normalize : State Tensor -> State Tensor.

(** X18.  A measurement followed by an [If] on the measured address with the
    default value [True]: one sample is drawn; below the probability of zero
    the state is the normalized zero branch with outcome 0 stored, and the
    operation is not run; otherwise the operation runs on the normalized one
    branch with outcome 1 stored.  The lookup of the [If] never fails.  And
    whatever the projections do, a measurement that returns has stored 0
    or 1 at its address and drawn exactly one sample. *)
Theorem Measure_then_If (m : Measure) (op : Operation)
    (ket zero one : State Tensor) (rng : Rng) :
  Project0_run (meas_qubit m) ket = Ok zero →
  Project1_run (meas_qubit m) ket = Ok one →
  let sample := samples rng (drawn rng) in
  let rng' := mkRng (samples rng) (S (drawn rng)) in
  let measure := Measure_run Tensor Project0_run Project1_run norm normalize m in
  let cond := If_init Operation op (meas_cbit m) None in
  (measured ← measure ket rng;
   If_run Tensor Operation op_run cond measured.1 measured.2)
  = (if Qlt_le_dec sample (norm zero)
     then Ok (store Tensor (normalize zero) (meas_cbit m) 0, rng')
     else op_run op (store Tensor (normalize one) (meas_cbit m) 1) rng') ∧
  (∀ ket0 final rng'',
     measure ket0 rng = Ok (final, rng'') →
     (s_memory _ final !! meas_cbit m = Some 0%Z ∨
      s_memory _ final !! meas_cbit m = Some 1%Z) ∧
     rng'' = rng').
Proof.
  intros Hzero Hone sample rng' measure cond. split.
  - unfold measure, Measure_run. rewrite Hzero, Hone.
    cbn [mbind Result_bind random]. fold sample rng'.
    destruct (Qlt_le_dec sample (norm zero));
      cbn [mbind Result_bind fst snd]; unfold If_run, memory_get, cond, If_init;
      cbn [if_key if_value if_element default]; rewrite store_lookup;
      cbn [mbind Result_bind].
    + by rewrite decide_False.
    + by rewrite decide_True.
  - intros ket0 final rng''. unfold measure, Measure_run.
    destruct (Project0_run (meas_qubit m) ket0) as [z|e]; [|discriminate].
    cbn [mbind Result_bind random]. fold rng'.
    destruct (Qlt_le_dec _ _).
    + intros [= <- <-]. split; [left; apply store_lookup|reflexivity].
    + destruct (Project1_run (meas_qubit m) ket0) as [o|e]; [|discriminate].
      intros [= <- <-]. split; [right; apply store_lookup|reflexivity].
Qed.

End MeasuredControl.

Section MeasuredEvolution.

(** [Project0 (q).aschannel ().evolve], [Project1 (q).aschannel ().evolve]:
    the channels of the projections, which are not among the sources, and
    [Density.norm], [Density.normalize] of the state contract. *)
Variable p0_evolve : Qubit -> Density Tensor -> Result (Density Tensor).
Variable p1_evolve : Qubit -> Density Tensor -> Result (Density Tensor).
Variable rho_norm : Density Tensor -> Q.
Variable rho_normalize : Density Tensor -> Density Tensor.

(** [Measure.evolve] *)
Definition Measure_evolve (self : Measure) (rho : Density Tensor) (rng : Rng)
    : Result (Density Tensor * Rng) :=
  projected ← p0_evolve (meas_qubit self) rho;
  let prob_zero := rho_norm projected in
  let (sample, rng') := random rng in
  if Qlt_le_dec sample prob_zero then
    zero ← p0_evolve (meas_qubit self) rho;
    Ok (rho_store Tensor (rho_normalize zero) (meas_cbit self) 0, rng')
  else
    one ← p1_evolve (meas_qubit self) rho;
    Ok (rho_store Tensor (rho_normalize one) (meas_cbit self) 1, rng').

(** X19.  [Measure.evolve] does to a mixed state what [Measure.run] does to
    a pure one: with both projections defined it draws one sample and returns
    the normalized zero branch with outcome 0 stored when the sample is
    below the norm of the zero projection, the normalized one branch with
    outcome 1 stored otherwise; it raises only what a projection raises, and
    the one branch is not evaluated when zero is taken.  An [If.evolve] on the
    measured address, with the default value, then applies its operation in
    the one branch only. *)
Theorem Measure_evolve_then_If (m : Measure) (op : Operation)
    (rho zero : Density Tensor) (rng : Rng) :
  p0_evolve (meas_qubit m) rho = Ok zero →
  let sample := samples rng (drawn rng) in
  let rng' := mkRng (samples rng) (S (drawn rng)) in
  let cond := If_init Operation op (meas_cbit m) None in
  ((sample < rho_norm zero)%Q →
     Measure_evolve m rho rng
     = Ok (rho_store Tensor (rho_normalize zero) (meas_cbit m) 0, rng') ∧
     (measured ← Measure_evolve m rho rng;
      If_evolve Tensor Operation op_evolve cond measured.1 measured.2)
     = Ok (rho_store Tensor (rho_normalize zero) (meas_cbit m) 0, rng')) ∧
  ((rho_norm zero <= sample)%Q →
     ∀ one, p1_evolve (meas_qubit m) rho = Ok one →
     Measure_evolve m rho rng
     = Ok (rho_store Tensor (rho_normalize one) (meas_cbit m) 1, rng') ∧
     (measured ← Measure_evolve m rho rng;
      If_evolve Tensor Operation op_evolve cond measured.1 measured.2)
     = op_evolve op (rho_store Tensor (rho_normalize one) (meas_cbit m) 1) rng') ∧
  ((rho_norm zero <= sample)%Q →
     ∀ e, p1_evolve (meas_qubit m) rho = Raise e → Measure_evolve m rho rng = Raise e).
Proof.
  intros Hzero sample rng' cond. unfold Measure_evolve. rewrite Hzero.
  cbn [mbind Result_bind random]. fold sample rng'.
  assert (Hlook : ∀ r v, rho_memory _ (rho_store Tensor r (meas_cbit m) v) !! meas_cbit m
                         = Some v).
  { intros r v. unfold rho_store. cbn [rho_memory]. apply lookup_insert_eq. }
  split_and!.
  - intros Hlt. destruct (Qlt_le_dec sample (rho_norm zero)) as [_|Hge].
    + split; [reflexivity|]. cbn [mbind Result_bind fst snd].
      unfold If_evolve, memory_get, cond, If_init.
      cbn [if_key if_value if_element default]. rewrite Hlook.
      cbn [mbind Result_bind]. by rewrite decide_False.
    + exfalso. apply (Qlt_irrefl sample). eapply Qlt_le_trans; eassumption.
  - intros Hge one Hone. destruct (Qlt_le_dec sample (rho_norm zero)) as [Hlt|_].
    + exfalso. apply (Qlt_irrefl sample). eapply Qlt_le_trans; eassumption.
    + rewrite Hone. split; [reflexivity|]. cbn [mbind Result_bind fst snd].
      unfold If_evolve, memory_get, cond, If_init.
      cbn [if_key if_value if_element default]. rewrite Hlook.
      cbn [mbind Result_bind]. by rewrite decide_True.
  - intros Hge e Hone. destruct (Qlt_le_dec sample (rho_norm zero)) as [Hlt|_].
    + exfalso. apply (Qlt_irrefl sample). eapply Qlt_le_trans; eassumption.
    + by rewrite Hone.
Qed.

End MeasuredEvolution.

End Protocols.

(** A measurement of [|0>] with the sample 1/2 stores 0, and the operation
    under the [If] is not run. *)
Lemma Measure_then_If_witness :
  let run_flip (_ : unit) (ket : State Amplitudes) (rng : Rng) :=
    Ok (mkState _ (snd (s_tensor _ ket), fst (s_tensor _ ket))
          (s_qubits _ ket) (s_memory _ ket), rng) in
  (measured ← Measure_run Amplitudes project0 project1 norm_squared normalize_basis
                (Measure_init 0 (Some 5)) ket_zero rising_rng;
   If_run Amplitudes unit run_flip (If_init unit tt 5 None) measured.1 measured.2)
  = Ok (store Amplitudes (normalize_basis ket_zero) 5 0, mkRng (samples rising_rng) 1).
Proof.
  intros run_flip.
  destruct (Measure_then_If Amplitudes unit run_flip project0 project1 norm_squared
              normalize_basis (Measure_init 0 (Some 5)) tt ket_zero
              ket_zero (mkState _ (0%Q, 0%Q) [0] ∅) rising_rng eq_refl eq_refl)
    as [Hrun _].
  exact Hrun.
Defined.

(** The same on the mixed state, with the projections acting on the two
    diagonal entries. *)
Lemma Measure_evolve_then_If_witness :
  let p0 (_ : Qubit) (rho : Density (Q * Q)) :=
    Ok (mkDensity _ (fst (rho_tensor _ rho), 0%Q) (rho_qubits _ rho) (rho_memory _ rho)) in
  let p1 (_ : Qubit) (rho : Density (Q * Q)) :=
    Ok (mkDensity _ (0%Q, snd (rho_tensor _ rho)) (rho_qubits _ rho) (rho_memory _ rho)) in
  let trace (rho : Density (Q * Q)) := (fst (rho_tensor _ rho) + snd (rho_tensor _ rho))%Q in
  let rho := mkDensity (Q * Q) (1%Q, 0%Q) [0] ∅ in
  Measure_evolve (Q * Q) p0 p1 trace id (Measure_init 0 None) rho rising_rng
  = Ok (rho_store _ rho 0 0, mkRng (samples rising_rng) 1).
Proof.
  intros p0 p1 trace rho.
  destruct (Measure_evolve_then_If (Q * Q) unit (fun _ r g => Ok (r, g)) p0 p1 trace id
              (Measure_init 0 None) tt rho rho rising_rng eq_refl)
    as (Hzero & _ & _).
  assert (Hlt : (samples rising_rng (drawn rising_rng) < trace (id rho))%Q)
    by reflexivity.
  exact (proj1 (Hzero Hlt)).
Defined.

End Stdops.

(** * Parameters of gates ([var.py]) *)

Module Var.

Section Variables.

(** [sympy.Expr], with its structural equality [==], and [sympy.S.Zero]. *)
Variable Expr : Type.
Context `{EqDecision Expr}.
Variable Zero : Expr.

(** A [Variable], that is a number or a symbolic expression.  The numbers
    are the finite reals, taken exactly. *)
Inductive RealVariable : Type :=
| Number (x : Q)
| Symbolic (e : Expr).

(** [is_symbolic]: [isinstance (x, sympy.Expr)] *)
Definition is_symbolic (x : RealVariable) : bool :=
  match x with
  | Number _ => false
  | Symbolic _ => true
  end.

(** [np.isclose (a, b, atol, rtol)] on finite numbers:
    [|a - b| <= atol + rtol * |b|]. *)
Definition np_isclose (a b atol rtol : Q) : bool :=
  Qle_bool (Qabs (a - b)) (atol + rtol * Qabs b).

(** [x == y] between two values, as [isclose] and [almost_zero] use it.
    How sympy compares a number with one of its constants is its own affair:
    [number_eq_Zero] is the outcome of [x == sympy.S.Zero] for a number
    [x]. *)
Variable number_eq_Zero : Q -> bool.

Definition eq_Zero (x : RealVariable) : bool :=
  match x with
  | Number a => number_eq_Zero a
  | Symbolic e => bool_decide (e = Zero)
  end.

(** [isclose] *)
Definition isclose (x y : RealVariable) (atol rtol : Q) : bool :=
  if negb (is_symbolic x) && negb (is_symbolic y) then
    match x, y with
    | Number a, Number b => np_isclose a b atol rtol
    | _, _ => false
    end
  else if is_symbolic x && is_symbolic y then
    match x, y with
    | Symbolic a, Symbolic b => bool_decide (a = b)
    | _, _ => false
    end
  else false.

(** [config.RTOL], the default of [isclose]. *)
Variable RTOL : Q.

(** [almost_zero] *)
Definition almost_zero (x : RealVariable) (atol : Q) : bool :=
  if eq_Zero x then true
  else isclose x (Number 0) atol RTOL.

(** Only a number that is zero compares equal to [sympy.S.Zero]. *)
Hypothesis number_eq_Zero_sound : ∀ a, number_eq_Zero a = true → (a == 0)%Q.

(** X23.  [isclose] never holds between a number and a symbolic expression,
    and holds between two expressions only when they are the same.  So a
    symbolic expression is [almost_zero] only when it is the constant zero,
    whatever the tolerance; and a number is [almost_zero] exactly when its
    absolute value is within the absolute tolerance, the relative tolerance
    playing no part. *)
Theorem almost_zero_cases (atol rtol : Q) :
  (∀ a e, isclose (Number a) (Symbolic e) atol rtol = false ∧
          isclose (Symbolic e) (Number a) atol rtol = false) ∧
  (∀ e e', isclose (Symbolic e) (Symbolic e') atol rtol = true ↔ e = e') ∧
  (∀ e, almost_zero (Symbolic e) atol = true ↔ e = Zero) ∧
  ((0 <= atol)%Q → ∀ a, almost_zero (Number a) atol = true ↔ (Qabs a <= atol)%Q).
Proof using number_eq_Zero_sound.
  split_and!.
  - done.
  - intros e e'. unfold isclose. cbn. apply bool_decide_eq_true.
  - intros e. unfold almost_zero, eq_Zero, isclose. cbn.
    destruct (bool_decide (e = Zero)) eqn:Hz.
    + apply bool_decide_eq_true in Hz. done.
    + apply bool_decide_eq_false in Hz. split; [discriminate|contradiction].
  - intros Hatol a. unfold almost_zero, eq_Zero, isclose, np_isclose. cbn [is_symbolic negb andb].
    destruct (number_eq_Zero a) eqn:Hz.
    + apply number_eq_Zero_sound in Hz. split; [intros _|done].
      rewrite Hz. exact Hatol.
    + rewrite Qle_bool_iff.
      assert (Ha : (a - 0 == a)%Q) by ring.
      assert (Ht : (atol + RTOL * Qabs 0 == atol)%Q) by (change (Qabs 0) with 0%Q; ring).
      by rewrite Ha, Ht.
Qed.

End Variables.

Lemma almost_zero_cases_witness :
  let is_zero (a : Q) := Qeq_bool a 0 in
  almost_zero nat 0 is_zero (1 # 100000) (Number nat (1 # 1000000)) (1 # 1000) = true ∧
  almost_zero nat 0 is_zero (1 # 100000) (Symbolic nat 7) (1 # 1000) = false.
Proof.
  intros is_zero.
  assert (Hsound : ∀ a, is_zero a = true → (a == 0)%Q)
    by (intros a; apply Qeq_bool_eq).
  destruct (almost_zero_cases nat 0 is_zero (1 # 100000) Hsound (1 # 1000) (1 # 100000))
    as (_ & _ & Hsym & Hnum).
  split.
  - apply (Hnum ltac:(discriminate)). discriminate.
  - destruct (almost_zero nat 0 is_zero (1 # 100000) (Symbolic nat 7) (1 # 1000)) eqn:Hz;
      [|reflexivity].
    apply Hsym in Hz. discriminate.
Defined.

End Var.
